(** * PIClet generator: a shallow embedding of [aggregate/piclet_generator.py]

    The development follows the Python module function by function.  The
    layout database (KLayout's [pya]) is an external collaborator of the
    script; the part of its object model the script relies on (transforms,
    boxes, cells, instances, arrays) is modelled in [Geometry] and [Layout]
    after the library's documented behaviour.  External services (git, the
    GitHub REST API, the verification routine, the exporter) enter the model
    as explicit environment records. *)

From stdpp Require Import gmap strings list pretty sorting.
From Stdlib Require Import ZArith Lia Ascii.

Open Scope Z_scope.

(** ** Geometry: [pya.Trans], [pya.Box] *)

Module Geometry.

(** The rotation part of a [pya.Trans]: multiples of 90 degrees. *)
Inductive angle := R0 | R90 | R180 | R270.

Definition angle_add (a b : angle) : angle :=
  match a, b with
  | R0, x | x, R0 => x
  | R90, R90 => R180 | R90, R180 => R270 | R90, R270 => R0
  | R180, R90 => R270 | R180, R180 => R0 | R180, R270 => R90
  | R270, R90 => R0 | R270, R180 => R90 | R270, R270 => R180
  end.

Definition angle_neg (a : angle) : angle :=
  match a with R0 => R0 | R90 => R270 | R180 => R180 | R270 => R90 end.

Definition Vector : Type := (Z * Z)%type.

Definition vadd (u v : Vector) : Vector := (u.1 + v.1, u.2 + v.2).
Definition vscale (k : Z) (v : Vector) : Vector := (k * v.1, k * v.2).

Definition rotate (a : angle) (v : Vector) : Vector :=
  match a with
  | R0 => v
  | R90 => (- v.2, v.1)
  | R180 => (- v.1, - v.2)
  | R270 => (v.2, - v.1)
  end.

(** A [pya.Trans]: mirror at the x axis first, then rotate, then displace. *)
Record Trans := mkTrans { rot : angle; mirror : bool; disp : Vector }.

Definition fix_apply (a : angle) (m : bool) (v : Vector) : Vector :=
  rotate a (if m then (v.1, - v.2) else v).

Definition trans_apply (t : Trans) (p : Vector) : Vector :=
  vadd (fix_apply (rot t) (mirror t) p) (disp t).

(** [pya.Trans()] and [pya.Trans.R0]. *)
Definition trans_id : Trans := mkTrans R0 false (0, 0).

(** [pya.Trans(x, y)]: a pure displacement. *)
Definition trans_disp (x y : Z) : Trans := mkTrans R0 false (x, y).

(** [a * b]: the concatenation in which [b] is applied first. *)
Definition trans_mul (a b : Trans) : Trans :=
  mkTrans (angle_add (rot a) (if mirror a then angle_neg (rot b) else rot b))
          (xorb (mirror a) (mirror b))
          (vadd (fix_apply (rot a) (mirror a) (disp b)) (disp a)).

Record Box := mkBox { left : Z; bottom : Z; right : Z; top : Z }.

(** [Box.transformed(t)]: the transformed corners, normalised. *)
Definition box_transformed (t : Trans) (b : Box) : Box :=
  let p := trans_apply t (left b, bottom b) in
  let q := trans_apply t (right b, top b) in
  mkBox (Z.min p.1 q.1) (Z.min p.2 q.2) (Z.max p.1 q.1) (Z.max p.2 q.2).

(** [Box.center()]. *)
Definition box_center (b : Box) : Vector :=
  (left b + (right b - left b) / 2, bottom b + (top b - bottom b) / 2).

End Geometry.

Import Geometry.

(** ** The layout database: cells and instances *)

Module Layout.

(** A regular array: [na] by [nb] placements along the step vectors [a], [b]. *)
Record ArraySpec := mkArray { a : Vector; b : Vector; na : nat; nb : nat }.

(** A [pya.Instance]: the index of the instantiated cell, the placement and,
    for [is_regular_array()], the array description. *)
Record Inst := mkInst {
  cell_index : nat;
  trans : Trans;
  array : option ArraySpec
}.

(** A [pya.Cell]: its name, its child instances in [each_inst()] order and
    its bounding box [cell.bbox()]. *)
Record Cell := mkCell { name : string; insts : list Inst; bbox : Box }.

(** A [pya.Layout]: cells addressed by cell index. *)
Abbreviation layout := (list Cell).

Definition is_regular_array (i : Inst) : bool :=
  match array i with Some _ => true | None => false end.

(** An instance is identified by the cell that holds it and its position
    among that cell's instances. *)
Record InstRef := mkRef { parent_cell : nat; pos : nat }.

Definition get_inst (L : layout) (r : InstRef) : option Inst :=
  c ← L !! parent_cell r; insts c !! pos r.

Definition cell_name (L : layout) (c : nat) : string :=
  match L !! c with Some x => name x | None => "" end.

Definition cell_insts (L : layout) (c : nat) : list Inst :=
  match L !! c with Some x => insts x | None => [] end.

(** The instances of cell [p], paired with their references. *)
Definition inst_refs (L : layout) (p : nat) : list (InstRef * Inst) :=
  imap (fun k i => (mkRef p k, i)) (cell_insts L p).

(** [cell.each_parent_inst()]: every instance in the layout that places
    the cell [c]. *)
Definition each_parent_inst (L : layout) (c : nat) : list InstRef :=
  flat_map
    (fun p => omap (fun ri : InstRef * Inst =>
                      if decide (cell_index ri.2 = c) then Some ri.1 else None)
                   (inst_refs L p))
    (seq 0 (length L)).

(** [top.begin_instances_rec()] with [targets] set to a cell name: the
    instances of cells of that name met in a depth-first walk of the
    hierarchy below [c], in the order of delivery. *)
Fixpoint instances_rec (fuel : nat) (L : layout) (c : nat) (target : string)
  : list InstRef :=
  match fuel with
  | O => []
  | S f =>
      flat_map
        (fun ri : InstRef * Inst =>
           (if decide (cell_name L (cell_index ri.2) = target)
            then [ri.1] else [])
           ++ instances_rec f L (cell_index ri.2) target)
        (inst_refs L c)
  end.

(** The cells of the layout that a traversal with visited set [V] has not
    entered yet. *)
Definition unvisited (L : layout) (V : gset nat) : gset nat :=
  set_seq 0 (length L) ∖ V.

(** A chain of [n] placements starts at the cell [c]: [c] places a cell,
    that cell places a cell, and so on [n] times. *)
Fixpoint chain (L : layout) (n : nat) (c : nat) : bool :=
  match n with
  | O => true
  | S k => existsb (fun i => chain L k (cell_index i)) (cell_insts L c)
  end.

(** The hierarchy is recursive: some cell starts a chain of more
    placements than the layout has cells, so a cell is placed below
    itself. *)
Definition recursive_hierarchy (L : layout) : bool :=
  existsb (chain L (S (length L))) (seq 0 (length L)).

Inductive hierarchy_error := RuntimeError.

(** [cell.each_inst()].  KLayout sorts the cells of a layout top-down
    before it hands out the instances of a cell; a recursive hierarchy
    cannot be sorted, and the call raises [RuntimeError]. *)
Definition each_inst (L : layout) (c : nat) : hierarchy_error + list Inst :=
  if recursive_hierarchy L then inl RuntimeError else inr (cell_insts L c).

End Layout.

Import Layout.

(** ** [move_instance_up_hierarchy] *)

Module MoveUp.

(** The exceptions the function can leave with. *)
Inductive exn := ValueError | AttributeError | UnboundLocalError.

(** The loop state: [accumulated_transform], [current_inst] and the
    variable [instance1], unbound until the iterator delivers an instance. *)
Record state := mkState {
  accumulated_transform : Trans;
  current_inst : InstRef;
  instance1 : option InstRef
}.

(** One pass of the body of [for level in range(num_levels+1)].  The
    message of the second [raise] reads [instance.name], an attribute a
    [pya.Instance] does not have: the ambiguous path leaves with
    [AttributeError], before the [ValueError] is built. *)
Definition level_step (L : layout) (top_cell : nat) (st : state)
  : exn + state :=
  match get_inst L (current_inst st) with
  | None => inl ValueError
  | Some ci =>
      let acc := trans_mul (accumulated_transform st) (trans ci) in
      match each_parent_inst L (cell_index ci) with
      | [] => inl ValueError
      | _ :: _ :: _ => inl AttributeError
      | [_] =>
          let parent := parent_cell (current_inst st) in
          let found :=
            instances_rec (length L) L top_cell (cell_name L parent) in
          let inst1 := match last found with
                       | Some r => Some r
                       | None => instance1 st
                       end in
          match inst1 with
          | None => inl UnboundLocalError
          | Some r => inr (mkState acc r inst1)
          end
      end
  end.

Fixpoint levels (n : nat) (L : layout) (top_cell : nat) (st : state)
  : exn + state :=
  match n with
  | O => inr st
  | S k =>
      match level_step L top_cell st with
      | inl e => inl e
      | inr st' => levels k L top_cell st'
      end
  end.

(** The result of the move: the cell the instance is re-parented to and
    the transform assigned to it. *)
Record moved := mkMoved { new_parent : nat; new_trans : Trans }.

Definition move_instance_up_hierarchy
    (L : layout) (top_cell : nat) (instance : InstRef) (num_levels : nat)
  : exn + moved :=
  match levels (S num_levels) L top_cell (mkState trans_id instance None) with
  | inl e => inl e
  | inr st =>
      match get_inst L (current_inst st) with
      | None => inl ValueError
      | Some ci => inr (mkMoved (cell_index ci) (accumulated_transform st))
      end
  end.

(** The placement of an instance relative to an ancestor cell: the
    transforms of the ancestor instances, outermost first, followed by the
    instance's own, each applied after the ones to its right. *)
Definition absolute_trans (path : list Trans) : Trans :=
  foldr trans_mul trans_id path.

(** A hierarchy TOP > piclet > tree > submission: the tree is placed in the
    piclet cell by a displacement, the submission in the tree rotated. *)
Definition leaf_box : Box := mkBox 0 0 10 10.
Definition t_tree : Trans := mkTrans R0 false (100, 0).
Definition t_sub : Trans := mkTrans R90 false (0, 0).
Definition ex_layout : layout :=
  [ mkCell "TOP" [mkInst 1 trans_id None] leaf_box;
    mkCell "piclet" [mkInst 2 t_tree None] leaf_box;
    mkCell "tree" [mkInst 3 t_sub None] leaf_box;
    mkCell "submission" [] leaf_box ].

End MoveUp.

(** ** Python string operations, on ASCII text *)

Module Str.

(** [needle in hay]. *)
Fixpoint contains (needle hay : string) : bool :=
  String.prefix needle hay ||
  match hay with
  | EmptyString => false
  | String _ rest => contains needle rest
  end.

Definition lower_char (c : ascii) : ascii :=
  let n := nat_of_ascii c in
  if ((65 <=? n) && (n <=? 90))%nat then ascii_of_nat (n + 32) else c.

(** [s.lower()]. *)
Fixpoint lower (s : string) : string :=
  match s with
  | EmptyString => EmptyString
  | String c rest => String (lower_char c) (lower rest)
  end.

(** The characters [strip()] removes. *)
Definition is_space (c : ascii) : bool :=
  let n := nat_of_ascii c in
  (((9 <=? n) && (n <=? 13)) || ((28 <=? n) && (n <=? 32)))%nat.

Fixpoint lstrip (s : string) : string :=
  match s with
  | EmptyString => EmptyString
  | String c rest => if is_space c then lstrip rest else s
  end.

(** [s.strip()]. *)
Definition strip (s : string) : string :=
  String.rev (lstrip (String.rev (lstrip s))).

(** [s.split(sep)] for a separator of one character. *)
Fixpoint split (sep : ascii) (s : string) : list string :=
  match s with
  | EmptyString => [EmptyString]
  | String c rest =>
      if decide (c = sep) then EmptyString :: split sep rest
      else match split sep rest with
           | [] => [String c EmptyString]
           | w :: ws => String c w :: ws
           end
  end.

(** [s.replace(c, '')] for a single character [c]. *)
Fixpoint remove_char (c : ascii) (s : string) : string :=
  match s with
  | EmptyString => EmptyString
  | String x rest =>
      if decide (x = c) then remove_char c rest else String x (remove_char c rest)
  end.

End Str.

Import Str.

(** ** [find_port_sin_cell_and_position] *)

Module PortSearch.

Definition port_marker : string := "port_SiN".

Definition box_union (p q : Box) : Box :=
  mkBox (Z.min (left p) (left q)) (Z.min (bottom p) (bottom q))
        (Z.max (right p) (right q)) (Z.max (top p) (top q)).

Definition box_moved (d : Vector) (p : Box) : Box :=
  mkBox (left p + d.1) (bottom p + d.2) (right p + d.1) (top p + d.2).

(** [inst.bbox()]: the bounding box of the placed cell in the frame of the
    cell that holds the instance; for an array, the hull of its members,
    which the four corner members span. *)
Definition inst_bbox (L : layout) (i : Inst) : Box :=
  let base :=
    box_transformed (trans i)
      (match L !! cell_index i with Some c => bbox c | None => mkBox 0 0 0 0 end) in
  match array i with
  | None => base
  | Some ar =>
      let ea := vscale (Z.of_nat (na ar) - 1) (a ar) in
      let eb := vscale (Z.of_nat (nb ar) - 1) (b ar) in
      box_union (box_union base (box_moved ea base))
                (box_union (box_moved eb base) (box_moved (vadd ea eb) base))
  end.

(** What the search keeps between calls: the shared [visited_cells] set and
    the cells announced through [log_func] ("Searching for port_SiN
    instances in cell"), most recent first. *)
Record search_state := mkSearch { visited_cells : gset nat; searched : list nat }.

(** [(port_cell, y_position)], or [None] for [(None, None)]. *)
Definition found : Type := option (nat * Z).

(** The first loop: the direct instances of the cell. *)
Fixpoint direct_port (L : layout) (il : list Inst) : found :=
  match il with
  | [] => None
  | i :: rest =>
      if contains port_marker (cell_name L (cell_index i))
      then Some (cell_index i, (box_center (inst_bbox L i)).2)
      else direct_port L rest
  end.

(** What a call ends with: [RuntimeError] out of [each_inst], or the pair
    it returns and the state of the search. *)
Definition outcome : Type := hierarchy_error + (found * search_state).

(** The second loop, over a recursive call [rec]; [None] is a call that
    exhausted its budget. *)
Fixpoint sub_ports (rec : nat -> search_state -> option outcome)
    (il : list Inst) (st : search_state) : option outcome :=
  match il with
  | [] => Some (inr (None, st))
  | i :: rest =>
      match rec (cell_index i) st with
      | None => None
      | Some (inl e) => Some (inl e)
      | Some (inr (Some r, st')) => Some (inr (Some r, st'))
      | Some (inr (None, st')) => sub_ports rec rest st'
      end
  end.

(** [fuel] bounds the depth of the recursion; a cell index outside the
    layout reads as a cell without instances (KLayout only hands out
    indices of existing cells).  Nothing in the function catches the
    [RuntimeError] of [each_inst]. *)
Fixpoint find_port_sin_cell_and_position (fuel : nat) (L : layout)
    (cell : nat) (st : search_state) : option outcome :=
  match fuel with
  | O => None
  | S f =>
      if decide (cell ∈ visited_cells st) then Some (inr (None, st))
      else
        let st1 := mkSearch ({[cell]} ∪ visited_cells st) (cell :: searched st) in
        match each_inst L cell with
        | inl e => Some (inl e)
        | inr direct =>
            match direct_port L direct with
            | Some r => Some (inr (Some r, st1))
            | None =>
                match each_inst L cell with
                | inl e => Some (inl e)
                | inr subs =>
                    sub_ports (find_port_sin_cell_and_position f L) subs st1
                end
            end
        end
  end.

(** The log and the visited set describe the same cells, none twice. *)
Definition consistent (st : search_state) : Prop :=
  NoDup (searched st) /\ forall c, c ∈ searched st <-> c ∈ visited_cells st.

(** The call with [visited_cells=None]. *)
Definition search (L : layout) (cell : nat) : option outcome :=
  find_port_sin_cell_and_position (S (length L)) L cell (mkSearch ∅ []).

(** Some cell of the layout places a cell whose name carries the marker. *)
Definition has_marker (L : layout) : bool :=
  existsb (fun c => existsb (fun i => contains port_marker (cell_name L (cell_index i)))
                            (insts c)) L.

(** A design whose marker sits one level down: [design] places [block]
    displaced by (0, 100), and [block] places the marker cell at its origin. *)
Definition marker_box : Box := mkBox 0 (-5) 10 5.
Definition nested_layout : layout :=
  [ mkCell "design" [mkInst 1 (trans_disp 0 100) None] (mkBox 0 95 10 105);
    mkCell "block" [mkInst 2 trans_id None] marker_box;
    mkCell "port_SiN_1" [] marker_box ].

(** A hierarchy without a marker in which [shared] is placed along two
    paths, by [design] and by [left]. *)
Definition shared_layout : layout :=
  [ mkCell "design" [mkInst 1 trans_id None; mkInst 2 trans_id None] marker_box;
    mkCell "left" [mkInst 2 trans_id None] marker_box;
    mkCell "shared" [] marker_box ].

(** A hierarchy with a cycle and a shared cell, and no marker. *)
Definition cyclic_layout : layout :=
  [ mkCell "design" [mkInst 1 trans_id None; mkInst 2 trans_id None] marker_box;
    mkCell "left" [mkInst 2 trans_id None; mkInst 0 trans_id None] marker_box;
    mkCell "shared" [mkInst 1 trans_id None] marker_box ].

End PortSearch.

(** ** [explode_regular_arrays] *)

Module Explode.

(** The displacements of the members of an array, row by row. *)
Definition array_offsets (ar : ArraySpec) : list Vector :=
  flat_map
    (fun r => map (fun c => vadd (vscale (Z.of_nat r) (a ar))
                                 (vscale (Z.of_nat c) (b ar)))
                  (seq 0 (nb ar)))
    (seq 0 (na ar)).

Definition displaced (t : Trans) (d : Vector) : Trans :=
  mkTrans (rot t) (mirror t) (vadd (disp t) d).

(** [instance.explode()], KLayout's: an array is replaced by its members,
    each a single instance of the same cell displaced by a multiple of the
    step vectors; a single instance is left alone. *)
Definition explode (i : Inst) : list Inst :=
  match array i with
  | None => [i]
  | Some ar =>
      map (fun d => mkInst (cell_index i) (displaced (trans i) d) None)
          (array_offsets ar)
  end.

Definition count_arrays (il : list Inst) : nat :=
  length (filter (fun i => is_regular_array i = true) il).

(** The first loop over [cell.each_inst()]: every array of the cell is
    exploded and counted. *)
Definition explode_cell (L : layout) (cell : nat) : layout * nat :=
  match L !! cell with
  | None => (L, 0%nat)
  | Some c =>
      (<[cell := mkCell (name c) (flat_map explode (insts c)) (bbox c)]> L,
       count_arrays (insts c))
  end.

(** The second loop: the sub-cells of the instances that are not arrays,
    through the recursive call [rec], which shares layout and visited set. *)
Fixpoint sub_cells
    (rec : layout -> nat -> gset nat -> option (layout * gset nat * nat))
    (il : list Inst) (L : layout) (visited : gset nat) (count : nat)
  : option (layout * gset nat * nat) :=
  match il with
  | [] => Some (L, visited, count)
  | i :: rest =>
      if is_regular_array i then sub_cells rec rest L visited count
      else
        match rec L (cell_index i) visited with
        | None => None
        | Some (L', visited', k) => sub_cells rec rest L' visited' (count + k)%nat
        end
  end.

(** Returns the layout after the explosions, the visited set and
    [exploded_count]; [None] is an exhausted recursion budget.  The visited
    set is keyed by the cell, one key per cell of the layout.  None of the
    operations of the [try] block raises here, so its [except] branch, which
    only logs, is not entered. *)
Fixpoint explode_regular_arrays (fuel : nat) (L : layout) (cell : nat)
    (visited_cells : gset nat) : option (layout * gset nat * nat) :=
  match fuel with
  | O => None
  | S f =>
      if decide (cell ∈ visited_cells) then Some (L, visited_cells, 0%nat)
      else
        let visited := {[cell]} ∪ visited_cells in
        let '(L1, exploded_count) := explode_cell L cell in
        sub_cells (explode_regular_arrays f) (cell_insts L1 cell)
                  L1 visited exploded_count
  end.

(** How a run changes the layout: between visited sets [V] and [V'] the
    cells entered have their arrays exploded in place, the others are
    untouched. *)
Definition exploded (L : layout) (V : gset nat) (L' : layout) (V' : gset nat)
  : Prop :=
  V ⊆ V'
  /\ length L' = length L
  /\ (forall d, d ∈ V \/ d ∉ V' -> L' !! d = L !! d)
  /\ (forall d, d ∈ V' -> d ∉ V ->
        cell_insts L' d = flat_map explode (cell_insts L d)).

(** The cells entered between [V] and [V'] only place cells of [V']. *)
Definition closed_over (L' : layout) (V V' : gset nat) : Prop :=
  forall d, d ∈ V' -> d ∉ V ->
    forall i, i ∈ cell_insts L' d -> cell_index i ∈ V'.

(** The number of array instances left in the whole layout. *)
Definition total_arrays (L : layout) : nat :=
  foldr (fun c n => (count_arrays (insts c) + n)%nat) 0%nat L.

(** What one call achieves. *)
Definition run_spec (L : layout) (cell : nat) (V : gset nat)
    (res : layout * gset nat * nat) : Prop :=
  exploded L V res.1.1 res.1.2
  /\ closed_over res.1.1 V res.1.2
  /\ cell ∈ res.1.2
  /\ (res.2 + total_arrays res.1.1 = total_arrays L)%nat.

Definition ex_array : ArraySpec := mkArray (0, 50) (20, 0) 2 3.
Definition arrayed_layout : layout :=
  [ mkCell "top" [mkInst 1 (trans_disp 5 7) (Some ex_array); mkInst 2 trans_id None]
           (mkBox 0 0 100 100);
    mkCell "unit" [] (mkBox 0 0 10 10);
    mkCell "row" [mkInst 1 trans_id (Some (mkArray (0, 30) (30, 0) 1 4))]
           (mkBox 0 0 100 10) ].

End Explode.

(** ** The reference copy: [find_faml_positions] and the edge alignment *)

Module Faml.

(** [die_width] is even: [die_width/2], a float in the source, is the
    integer 1376665. *)
Definition die_width : Z := 2753330.

(** The inner loop of [find_faml_positions] over a recursive call [rec]. *)
Fixpoint positions_of
    (rec : nat -> Trans -> option (list Z)) (L : layout) (faml_name : string)
    (il : list Inst) (parent_transform : Trans) : option (list Z) :=
  match il with
  | [] => Some []
  | inst :: rest =>
      let absolute_trans := trans_mul parent_transform (trans inst) in
      match
        (if decide (cell_name L (cell_index inst) = faml_name)
         then Some [(disp absolute_trans).1]
         else rec (cell_index inst) absolute_trans)
      with
      | None => None
      | Some here =>
          match positions_of rec L faml_name rest parent_transform with
          | None => None
          | Some more => Some (here ++ more)
          end
      end
  end.

(** The traversal keeps no visited set; [fuel] bounds the depth. *)
Fixpoint find_faml_positions (fuel : nat) (L : layout) (faml_name : string)
    (cell : nat) (parent_transform : Trans) : option (list Z) :=
  match fuel with
  | O => None
  | S f =>
      positions_of (find_faml_positions f L faml_name) L faml_name
                   (cell_insts L cell) parent_transform
  end.

(** Python's [max] of a non-empty list. *)
Definition maximum (x : Z) (xs : list Z) : Z := foldr Z.max x xs.

(** The new transform of the copy's instance: [pya.Trans(pya.Trans.R0,
    die_width/2 - rightmost_faml_x, subcell_inst.trans.disp.y)].  The
    instance is left as it is when no FaML position was found. *)
Definition aligned_trans (subcell_trans : Trans) (faml_positions : list Z) : Trans :=
  match faml_positions with
  | [] => subcell_trans
  | x :: xs =>
      let rightmost_faml_x := maximum x xs in
      let chip_right_edge := die_width / 2 in
      let faml_to_edge_offset := chip_right_edge - rightmost_faml_x in
      mkTrans R0 false (faml_to_edge_offset, (disp subcell_trans).2)
  end.

(** A rank that decreases along every instance: the hierarchy is acyclic,
    as every KLayout hierarchy is. *)
Definition ranked (L : layout) (rank : nat -> nat) : bool :=
  forallb (fun p => forallb (fun i => (rank (cell_index i) <? rank p)%nat)
                            (cell_insts L p))
          (seq 0 (length L)).

Definition faml_name : string := "ebeam_dream_FaML_Shuksan_SiN_1310_BB".

(** A copy after substitution: two FaML instances in a block placed twice. *)
Definition copy_layout : layout :=
  [ mkCell "design_copy"
      [mkInst 1 (mkTrans R90 false (40, 0)) None;
       mkInst 1 (trans_disp 300 10) None;
       mkInst 2 (trans_disp (-20) 0) None] (mkBox 0 0 10 10);
    mkCell "block" [mkInst 2 (trans_disp 15 5) None;
                    mkInst 2 (mkTrans R180 true (60, 0)) None] (mkBox 0 0 10 10);
    mkCell faml_name [] (mkBox 0 0 10 10) ].

End Faml.

(** ** [parse_verification_errors] and [load_submission_designs] *)

Module Submissions.

(** The dictionary [error_counts], one field per key. *)
Record error_counts := mkCounts {
  disconnected_pins : nat;
  floating_shapes : nat;
  invalid_components : nat;
  missing_pins : nat;
  pin_errors : nat;
  other_errors : nat
}.

Definition no_errors : error_counts := mkCounts 0 0 0 0 0 0.

(** The body of [for line in lines]. *)
Definition count_line (e : error_counts) (line : string) : error_counts :=
  let line_lower := lower line in
  if contains "disconnected pin" line_lower then
    mkCounts (S (disconnected_pins e)) (floating_shapes e) (invalid_components e)
             (missing_pins e) (pin_errors e) (other_errors e)
  else if contains "floating shape" line_lower then
    mkCounts (disconnected_pins e) (S (floating_shapes e)) (invalid_components e)
             (missing_pins e) (pin_errors e) (other_errors e)
  else if contains "invalid component" line_lower then
    mkCounts (disconnected_pins e) (floating_shapes e) (S (invalid_components e))
             (missing_pins e) (pin_errors e) (other_errors e)
  else if contains "missing pin" line_lower then
    mkCounts (disconnected_pins e) (floating_shapes e) (invalid_components e)
             (S (missing_pins e)) (pin_errors e) (other_errors e)
  else if contains "pin" line_lower
          && (contains "error" line_lower || contains "warning" line_lower) then
    mkCounts (disconnected_pins e) (floating_shapes e) (invalid_components e)
             (missing_pins e) (S (pin_errors e)) (other_errors e)
  else if existsb (fun keyword => contains keyword line_lower)
                  ["error"; "warning"; "fail"] then
    if negb (existsb (fun known_error => contains known_error line_lower)
                     ["disconnected"; "floating"; "invalid"; "missing"])
    then mkCounts (disconnected_pins e) (floating_shapes e) (invalid_components e)
                  (missing_pins e) (pin_errors e) (S (other_errors e))
    else e
  else e.

Definition newline : ascii := ascii_of_nat 10.

Definition parse_verification_errors (verification_output : string) : error_counts :=
  foldl count_line no_errors (split newline verification_output).

(** What the verification collaborator and the identity resolution give for
    one file of the submissions directory. *)
Record submission_file := mkFile {
  filename : string;
  (** [layout_check(cell, verbose=False)]: the error count, or [None] when
      the call raises. *)
  check_quiet : option Z;
  (** The text the verbose run prints, as captured from [sys.stdout]. *)
  check_verbose : string;
  bbox_width : Z;
  bbox_height : Z;
  (** [get_github_username(f)]. *)
  github_username : string
}.

(** The values stored in [error_summary]. *)
Inductive error_details :=
| NoDetails                        (* {} *)
| Counts (c : error_counts)        (* the parsed report *)
| CellTooSmall                     (* {'error': 'Cell too small'} *)
| VerificationFailed.              (* {'verification_failed': 1} *)

(** The outcome of the verification block: [continue] with the entry left
    in [error_summary], or go on with [error_details]. *)
Inductive verdict := Skipped (d : error_details) | Kept (d : error_details).

Definition verification (f : submission_file) : verdict :=
  match check_quiet f with
  | Some num_errors =>
      if 0 <? num_errors then
        let error_details := parse_verification_errors (check_verbose f) in
        if (0 <? disconnected_pins error_details)%nat
        then Skipped (Counts error_details)
        else Kept (Counts error_details)
      else Kept NoDetails
  | None =>
      if (bbox_width f <? 1000) || (bbox_height f <? 1000)
      then Skipped CellTooSmall
      else Kept VerificationFailed
  end.

(** The entry the loop leaves in [error_summary] for a file. *)
Definition details (v : verdict) : error_details :=
  match v with Skipped d | Kept d => d end.

(** The loop state: [submissions] as (filename, username_with_number),
    [username_counts] and [error_summary]. *)
Record load_state := mkLoad {
  submissions : list (string * string);
  username_counts : gmap string nat;
  error_summary : gmap string error_details
}.

(** The handling of duplicate usernames. *)
Definition number_username (counts : gmap string nat) (username : string)
  : gmap string nat * string :=
  match counts !! username with
  | Some k => (<[username := S k]> counts, username +:+ pretty (S k))
  | None => (<[username := 1%nat]> counts, username)
  end.

(** One pass of [for f in sorted(files_in)]. *)
Definition load_one (st : load_state) (f : submission_file) : load_state :=
  match verification f with
  | Skipped d =>
      mkLoad (submissions st) (username_counts st)
             (<[filename f := d]> (error_summary st))
  | Kept d =>
      let '(counts, username_with_number) :=
        number_username (username_counts st) (github_username f) in
      mkLoad (submissions st ++ [(filename f, username_with_number)])
             counts
             (<[filename f := d]> (error_summary st))
  end.

(** [files] is the directory listing in sorted order. *)
Definition load_submission_designs (files : list submission_file)
  : list (string * string) * gmap string error_details :=
  let st := foldl load_one (mkLoad [] ∅ ∅) files in
  (submissions st, error_summary st).

Definition clean_file (f u : string) : submission_file :=
  mkFile f (Some 0) "" 5000 5000 u.

(** Three clean submissions by the users bob, bob and bob2. *)
Definition bob_files : list submission_file :=
  [clean_file "a.gds" "bob"; clean_file "b.gds" "bob"; clean_file "c.gds" "bob2"].

Definition report : string :=
  String.concat (String newline EmptyString)
    ["Checking layout"; "Error: Disconnected Pin at (10, 20)";
     "Warning: floating shape on layer 4"].

Definition mixed_files : list submission_file :=
  [clean_file "a.gds" "alice";
   mkFile "b.gds" (Some 2) report 5000 5000 "bob";
   clean_file "c.gds" "carol"].

End Submissions.

(** ** GitHub handles: [get_github_username_from_api], [get_github_username] *)

Module GitHub.

(** What [requests.get(url)] followed by [response.json()] gives: an
    exception, or a status code with the decoded search result, of which
    the code reads [total_count] and the [login] of each item. *)
Inductive http_response :=
| Raises
| Response (status_code : Z) (total_count : Z) (items : list (option string)).

Definition rate_limited : http_response := Response 403 0 [].

(** The exceptions that matter here; all derive from [Exception]. *)
Inductive exn := RecursionError | OtherError.

(** The module state: [_github_username_cache], the number of requests
    sent and the seconds spent in [time.sleep]. *)
Record api_state := mkApi {
  cache : gmap string (option string);
  requests : nat;
  slept : Z
}.

(** [depth] is the number of frames the interpreter still grants
    ([sys.getrecursionlimit()] less the frames in use): a call that would
    exceed it raises [RecursionError] at the call.  [net k] answers the
    [k]-th request. *)
Fixpoint get_github_username_from_api (depth : nat) (net : nat -> http_response)
    (email : string) (st : api_state) : (exn + option string) * api_state :=
  match depth with
  | O => (inl RecursionError, st)
  | S d =>
      match cache st !! email with
      | Some cached => (inr cached, st)
      | None =>
          (* try: *)
          let st1 := mkApi (cache st) (S (requests st)) (slept st) in
          match net (requests st) with
          | Raises => (inr None, st1)                       (* except Exception *)
          | Response status_code total_count items =>
              if status_code =? 200 then
                if 0 <? total_count then
                  match items with
                  | [] => (inr None, st1)                   (* IndexError, caught *)
                  | username :: _ =>
                      (inr username,
                       mkApi (<[email := username]> (cache st1))
                             (requests st1) (slept st1))
                  end
                else
                  (inr None,
                   mkApi (<[email := None]> (cache st1)) (requests st1) (slept st1))
              else if status_code =? 403 then
                let st2 := mkApi (cache st1) (requests st1) (slept st1 + 60) in
                match get_github_username_from_api d net email st2 with
                | (inl _, st3) => (inr None, st3)           (* except Exception *)
                | (inr r, st3) => (inr r, st3)
                end
              else
                (inr None,
                 mkApi (<[email := None]> (cache st1)) (requests st1) (slept st1))
          end
      end
  end.

(** [subprocess.run(...)]: the completed process. *)
Record completed := mkRun { returncode : Z; stdout : string }.

(** What the outside world answers during one call of
    [get_github_username]; [None] is a call that raises. *)
Record env := mkEnv {
  git_email : option completed;       (* git log --pretty=format:%ae *)
  git_author : option completed;      (* git log --pretty=format:%an *)
  (** [get_repository_forks()]: the fork owners in iteration order when the
      dictionary is non-empty and has the key 'forks'. *)
  fork_info : option (list string);
  net : nat -> http_response
}.

Definition at_sign : ascii := "@"%char.
Definition plus_sign : ascii := "+"%char.

(** The user name of a GitHub noreply address. *)
Definition noreply_username (email : string) : option (exn + string) :=
  if contains "@" email then
    let userid := default EmptyString (head (split at_sign email)) in
    if contains "+" userid && contains "@users.noreply.github.com" email then
      Some (match split plus_sign userid !! 1%nat with
            | Some username => inr username
            | None => inl OtherError                         (* IndexError *)
            end)
    else None
  else None.

(** The first fork owner whose name matches the author name. *)
Definition fork_match (e : env) : exn + option string :=
  match fork_info e with
  | None => inr None
  | Some forks =>
      match git_author e with
      | None => inl OtherError
      | Some author_result =>
          if (returncode author_result =? 0)
             && negb (String.eqb (strip (stdout author_result)) EmptyString) then
            let author_name := lower (strip (stdout author_result)) in
            inr (List.find
                   (fun fork_username =>
                      contains author_name (lower fork_username)
                      || contains (lower fork_username) author_name)
                   forks)
          else inr None
      end
  end.

(** The last resort: the local part of the address, cleaned. *)
Definition parsed_userid (email : string) : option string :=
  if contains "@" email then
    let userid := default EmptyString (head (split at_sign email)) in
    let userid := remove_char "-"%char (remove_char "."%char userid) in
    Some (if String.eqb userid "lukasc" then "lukasc-ubc" else userid)
  else None.

(** Python truthiness of the name the API lookup returned. *)
Definition truthy (username : option string) : bool :=
  match username with
  | Some u => negb (String.eqb u EmptyString)
  | None => false
  end.

(** The body of the [try] block. *)
Definition resolve (depth : nat) (e : env) (st : api_state)
  : (exn + string) * api_state :=
  match git_email e with
  | None => (inl OtherError, st)
  | Some result =>
      if (returncode result =? 0)
         && negb (String.eqb (strip (stdout result)) EmptyString) then
        let email := strip (stdout result) in
        match noreply_username email with
        | Some r => (r, st)
        | None =>
            match fork_match e with
            | inl x => (inl x, st)
            | inr (Some fork_username) => (inr fork_username, st)
            | inr None =>
                match get_github_username_from_api depth (net e) email st with
                | (inl x, st') => (inl x, st')
                | (inr username, st') =>
                    if truthy username
                    then (inr (default EmptyString username), st')
                    else
                      match parsed_userid email with
                      | Some userid => (inr userid, st')
                      | None => (inr "unknown", st')
                      end
                end
            end
        end
      else (inr "unknown", st)
  end.

(** [try: ... except Exception: return 'unknown']. *)
Definition get_github_username (depth : nat) (e : env) (st : api_state)
  : (exn + string) * api_state :=
  match resolve depth e st with
  | (inl _, st') => (inr "unknown", st')
  | (inr username, st') => (inr username, st')
  end.

Definition no_state : api_state := mkApi ∅ 0 0.

(** The conditions under which every resolution method fails. *)
Definition git_fails (e : env) : Prop :=
  match git_email e with
  | None => True
  | Some result => returncode result <> 0
  end.

Definition no_author_email (e : env) : Prop :=
  match git_email e with
  | None => False
  | Some result => strip (stdout result) = EmptyString
  end.

Definition all_methods_fail (depth : nat) (e : env) (st : api_state) : Prop :=
  match git_email e with
  | None => False
  | Some result =>
      let email := strip (stdout result) in
      noreply_username email = None /\
      fork_match e = inr None /\
      truthy (match (get_github_username_from_api depth (net e) email st).1 with
              | inr username => username
              | inl _ => None
              end) = false /\
      parsed_userid email = None
  end.

Definition local_env : env :=
  mkEnv (Some (mkRun 0 "localhost-commit")) None None (fun _ => rate_limited).

End GitHub.

(** ** [generate_piclets] *)

Module Piclets.

Inductive location := Tapeout | PicletsDir.

(** What the run leaves behind and prints for one pair. *)
Inductive event :=
| Generating (piclet : string)                 (* "Generating PIClet for ..." *)
| Exported (loc : location) (file : string)    (* a file written by [export_layout] *)
| Generated (file : string)                    (* "  Generated: ..." *)
| Error (piclet : string).                     (* "  Error generating PIClet for ..." *)

(** Statements that may raise, with the events emitted before the raise. *)
Definition M (A : Type) : Type := (list event * option A)%type.

Definition ret {A} (x : A) : M A := ([], Some x).
Definition raise {A} : M A := ([], None).
Definition emit (ev : event) : M unit := ([ev], Some tt).
Definition bind {A B} (m : M A) (k : A -> M B) : M B :=
  match m with
  | (evs, None) => (evs, None)
  | (evs, Some x) => let '(evs', r) := k x in (evs ++ evs', r)
  end.

Notation "m >> k" := (bind m (fun _ => k)) (at level 100, k at level 200, right associativity).

(** A call into the toolkit that either returns or raises. *)
Definition call (ok : bool) : M unit := if ok then ret tt else raise.

(** [try: body except Exception: print(error); continue]. *)
Definition try_except (body : M unit) (piclet : string) : list event :=
  match body with
  | (evs, None) => evs ++ [Error piclet]
  | (evs, Some _) => evs
  end.

(** How the toolkit and the file system behave during one iteration. *)
Record run := mkRunEnv {
  assembly_ok : bool;          (* new_layout .. layout_pgtext return *)
  tapeout_exists : bool;       (* os.path.exists(tapeout_path) *)
  export_tapeout_ok : bool;    (* export_layout(topcell, tapeout_path, ..) returns *)
  export_piclets_ok : bool;    (* export_layout(topcell, piclets_path, ..) returns *)
  show_ok : bool               (* topcell.show() returns *)
}.

(** The [try] block for two submissions. *)
Definition pair_body (piclet_name : string) (r : run) : M unit :=
  call (assembly_ok r) >>
  (if tapeout_exists r
   then call (export_tapeout_ok r) >> emit (Exported Tapeout piclet_name)
   else raise) >>
  call (export_piclets_ok r) >>
  emit (Exported PicletsDir piclet_name) >>
  call (show_ok r) >>
  emit (Generated piclet_name).

(** The [try] block for a single submission. *)
Definition single_body (piclet_name : string) (r : run) : M unit :=
  call (assembly_ok r) >>
  call (export_piclets_ok r) >>
  emit (Exported PicletsDir piclet_name) >>
  call (show_ok r) >>
  (if tapeout_exists r
   then call (export_tapeout_ok r) >> emit (Exported Tapeout piclet_name)
   else raise) >>
  emit (Generated piclet_name).

Definition pair_name (username1 username2 : string) : string :=
  "PIClet-3x3-" +:+ username1 +:+ "-" +:+ username2.

Definition single_name (username : string) : string :=
  "PIClet-3x3-" +:+ username.

Definition pair_iteration (username1 username2 : string) (r : run) : list event :=
  Generating (pair_name username1 username2)
  :: try_except (pair_body (pair_name username1 username2) r)
                (pair_name username1 username2).

Definition single_iteration (username : string) (r : run) : list event :=
  Generating (single_name username)
  :: try_except (single_body (single_name username) r) (single_name username).

(** [for i in range(0, len(submissions), 2)]; [runs k] describes the
    [k]-th iteration from [i] on. *)
Fixpoint process_pairs (submissions : list (string * string))
    (runs : nat -> run) (i : nat) : list event :=
  match submissions with
  | [] => []
  | [s] => single_iteration s.2 (runs i)
  | s1 :: s2 :: rest =>
      pair_iteration s1.2 s2.2 (runs i) ++ process_pairs rest runs (S i)
  end.

Definition generate_piclets (files : list Submissions.submission_file)
    (runs : nat -> run) : list event :=
  process_pairs (Submissions.load_submission_designs files).1 runs 0.

(** An exception raised before the first export. *)
Definition raised_in_assembly (r : run) : Prop := assembly_ok r = false.

(** An iteration that raises somewhere in its [try] block. *)
Definition pair_raises (r : run) : Prop :=
  (pair_body EmptyString r).2 = None.

Definition all_ok : run := mkRunEnv true true true true true.
Definition second_export_fails : run := mkRunEnv true true true false true.
Definition assembly_fails : run := mkRunEnv false true true true true.

Definition four_files : list Submissions.submission_file :=
  [Submissions.clean_file "a.gds" "alice"; Submissions.clean_file "b.gds" "bob";
   Submissions.clean_file "c.gds" "carol"; Submissions.clean_file "d.gds" "dave"].

End Piclets.

(** ** The FaML instances of a copy *)

Module Placement.

(** The cells of the tree under [root] outside the cell named [nm]: [root]
    itself, and every cell of another name placed in such a cell. *)
Inductive in_tree (L : layout) (nm : string) (root : nat) : nat -> Prop :=
| tree_root : in_tree L nm root root
| tree_child (d : nat) (i : Inst) :
    in_tree L nm root d -> i ∈ cell_insts L d ->
    cell_name L (cell_index i) <> nm ->
    in_tree L nm root (cell_index i).

(** [placed L nm c T A]: with the cell [c] placed by [T], some instance of
    the cell named [nm], anywhere in the tree under [c], has the placement
    [A] once every placement above it is composed in.  An array counts
    with each of its members. *)
Inductive placed (L : layout) (nm : string) : nat -> Trans -> Trans -> Prop :=
| placed_here (c : nat) (T : Trans) (i j : Inst) :
    i ∈ cell_insts L c -> j ∈ Explode.explode i ->
    cell_name L (cell_index i) = nm ->
    placed L nm c T (trans_mul T (trans j))
| placed_below (c : nat) (T : Trans) (i j : Inst) (A : Trans) :
    i ∈ cell_insts L c -> j ∈ Explode.explode i ->
    placed L nm (cell_index i) (trans_mul T (trans j)) A ->
    placed L nm c T A.

(** One cell at most carries the name [nm]. *)
Definition unique_name (L : layout) (nm : string) : Prop :=
  forall c d, cell_name L c = nm -> cell_name L d = nm -> c = d.

(** No instance of the tree under [root], outside the cell named [nm], is
    an array: the tree was exploded. *)
Definition single_instances (L : layout) (nm : string) (root : nat) : Prop :=
  forall d i, in_tree L nm root d -> i ∈ cell_insts L d -> array i = None.

End Placement.

(** ** The cells below a cell *)

Module Reach.

(** [d] is the cell [c] or a cell placed, directly or through other cells,
    below it. *)
Inductive reachable (L : layout) : nat -> nat -> Prop :=
| reach_here (c : nat) : reachable L c c
| reach_below (c : nat) (i : Inst) (d : nat) :
    i ∈ cell_insts L c -> reachable L (cell_index i) d -> reachable L c d.

(** The cell [d] holds an instance of a cell whose name carries the port
    marker. *)
Definition places_marker (L : layout) (d : nat) : Prop :=
  exists i, i ∈ cell_insts L d
            /\ contains PortSearch.port_marker (cell_name L (cell_index i)) = true.

End Reach.

(** ** The loading loop, stated without its dictionaries *)

Module LoadSpec.

Import Submissions.

(** The files the verification block lets through. *)
Definition kept (f : submission_file) : bool :=
  match verification f with Kept _ => true | Skipped _ => false end.

(** How often the handle [u] occurs in [us]. *)
Definition occurrences (u : string) (us : list string) : nat :=
  length (filter (fun v => v = u) us).

(** The name of a submission whose handle was met [n] times before: the
    handle itself the first time, the handle followed by 2, 3, ... then. *)
Definition numbered (u : string) (n : nat) : string :=
  match n with
  | O => u
  | S _ => u +:+ pretty (S n)
  end.

(** The names of the submissions with handles [us], after the handles
    [seen]. *)
Fixpoint names_after (seen us : list string) : list string :=
  match us with
  | [] => []
  | u :: rest => numbered u (occurrences u seen) :: names_after (seen ++ [u]) rest
  end.

(** What [username_counts] holds after the handles [seen]. *)
Definition counted (counts : gmap string nat) (seen : list string) : Prop :=
  forall u, counts !! u
            = match occurrences u seen with O => None | S n => Some (S n) end.

(** The sum of the six counters. *)
Definition total_count (e : error_counts) : nat :=
  (disconnected_pins e + floating_shapes e + invalid_components e
   + missing_pins e + pin_errors e + other_errors e)%nat.

Definition warned_file : submission_file :=
  mkFile "w.gds" (Some 1) "Warning: floating shape on layer 4" 5000 5000 "wendy".

End LoadSpec.

(** ** Reading the trace of a batch *)

Module Trace.

Import Piclets.

Definition is_generating (ev : event) : bool :=
  match ev with Generating _ => true | _ => false end.

Definition is_generated (ev : event) : bool :=
  match ev with Generated _ => true | _ => false end.

Definition is_error (ev : event) : bool :=
  match ev with Error _ => true | _ => false end.

(** How many events of a kind the trace holds. *)
Definition count (kind : event -> bool) (trace : list event) : nat :=
  length (filter (fun ev => kind ev = true) trace).

(** The number of iterations of [range(0, n, 2)]. *)
Definition iterations (n : nat) : nat := Nat.div2 (S n).

Definition no_tapeout : run := mkRunEnv true false true true true.

End Trace.

(** ** Hierarchies as [move_instance_up_hierarchy] meets them *)

Module Hierarchy.

(** No instance of the layout places a cell of the name [nm]: a cell of
    that name is a top cell. *)
Definition unplaced (L : layout) (nm : string) : bool :=
  forallb (fun c => forallb (fun i => negb (String.eqb (cell_name L (cell_index i)) nm))
                            (insts c)) L.

(** The cell that the instance [r] places is placed more than once. *)
Definition ambiguous (L : layout) (r : InstRef) : Prop :=
  exists ci, get_inst L r = Some ci
             /\ (2 <= length (each_parent_inst L (cell_index ci)))%nat.

(** The loop only ever holds instances of the layout. *)
Definition well_placed (L : layout) (st : MoveUp.state) : Prop :=
  is_Some (get_inst L (MoveUp.current_inst st))
  /\ forall r, MoveUp.instance1 st = Some r -> is_Some (get_inst L r).

(** A top cell holding a block twice. *)
Definition twice_layout : layout :=
  [ mkCell "TOP" [mkInst 1 trans_id None; mkInst 1 (trans_disp 50 0) None]
           MoveUp.leaf_box;
    mkCell "block" [mkInst 2 trans_id None] MoveUp.leaf_box;
    mkCell "leaf" [] MoveUp.leaf_box ].

End Hierarchy.

(** ** The FaML substitution: [replace_gc_with_faml] *)

Module Substitution.

(** [cell_faml] as the substitution uses it: its cell index and the centre
    of its pin [opt1], [None] when [find_pin] gives no pin. *)
Record faml := mkFaml { faml_index : nat; opt1 : option Vector }.

(** ["GC" in inst_cell.name]. *)
Definition is_gc (L : layout) (inst : Inst) : bool :=
  contains "GC" (cell_name L (cell_index inst)).

(** The centre of [inst_cell.bbox().transformed(inst.trans)]. *)
Definition gc_position (L : layout) (inst : Inst) : Vector :=
  box_center
    (box_transformed (trans inst)
       (match L !! cell_index inst with
        | Some c => bbox c
        | None => mkBox 0 0 0 0
        end)).

(** [offset_trans * inst.trans], or [inst.trans] without the pin. *)
Definition faml_trans (cell_faml : faml) (t : Trans) : Trans :=
  match opt1 cell_faml with
  | Some (pin_offset_x, pin_offset_y) =>
      trans_mul (trans_disp pin_offset_x pin_offset_y) t
  | None => t
  end.

(** The instances of a cell after the second loop: the instances that are
    no grating couplers, then one FaML instance for each one that was
    erased. *)
Definition replaced (L : layout) (cell_faml : faml) (il : list Inst) : list Inst :=
  filter (fun i => is_gc L i = false) il
  ++ ((fun i => mkInst (faml_index cell_faml) (faml_trans cell_faml (trans i)) None)
        <$> filter (fun i => is_gc L i = true) il).

(** The first two loops on one cell: the positions collected, and the
    replacement when the FaML cell is there.  The stored [bbox] of the cell
    is kept. *)
Definition replace_in_cell (L : layout) (cell_faml : option faml) (cell : nat)
  : layout * list Vector :=
  match L !! cell with
  | None => (L, [])
  | Some c =>
      let instances_to_replace := filter (fun i => is_gc L i = true) (insts c) in
      let gc_positions := gc_position L <$> instances_to_replace in
      match cell_faml with
      | None => (L, gc_positions)
      | Some fc =>
          (<[cell := mkCell (name c) (replaced L fc (insts c)) (bbox c)]> L,
           gc_positions)
      end
  end.

(** The third loop, over the recursive call [rec]. *)
Fixpoint sub_positions
    (rec : layout -> nat -> gset nat -> option (layout * gset nat * list Vector))
    (il : list Inst) (L : layout) (visited : gset nat) (gc_positions : list Vector)
  : option (layout * gset nat * list Vector) :=
  match il with
  | [] => Some (L, visited, gc_positions)
  | inst :: rest =>
      match rec L (cell_index inst) visited with
      | None => None
      | Some (L', visited', sub_gc_positions) =>
          sub_positions rec rest L' visited' (gc_positions ++ sub_gc_positions)
      end
  end.

(** [None] is an exhausted recursion budget. *)
Fixpoint replace_gc_with_faml (fuel : nat) (cell_faml : option faml) (L : layout)
    (cell : nat) (visited_cells : gset nat)
  : option (layout * gset nat * list Vector) :=
  match fuel with
  | O => None
  | S f =>
      if decide (cell ∈ visited_cells) then Some (L, visited_cells, [])
      else
        let visited := {[cell]} ∪ visited_cells in
        let '(L1, gc_positions) := replace_in_cell L cell_faml cell in
        sub_positions (replace_gc_with_faml f cell_faml) (cell_insts L1 cell)
                      L1 visited gc_positions
  end.

(** The number of grating-coupler instances in the whole layout. *)
Definition total_gc (L : layout) : nat :=
  foldr (fun c n => (length (filter (fun i => is_gc L i = true) (insts c)) + n)%nat)
        0%nat L.

(** How a substitution with [fc] changes the layout between the visited
    sets [V] and [V']. *)
Definition substituted (fc : faml) (L : layout) (V : gset nat)
    (L' : layout) (V' : gset nat) : Prop :=
  V ⊆ V'
  /\ length L' = length L
  /\ (forall d, cell_name L' d = cell_name L d)
  /\ (forall d, d ∈ V \/ d ∉ V' -> L' !! d = L !! d)
  /\ (forall d, d ∈ V' -> d ∉ V ->
        cell_insts L' d = replaced L fc (cell_insts L d)).

Definition subst_spec (fc : faml) (L : layout) (cell : nat) (V : gset nat)
    (res : layout * gset nat * list Vector) : Prop :=
  substituted fc L V res.1.1 res.1.2
  /\ Explode.closed_over res.1.1 V res.1.2
  /\ cell ∈ res.1.2.

(** A design with a grating coupler at the top and one in a block. *)
Definition gc_layout : layout :=
  [ mkCell "design" [mkInst 1 (mkTrans R180 false (100, 0)) None;
                     mkInst 2 (trans_disp 0 50) None] (mkBox 0 0 100 100);
    mkCell "GC_TE_1310" [] (mkBox 0 (-5) 20 5);
    mkCell "block" [mkInst 1 (mkTrans R180 false (30, 7)) None] (mkBox 0 0 30 10);
    mkCell Faml.faml_name [] (mkBox 0 (-5) 40 5) ].

Definition ex_faml : faml := mkFaml 3 (Some (40, 0)).

(** A design with an array of four grating couplers. *)
Definition gc_array : ArraySpec := mkArray (0, 127) (0, 0) 4 1.

Definition gc_array_inst : Inst :=
  mkInst 1 (mkTrans R180 false (100, 0)) (Some gc_array).

Definition gc_array_layout : layout :=
  [ mkCell "design" [gc_array_inst] (mkBox 0 0 100 400);
    mkCell "GC_TE_1310" [] (mkBox 0 (-5) 20 5);
    mkCell Faml.faml_name [] (mkBox 0 (-5) 40 5) ].

(** The FaML cell of that layout, its pin 40 to the right of its origin. *)
Definition array_faml : faml := mkFaml 2 (Some (40, 0)).

End Substitution.

(** ** The error summary table *)

Module Summary.

Import Submissions.

(** The values of the dictionaries kept in [error_summary]. *)
Inductive value := IntV (n : nat) | StrV (s : string).

(** The dictionary of a file, its items in insertion order. *)
Definition entries (d : error_details) : list (string * value) :=
  match d with
  | NoDetails => []
  | Counts c =>
      [("disconnected_pins", IntV (disconnected_pins c));
       ("floating_shapes", IntV (floating_shapes c));
       ("invalid_components", IntV (invalid_components c));
       ("missing_pins", IntV (missing_pins c));
       ("pin_errors", IntV (pin_errors c));
       ("other_errors", IntV (other_errors c))]
  | CellTooSmall => [("error", StrV "Cell too small")]
  | VerificationFailed => [("verification_failed", IntV 1)]
  end.

Inductive exn := TypeError | KeyError.

(** What is printed, one string for each call of [print], and how the
    code ends. *)
Definition P (A : Type) : Type := list string * (exn + A).

Definition ret {A} (a : A) : P A := ([], inr a).
Definition raise {A} (e : exn) : P A := ([], inl e).
Definition print (s : string) : P unit := ([s], inr tt).
Definition lift {A} (r : exn + A) : P A := ([], r).

Definition bind {A B} (m : P A) (k : A -> P B) : P B :=
  match m with
  | (out, inl e) => (out, inl e)
  | (out, inr a) => let '(out', r) := k a in (out ++ out', r)
  end.

Notation "x <- m ;; k" := (bind m (fun x => k))
  (at level 100, m at next level, right associativity).
Notation "m ;;; k" := (bind m (fun _ => k))
  (at level 100, right associativity).

(** [count > 0]. *)
Definition positive (count : value) : exn + bool :=
  match count with
  | IntV n => inr (0 <? n)%nat
  | StrV _ => inl TypeError
  end.

(** [any(count > 0 for count in values)]: the generator is consumed up to
    the first positive count. *)
Fixpoint any_positive (values : list value) : exn + bool :=
  match values with
  | [] => inr false
  | count :: rest =>
      match positive count with
      | inl e => inl e
      | inr true => inr true
      | inr false => any_positive rest
      end
  end.

(** [errors.get(error_type, 0)]. *)
Fixpoint get (items : list (string * value)) (error_type : string) : value :=
  match items with
  | [] => IntV 0
  | (k, v) :: rest => if decide (k = error_type) then v else get rest error_type
  end.

(** [a + b] as [sum] computes it. *)
Definition add (a : nat) (b : value) : exn + nat :=
  match b with
  | IntV n => inr (a + n)%nat
  | StrV _ => inl TypeError
  end.

(** [sum(values)]. *)
Definition sum (values : list value) : exn + nat :=
  foldl (fun acc v => match acc with inl e => inl e | inr a => add a v end)
        (inr 0%nat) values.

(** [str(x)] as an f-string shows a value. *)
Definition str (v : value) : string :=
  match v with
  | IntV n => pretty n
  | StrV s => s
  end.

(** [c * n]. *)
Fixpoint times (c : ascii) (n : nat) : string :=
  match n with
  | O => EmptyString
  | S k => String c (times c k)
  end.

(** [f"{s:<width}"]. *)
Definition ljust (width : nat) (s : string) : string :=
  s +:+ times " "%char (width - String.length s).

(** [s.replace(a, b)] for single characters. *)
Fixpoint replace (a b : ascii) (s : string) : string :=
  match s with
  | EmptyString => EmptyString
  | String c rest => String (if decide (c = a) then b else c) (replace a b rest)
  end.

Definition is_letter (c : ascii) : bool :=
  let n := nat_of_ascii c in
  (((65 <=? n) && (n <=? 90)) || ((97 <=? n) && (n <=? 122)))%nat.

Definition upper_char (c : ascii) : ascii :=
  let n := nat_of_ascii c in
  if ((97 <=? n) && (n <=? 122))%nat then ascii_of_nat (n - 32) else c.

(** [s.title()], [previous_is_cased] telling whether the character before
    is a letter. *)
Fixpoint title_from (previous_is_cased : bool) (s : string) : string :=
  match s with
  | EmptyString => EmptyString
  | String c rest =>
      String (if previous_is_cased then lower_char c else upper_char c)
             (title_from (is_letter c) rest)
  end.

Definition title : string -> string := title_from false.

(** [sorted(list(all_error_types))]: the keys of all the dictionaries, each
    one once, in the order of strings. *)
Definition error_types (error_summary : gmap string error_details) : list string :=
  merge_sort String.le
    (remove_dups
       (flat_map (fun item => fst <$> entries item.2) (map_to_list error_summary))).

(** [sorted(error_summary.keys())]. *)
Definition filenames (error_summary : gmap string error_details) : list string :=
  merge_sort String.le (fst <$> map_to_list error_summary).

Definition header (error_types : list string) : string :=
  foldl (fun header error_type =>
           header +:+ ljust 15 (title (replace "_" " " error_type)))
        (ljust 40 "Filename") error_types
  +:+ "Status".

(** The body of [for filename in sorted(error_summary.keys())]; every value
    of [error_summary] is a dictionary. *)
Definition row (error_summary : gmap string error_details)
    (error_types : list string) (filename : string) : exn + string :=
  match error_summary !! filename with
  | None => inl KeyError
  | Some errors =>
      match any_positive (snd <$> entries errors) with
      | inl e => inl e
      | inr b =>
          let status := if b then "SKIPPED" else "PASSED" in
          inr (foldl (fun row error_type =>
                        row +:+ ljust 15 (str (get (entries errors) error_type)))
                     (ljust 40 filename) error_types
               +:+ status)
      end
  end.

Fixpoint rows (error_summary : gmap string error_details)
    (error_types : list string) (filenames : list string) : P unit :=
  match filenames with
  | [] => ret tt
  | filename :: rest =>
      r <- lift (row error_summary error_types filename);;
      print r;;;
      rows error_summary error_types rest
  end.

(** The loop that builds [total_row]: the row so far and [total_errors]. *)
Fixpoint totals (error_summary : gmap string error_details)
    (error_types : list string) (total_row : string) (total_errors : nat)
  : exn + (string * nat) :=
  match error_types with
  | [] => inr (total_row, total_errors)
  | error_type :: rest =>
      match sum ((fun item => get (entries item.2) error_type)
                   <$> map_to_list error_summary) with
      | inl e => inl e
      | inr total =>
          totals error_summary rest (total_row +:+ ljust 15 (pretty total))
                 (total_errors + total)%nat
      end
  end.

(** [sum(1 for errors in error_summary.values() if any(...))]. *)
Fixpoint skipped_files (values : list error_details) : exn + nat :=
  match values with
  | [] => inr 0%nat
  | errors :: rest =>
      match any_positive (snd <$> entries errors) with
      | inl e => inl e
      | inr b =>
          match skipped_files rest with
          | inl e => inl e
          | inr n => inr (if b then S n else n)
          end
      end
  end.

Definition rule (c : ascii) (n : nat) : string := times c n.

Definition print_error_summary_table (error_summary : gmap string error_details)
  : P unit :=
  print (String newline (rule "=" 100));;;
  print "VERIFICATION ERROR SUMMARY";;;
  print (rule "=" 100);;;
  if decide (error_summary = ∅) then print "No errors found in any files."
  else
    let error_types := error_types error_summary in
    let header := header error_types in
    print header;;;
    print (rule "-" (String.length header));;;
    rows error_summary error_types (filenames error_summary);;;
    print (rule "-" (String.length header));;;
    t <- lift (totals error_summary error_types (ljust 40 "TOTAL ERRORS") 0);;
    let '(total_row, total_errors) := t in
    print (total_row +:+ pretty (size error_summary) +:+ " files");;;
    skipped <- lift (skipped_files (snd <$> map_to_list error_summary));;
    let passed_files := (size error_summary - skipped)%nat in
    print (String newline "SUMMARY:");;;
    print ("  Total files processed: " +:+ pretty (size error_summary));;;
    print ("  Files passed verification: " +:+ pretty passed_files);;;
    print ("  Files with errors (skipped): " +:+ pretty skipped);;;
    print ("  Total error count: " +:+ pretty total_errors).

(** The end of [generate_piclets]: the table, then the closing line. *)
Definition closing (files : list submission_file) : P unit :=
  print_error_summary_table (load_submission_designs files).2;;;
  print "PIClet generation complete!".

(** The check of the file raises and its cell is smaller than one micron:
    the file is left out with the entry ['error': 'Cell too small']. *)
Definition too_small (f : submission_file) : bool :=
  match check_quiet f with
  | None => (bbox_width f <? 1000) || (bbox_height f <? 1000)
  | Some _ => false
  end.

(** The dictionary holds a positive count. *)
Definition has_positive (errors : error_details) : bool :=
  match any_positive (snd <$> entries errors) with
  | inr b => b
  | inl _ => false
  end.

(** The dictionary stored for the file holds a positive count. *)
Definition flagged (f : submission_file) : bool :=
  has_positive (details (verification f)).

(** The row of the table for [f] under the columns [error_types], up to
    its status. *)
Definition cells (error_types : list string) (f : submission_file) : string :=
  foldl (fun row error_type =>
           row +:+ ljust 15 (str (get (entries (details (verification f))) error_type)))
        (ljust 40 (filename f)) error_types.

(** The files that were left out of the submissions. *)
Definition left_out (files : list submission_file) : nat :=
  (length files - length (load_submission_designs files).1)%nat.

(** The files that were loaded although their dictionary holds a positive
    count. *)
Definition loaded_flagged (files : list submission_file) : list submission_file :=
  filter (fun f => LoadSpec.kept f && flagged f = true) files.

(** A file whose check raises on a cell smaller than one micron. *)
Definition empty_file (f u : string) : submission_file :=
  mkFile f None "" 0 0 u.

(** A file whose check raises on a cell of ordinary size. *)
Definition unchecked_file (f u : string) : submission_file :=
  mkFile f None "" 5000 5000 u.

End Summary.

(** ** The ground wire *)

Module GroundWire.

(** A component as [find_components] reports it: the name of the
    component, the bounding box of its cell and its placement. *)
Record component := mkComponent {
  component_name : string;
  cell_bbox : Box;
  component_trans : Trans
}.

Definition laser_name : string := "ebeam_dream_Laser_SiN_1310_Bond_BB".

Definition ground_wire_width : Z := 20000.

Inductive exn := ValueError.

(** [c.cell.bbox().transformed(c.trans)]. *)
Definition placed (c : component) : Box :=
  box_transformed (component_trans c) (cell_bbox c).

(** The loop over the components: the lists [ymin] and [ymax]. *)
Fixpoint extents (components : list component) (ymin ymax : list Z)
  : list Z * list Z :=
  match components with
  | [] => (ymin, ymax)
  | c :: rest =>
      if decide (component_name c = laser_name)
      then extents rest (ymin ++ [bottom (placed c)]) (ymax ++ [top (placed c)])
      else extents rest ymin ymax
  end.

(** Python's [min] and [max] of a list. *)
Definition min_of (xs : list Z) : exn + Z :=
  match xs with
  | [] => inl ValueError
  | x :: rest => inr (foldl Z.min x rest)
  end.

Definition max_of (xs : list Z) : exn + Z :=
  match xs with
  | [] => inl ValueError
  | x :: rest => inr (foldl Z.max x rest)
  end.

(** A [pya.Path]. *)
Record Path := mkPath { points : list Vector; width : Z }.

(** The lists that are printed, and the wire that is inserted on the deep
    trench layer, or the exception.  [die_width/2] and
    [ground_wire_width/2], floats in the source, are integers. *)
Definition ground_wire (components : list component)
  : (list Z * list Z) * (exn + Path) :=
  let '(ymin, ymax) := extents components [] [] in
  ((ymin, ymax),
   match min_of ymax with
   | inl e => inl e
   | inr lowest_top =>
       match max_of ymin with
       | inl e => inl e
       | inr highest_bottom =>
           let x := - (Faml.die_width / 2) + ground_wire_width / 2 in
           inr (mkPath [(x, lowest_top); (x, highest_bottom)] ground_wire_width)
       end
   end).

(** Two lasers, one above the other, and a heater. *)
Definition two_lasers : list component :=
  [ mkComponent laser_name (mkBox 0 (-150) 600 150) (trans_disp (-1376665) 300);
    mkComponent "wg_heater" (mkBox 0 (-10) 500 10) (trans_disp (-700000) 300);
    mkComponent laser_name (mkBox 0 (-150) 600 150) (trans_disp (-1376665) (-800)) ].

End GroundWire.

(** * Theorems *)

#[local] Set Warnings "-clear-no-such-hyp".

(** ** Transforms *)

Lemma trans_mul_apply (t u : Trans) (p : Vector) :
  trans_apply (trans_mul t u) p = trans_apply t (trans_apply u p).
Proof.
  destruct t as [rt mt [tx ty]], u as [ru mu [ux uy]], p as [x y].
  destruct rt, mt, ru, mu;
    unfold trans_apply, trans_mul, fix_apply, rotate, vadd; simpl;
    f_equal; lia.
Qed.

Lemma trans_mul_id_l (t : Trans) : trans_mul trans_id t = t.
Proof.
  destruct t as [r m [x y]].
  destruct r, m; unfold trans_mul, trans_id, fix_apply, vadd; simpl;
    repeat f_equal; lia.
Qed.

Lemma trans_mul_id_r (t : Trans) : trans_mul t trans_id = t.
Proof.
  destruct t as [r m [x y]].
  destruct r, m; unfold trans_mul, trans_id, fix_apply, vadd; simpl;
    repeat f_equal; lia.
Qed.

Lemma fix_apply_vadd (r : angle) (m : bool) (u v : Vector) :
  fix_apply r m (vadd u v) = vadd (fix_apply r m u) (fix_apply r m v).
Proof.
  destruct u as [ux uy], v as [vx vy].
  destruct r, m; unfold fix_apply, rotate, vadd; simpl; f_equal; lia.
Qed.

Lemma fix_apply_compose (r : angle) (m : bool) (r' : angle) (m' : bool) (v : Vector) :
  fix_apply r m (fix_apply r' m' v)
  = fix_apply (angle_add r (if m then angle_neg r' else r')) (xorb m m') v.
Proof.
  destruct v as [x y].
  destruct r, m, r', m'; unfold fix_apply, rotate; simpl; f_equal; lia.
Qed.

Lemma angle_compose_assoc (r : angle) (m : bool) (r' : angle) (m' : bool) (r'' : angle) :
  angle_add r (if m then angle_neg (angle_add r' (if m' then angle_neg r'' else r''))
               else angle_add r' (if m' then angle_neg r'' else r''))
  = angle_add (angle_add r (if m then angle_neg r' else r'))
              (if xorb m m' then angle_neg r'' else r'').
Proof. by destruct r, m, r', m', r''. Qed.

Lemma vadd_assoc (u v w : Vector) : vadd u (vadd v w) = vadd (vadd u v) w.
Proof. unfold vadd; simpl; f_equal; lia. Qed.

Lemma trans_mul_assoc (t u w : Trans) :
  trans_mul t (trans_mul u w) = trans_mul (trans_mul t u) w.
Proof.
  destruct t as [rt mt dt], u as [ru mu du], w as [rw mw dw].
  unfold trans_mul; simpl. f_equal.
  - apply angle_compose_assoc.
  - by destruct mt, mu, mw.
  - rewrite fix_apply_vadd, fix_apply_compose, vadd_assoc. done.
Qed.

(** ** Re-parenting *)

Section MoveUpFacts.

Import MoveUp.

(** C1 (the code departs from the claim).  On the hierarchy
    TOP > piclet > tree > submission the submission is moved one level up,
    into the piclet cell.  The transform the function assigns is
    [t_sub * t_tree], the instance's own transform applied last, while the
    placement that keeps the submission where it was is [t_tree * t_sub]:
    the origin of the submission moves from (100, 0) to (0, 100). *)
Theorem move_instance_up_hierarchy_misplaces :
  move_instance_up_hierarchy ex_layout 0 (mkRef 2 0) 1
    = inr (mkMoved 1 (trans_mul t_sub t_tree))
  /\ trans_apply (trans_mul t_sub t_tree) (0, 0) = (0, 100)
  /\ trans_apply (absolute_trans [t_tree; t_sub]) (0, 0) = (100, 0).
Proof. repeat split; vm_compute; reflexivity. Qed.

End MoveUpFacts.

(** ** The reference copy *)

Section FamlFacts.

Import Faml Placement.

Lemma ranked_spec (L : layout) (rank : nat -> nat) (c : nat) (i : Inst) :
  ranked L rank = true -> i ∈ cell_insts L c ->
  (rank (cell_index i) < rank c)%nat.
Proof.
  unfold ranked. rewrite forallb_forall. intros Hall Hi.
  assert (Hc : (c < length L)%nat).
  { unfold cell_insts in Hi. destruct (L !! c) eqn:E.
    - by eapply lookup_lt_Some.
    - by apply elem_of_nil in Hi. }
  specialize (Hall c). rewrite forallb_forall in Hall.
  apply Nat.ltb_lt, Hall.
  - apply in_seq. lia.
  - by apply list_elem_of_In.
Qed.

(** Along a rank a chain of placements is no longer than the layout has
    cells. *)
Lemma chain_bound (L : layout) (rank : nat -> nat) :
  ranked L rank = true ->
  forall n c (V : gset nat),
    chain L n c = true ->
    (forall v, v ∈ V -> (v < length L)%nat /\ (rank c < rank v)%nat) ->
    (size V + n <= length L)%nat.
Proof.
  intros Hr. induction n as [|k IH]; intros c V Hc HV.
  - rewrite Nat.add_0_r, <- (size_set_seq (C := gset nat) 0 (length L)).
    apply subseteq_size. intros v Hv. apply elem_of_set_seq.
    destruct (HV v Hv). lia.
  - simpl in Hc. apply existsb_exists in Hc as (i & Hi & Hk).
    apply list_elem_of_In in Hi.
    pose proof (ranked_spec _ _ _ _ Hr Hi) as Hlt.
    assert (Hin : (c < length L)%nat).
    { unfold cell_insts in Hi. destruct (L !! c) eqn:E.
      - by eapply lookup_lt_Some.
      - by apply elem_of_nil in Hi. }
    assert (Hnew : c ∉ V) by (intros Hv; destruct (HV c Hv); lia).
    specialize (IH (cell_index i) ({[c]} ∪ V) Hk).
    rewrite size_union, size_singleton in IH by set_solver.
    assert (size V + 1 + k <= length L)%nat; [|lia].
    rewrite (Nat.add_comm (size V) 1). apply IH.
    intros v [->%elem_of_singleton|Hv]%elem_of_union; [lia|].
    destruct (HV v Hv). lia.
Qed.

(** A hierarchy with a rank is not recursive. *)
Lemma ranked_not_recursive (L : layout) (rank : nat -> nat) :
  ranked L rank = true -> recursive_hierarchy L = false.
Proof.
  intros Hr. unfold recursive_hierarchy.
  destruct (existsb _ _) eqn:E; [|done].
  apply existsb_exists in E as (c & _ & Hc).
  pose proof (chain_bound L rank Hr _ c ∅ Hc) as Hb.
  rewrite size_empty in Hb. specialize (Hb ltac:(set_solver)). lia.
Qed.

(** On an acyclic hierarchy the traversal returns. *)
Lemma find_faml_positions_total (L : layout) (rank : nat -> nat) (nm : string) :
  ranked L rank = true ->
  forall fuel cell t, (rank cell < fuel)%nat ->
    is_Some (find_faml_positions fuel L nm cell t).
Proof.
  intros Hr. induction fuel as [|f IH]; intros cell t Hlt; [lia|].
  simpl.
  assert (Hsub : forall i, i ∈ cell_insts L cell -> (rank (cell_index i) < f)%nat).
  { intros i Hi. pose proof (ranked_spec _ _ _ _ Hr Hi). lia. }
  induction (cell_insts L cell) as [|i il IHl]; simpl; [done|].
  destruct IHl as [more Hmore].
  { intros j Hj. apply Hsub. by right. }
  rewrite Hmore.
  case_decide; [done|].
  destruct (IH (cell_index i) (trans_mul t (trans i))) as [here ->]; [|done].
  apply Hsub. by left.
Qed.

Lemma disp_shift (dx dy : Z) (q : Trans) :
  (disp (trans_mul (mkTrans R0 false (dx, dy)) q)).1 = dx + (disp q).1.
Proof. destruct q as [r m [x y]]. unfold trans_mul, fix_apply, vadd; simpl. lia. Qed.

(** Displacing the root of the traversal displaces every position found. *)
Lemma find_faml_positions_shift (L : layout) (nm : string) (dx dy : Z) :
  forall fuel cell t,
    find_faml_positions fuel L nm cell (trans_mul (mkTrans R0 false (dx, dy)) t)
    = fmap (M := list) (Z.add dx) <$> find_faml_positions fuel L nm cell t.
Proof.
  induction fuel as [|f IH]; intros cell t; [done|].
  simpl. induction (cell_insts L cell) as [|i il IHl]; simpl; [done|].
  rewrite IHl. rewrite <- trans_mul_assoc.
  case_decide.
  - destruct (positions_of _ _ _ il t); simpl; [|done].
    do 2 f_equal. lia.
  - rewrite IH.
    destruct (find_faml_positions f L nm (cell_index i) _); simpl; [|done].
    destruct (positions_of _ _ _ il t); simpl; [|done].
    by rewrite fmap_app.
Qed.

Lemma maximum_shift (d x : Z) (xs : list Z) :
  maximum (d + x) (Z.add d <$> xs) = d + maximum x xs.
Proof.
  unfold maximum. induction xs as [|y ys IH]; [done|].
  rewrite fmap_cons. cbn [foldr]. rewrite IH. lia.
Qed.

Lemma maximum_ge (x : Z) (xs : list Z) :
  forall y, y ∈ x :: xs -> y <= maximum x xs.
Proof.
  unfold maximum. induction xs as [|z zs IH]; intros y Hy; simpl.
  - apply list_elem_of_singleton in Hy as ->. lia.
  - apply elem_of_cons in Hy as [Hy|Hy].
    + pose proof (IH x (list_elem_of_here _ _)). lia.
    + apply elem_of_cons in Hy as [Hy|Hy]; [lia|].
      pose proof (IH y (list_elem_of_further _ _ _ Hy)). lia.
Qed.

Lemma maximum_elem (x : Z) (xs : list Z) : maximum x xs ∈ x :: xs.
Proof.
  unfold maximum. induction xs as [|z zs IH]; simpl; [by left|].
  destruct (Z.max_spec z (foldr Z.max x zs)) as [[_ ->]|[_ ->]].
  - apply elem_of_cons in IH as [->|IH]; [by left|by do 2 right].
  - right. by left.
Qed.

Lemma explode_single_instance (i j : Inst) :
  array i = None -> j ∈ Explode.explode i -> j = i.
Proof.
  unfold Explode.explode. intros ->. by intros ->%list_elem_of_singleton.
Qed.

(** Below a placed cell the instance found sits in a cell of lower rank. *)
Lemma placed_rank (L : layout) (rank : nat -> nat) (nm : string) :
  ranked L rank = true ->
  forall c T A, placed L nm c T A ->
    exists d, cell_name L d = nm /\ (rank d < rank c)%nat.
Proof.
  intros Hr c T A H.
  induction H as [c T i j Hi _ Hn|c T i j A Hi _ _ (d & Hd & Hlt)].
  - exists (cell_index i). split; [done|]. by eapply ranked_spec.
  - exists d. split; [done|]. pose proof (ranked_spec _ _ _ _ Hr Hi). lia.
Qed.

(** The cell named [nm] holds no instance of itself. *)
Lemma placed_outside (L : layout) (rank : nat -> nat) (nm : string)
    (c : nat) (T A : Trans) :
  ranked L rank = true -> unique_name L nm ->
  cell_name L c = nm -> ~ placed L nm c T A.
Proof.
  intros Hr Hu Hc H.
  destruct (placed_rank L rank nm Hr _ _ _ H) as (d & Hd & Hlt).
  rewrite (Hu d c Hd Hc) in Hlt. lia.
Qed.

(** Placing the root by a further transform composes it in front of every
    placement found. *)
Lemma placed_shift (L : layout) (nm : string) (S : Trans) :
  forall c T A, placed L nm c T A -> placed L nm c (trans_mul S T) (trans_mul S A).
Proof.
  intros c T A H. induction H as [c T i j Hi Hj Hn|c T i j A Hi Hj _ IH].
  - rewrite trans_mul_assoc. by eapply placed_here.
  - eapply placed_below; [done..|]. by rewrite <- trans_mul_assoc.
Qed.

Lemma placed_unshift (L : layout) (nm : string) (S : Trans) :
  forall c T' A', placed L nm c T' A' ->
    forall T, T' = trans_mul S T ->
      exists A, placed L nm c T A /\ A' = trans_mul S A.
Proof.
  intros c T' A' H. induction H as [c T' i j Hi Hj Hn|c T' i j A' Hi Hj _ IH];
    intros T ->.
  - exists (trans_mul T (trans j)). split; [by eapply placed_here|].
    by rewrite trans_mul_assoc.
  - destruct (IH (trans_mul T (trans j))) as (A & HA & ->).
    { by rewrite trans_mul_assoc. }
    exists A. split; [by eapply placed_below|done].
Qed.

(** The traversal finds the instances of the cell named [nm], all of them
    and nothing else. *)
Lemma find_faml_positions_spec
    (L : layout) (rank : nat -> nat) (nm : string) (root : nat) :
  ranked L rank = true -> unique_name L nm -> single_instances L nm root ->
  forall fuel c T xs,
    in_tree L nm root c ->
    find_faml_positions fuel L nm c T = Some xs ->
    forall x, x ∈ xs <-> exists A, placed L nm c T A /\ (disp A).1 = x.
Proof.
  intros Hr Hu Hs. induction fuel as [|f IH]; intros c T xs Hc H x; [done|].
  simpl in H.
  assert (Hloop : forall il ys,
            (forall i, i ∈ il -> i ∈ cell_insts L c) ->
            positions_of (find_faml_positions f L nm) L nm il T = Some ys ->
            forall y, y ∈ ys <->
              exists i, i ∈ il
                /\ ((cell_name L (cell_index i) = nm
                     /\ y = (disp (trans_mul T (trans i))).1)
                    \/ (cell_name L (cell_index i) <> nm
                        /\ exists A, placed L nm (cell_index i)
                                            (trans_mul T (trans i)) A
                                     /\ (disp A).1 = y))).
  { induction il as [|i il IHl]; intros ys Hsub Hp y; simpl in Hp.
    - simplify_eq. split; [by intros ?%elem_of_nil|].
      by intros (i & ?%elem_of_nil & _).
    - destruct (positions_of _ L nm il T) as [more|] eqn:Em;
        [|by repeat case_match].
      specialize (IHl more (fun j Hj => Hsub j (list_elem_of_further _ _ _ Hj))
                      eq_refl).
      case_decide as Hn.
      + simplify_eq. cbn [app]. rewrite elem_of_cons, IHl. split.
        * intros [->|(j & Hj & Hcase)].
          -- exists i. split; [by left|]. by left.
          -- exists j. split; [by right|done].
        * intros (j & [->|Hj]%elem_of_cons & Hcase).
          -- destruct Hcase as [[_ ->]|[Hne _]]; [by left|done].
          -- right. by exists j.
      + destruct (find_faml_positions f L nm (cell_index i) _) as [here|] eqn:Eh;
          [|done].
        simplify_eq. rewrite elem_of_app, IHl.
        assert (Hi : i ∈ cell_insts L c) by (apply Hsub; by left).
        pose proof (IH _ _ _ (tree_child L nm root c i Hc Hi Hn) Eh) as Hhere.
        split.
        * intros [Hy|(j & Hj & Hcase)].
          -- exists i. split; [by left|]. right. split; [done|]. by apply Hhere.
          -- exists j. split; [by right|done].
        * intros (j & [->|Hj]%elem_of_cons & Hcase).
          -- destruct Hcase as [[He _]|[_ HA]]; [done|]. left. by apply Hhere.
          -- right. by exists j. }
  rewrite (Hloop _ _ (fun i Hi => Hi) H). split.
  - intros (i & Hi & [[Hn ->]|(Hn & A & HA & <-)]).
    + exists (trans_mul T (trans i)). split; [|done].
      eapply placed_here; [done| |done].
      unfold Explode.explode. rewrite (Hs c i Hc Hi). by left.
    + exists A. split; [|done].
      eapply placed_below; [done| |done].
      unfold Explode.explode. rewrite (Hs c i Hc Hi). by left.
  - intros (A & HA & <-).
    inversion HA as [c' T' i j Hi Hj Hn|c' T' i j A' Hi Hj Hbelow]; subst.
    + apply explode_single_instance in Hj as ->; [|by eapply Hs].
      exists i. split; [done|]. by left.
    + apply explode_single_instance in Hj as ->; [|by eapply Hs].
      exists i. split; [done|]. right. split; [|by exists A].
      intros Hn. by eapply placed_outside.
Qed.

(** C2.  The copy's tree is acyclic, the FaML cell is the one cell of its
    name, and the tree was exploded.  When the copy holds a FaML instance,
    the traversal returns the x coordinates of all the FaML instances of
    the copy and of nothing else; and once the copy is placed by
    [aligned_trans], in the piclet cell that sits at (0, 0) in the top
    cell, no FaML instance of the copy lies to the right of the chip edge
    [die_width/2] and one lies exactly on it, the division being exact. *)
Theorem reference_copy_alignment
    (L : layout) (rank : nat -> nat) (nm : string) (copy : nat)
    (subcell_trans : Trans) :
  ranked L rank = true ->
  unique_name L nm ->
  single_instances L nm copy ->
  (exists A, placed L nm copy trans_id A) ->
  exists faml_positions,
    find_faml_positions (S (rank copy)) L nm copy trans_id = Some faml_positions
    /\ (forall x, x ∈ faml_positions
                  <-> exists A, placed L nm copy trans_id A /\ (disp A).1 = x)
    /\ (forall A,
          placed L nm copy
            (trans_mul (trans_disp 0 0) (aligned_trans subcell_trans faml_positions))
            A ->
          (disp A).1 <= die_width / 2)
    /\ (exists A,
          placed L nm copy
            (trans_mul (trans_disp 0 0) (aligned_trans subcell_trans faml_positions))
            A
          /\ (disp A).1 = die_width / 2)
    /\ 2 * (die_width / 2) = die_width.
Proof.
  intros Hr Hu Hs (A0 & HA0).
  destruct (find_faml_positions_total L rank nm Hr (S (rank copy)) copy trans_id)
    as [ps Hps]; [lia|].
  pose proof (find_faml_positions_spec L rank nm copy Hr Hu Hs _ _ _ _
                (tree_root L nm copy) Hps) as Hspec.
  exists ps. split; [done|]. split; [done|].
  destruct ps as [|x xs].
  { exfalso. eapply elem_of_nil. apply Hspec. by exists A0. }
  change (trans_disp 0 0) with trans_id. rewrite trans_mul_id_l.
  unfold aligned_trans.
  set (S := mkTrans R0 false (die_width / 2 - maximum x xs, (disp subcell_trans).2)).
  split_and!.
  - intros A' HA'.
    destruct (placed_unshift L nm S _ _ _ HA' trans_id) as (A & HA & ->).
    { by rewrite trans_mul_id_r. }
    unfold S. rewrite disp_shift.
    assert ((disp A).1 ∈ x :: xs) by (apply Hspec; by exists A).
    pose proof (maximum_ge x xs _ H). lia.
  - destruct (proj1 (Hspec (maximum x xs)) (maximum_elem x xs)) as (A & HA & Hx).
    exists (trans_mul S A). split.
    + rewrite <- (trans_mul_id_r S) at 1. by apply placed_shift.
    + unfold S. rewrite disp_shift, Hx. lia.
  - reflexivity.
Qed.

(** C2 on a copy whose FaML instances sit in a block placed twice, one of
    the placements rotated, and directly in the copy. *)
Lemma reference_copy_alignment_witness :
  exists faml_positions,
    find_faml_positions 3 copy_layout faml_name 0 trans_id = Some faml_positions
    /\ (forall x, x ∈ faml_positions
                  <-> exists A, placed copy_layout faml_name 0 trans_id A
                                /\ (disp A).1 = x)
    /\ (forall A,
          placed copy_layout faml_name 0
            (trans_mul (trans_disp 0 0)
               (aligned_trans (trans_disp 7 (-250)) faml_positions))
            A ->
          (disp A).1 <= die_width / 2)
    /\ (exists A,
          placed copy_layout faml_name 0
            (trans_mul (trans_disp 0 0)
               (aligned_trans (trans_disp 7 (-250)) faml_positions))
            A
          /\ (disp A).1 = die_width / 2)
    /\ 2 * (die_width / 2) = die_width.
Proof.
  apply (reference_copy_alignment copy_layout (fun c => (2 - c)%nat) faml_name 0
           (trans_disp 7 (-250))).
  - reflexivity.
  - intros [|[|[|c]]] [|[|[|d]]]; vm_compute; intros H1 H2;
      first [reflexivity|discriminate H1|discriminate H2].
  - intros [|[|[|d]]] i _ Hi; vm_compute in Hi;
      repeat (apply elem_of_cons in Hi as [->|Hi]; [reflexivity|]);
      by apply elem_of_nil in Hi.
  - exists (trans_mul trans_id (trans (mkInst 2 (trans_disp (-20) 0) None))).
    eapply (placed_here copy_layout faml_name 0 trans_id
              (mkInst 2 (trans_disp (-20) 0) None)
              (mkInst 2 (trans_disp (-20) 0) None)).
    + vm_compute. set_solver.
    + vm_compute. set_solver.
    + reflexivity.
Defined.

End FamlFacts.

(** ** Port discovery *)

Section PortSearchFacts.

Import PortSearch Reach.

Lemma unvisited_enter (L : layout) (V : gset nat) (c : nat) :
  (c < length L)%nat -> c ∉ V ->
  (size (unvisited L ({[c]} ∪ V)) < size (unvisited L V))%nat.
Proof.
  intros Hc Hn. apply subset_size. unfold unvisited.
  assert (c ∈ (set_seq 0 (length L) : gset nat)) by (apply elem_of_set_seq; lia).
  set_solver.
Qed.

Lemma unvisited_mono (L : layout) (V V' : gset nat) :
  V ⊆ V' -> (size (unvisited L V') <= size (unvisited L V))%nat.
Proof. intros HV. apply subseteq_size. unfold unvisited. set_solver. Qed.

Lemma cell_insts_outside (L : layout) (c : nat) :
  ¬ (c < length L)%nat -> cell_insts L c = [].
Proof.
  intros Hc. unfold cell_insts.
  destruct (L !! c) eqn:E; [|done].
  apply lookup_lt_Some in E. lia.
Qed.

Lemma each_inst_sorted (L : layout) (c : nat) :
  recursive_hierarchy L = false -> each_inst L c = inr (cell_insts L c).
Proof. unfold each_inst. by intros ->. Qed.

Lemma chain_shorter (L : layout) :
  forall n c, chain L (S n) c = true -> chain L n c = true.
Proof.
  induction n as [|n IH]; intros c H; [done|].
  cbn [chain] in H. apply existsb_exists in H as (i & Hi & Hc).
  cbn [chain]. apply existsb_exists. exists i. split; [done|]. by apply IH.
Qed.

Lemma chain_above (L : layout) (n : nat) :
  forall c d, reachable L c d -> chain L n d = true -> chain L n c = true.
Proof.
  intros c d H. induction H as [c|c i d Hi _ IH]; intros Hd; [done|].
  apply chain_shorter. cbn [chain]. apply existsb_exists.
  exists i. split; [by apply list_elem_of_In|]. by apply IH.
Qed.

(** A hierarchy in which a cell is placed below itself is recursive. *)
Lemma cycle_recursive (L : layout) (c : nat) (i : Inst) :
  i ∈ cell_insts L c -> reachable L (cell_index i) c ->
  recursive_hierarchy L = true.
Proof.
  intros Hi Hback.
  assert (Hall : forall n, chain L n c = true).
  { induction n as [|n IH]; [done|]. cbn [chain]. apply existsb_exists.
    exists i. split; [by apply list_elem_of_In|]. by eapply chain_above. }
  unfold recursive_hierarchy. apply existsb_exists. exists c. split; [|done].
  apply in_seq. unfold cell_insts in Hi. destruct (L !! c) eqn:E.
  - apply lookup_lt_Some in E. lia.
  - by apply elem_of_nil in Hi.
Qed.

(** On a hierarchy that is not recursive a call is the traversal of the
    instance lists. *)
Lemma find_port_step (L : layout) :
  recursive_hierarchy L = false ->
  forall f cell st,
    find_port_sin_cell_and_position (S f) L cell st
    = if decide (cell ∈ visited_cells st) then Some (inr (None, st))
      else
        match direct_port L (cell_insts L cell) with
        | Some r =>
            Some (inr (Some r,
                       mkSearch ({[cell]} ∪ visited_cells st) (cell :: searched st)))
        | None =>
            sub_ports (find_port_sin_cell_and_position f L) (cell_insts L cell)
                      (mkSearch ({[cell]} ∪ visited_cells st) (cell :: searched st))
        end.
Proof.
  intros Hs f cell st. cbn [find_port_sin_cell_and_position].
  by rewrite !each_inst_sorted.
Qed.

(** On a recursive hierarchy the first cell entered ends the search. *)
Lemma find_port_recursive (L : layout) :
  recursive_hierarchy L = true ->
  forall f cell st,
    cell ∉ visited_cells st ->
    find_port_sin_cell_and_position (S f) L cell st = Some (inl RuntimeError).
Proof.
  intros Hr f cell st Hn. cbn [find_port_sin_cell_and_position].
  rewrite decide_False by done. unfold each_inst. by rewrite Hr.
Qed.

Lemma find_port_returns (L : layout) :
  forall fuel cell st x,
    find_port_sin_cell_and_position fuel L cell st = Some (inr x) ->
    recursive_hierarchy L = false \/ x = (None, st).
Proof.
  intros [|f] cell st x H; [done|].
  destruct (recursive_hierarchy L) eqn:Hr; [right|by left].
  destruct (decide (cell ∈ visited_cells st)) as [Hin|Hin].
  - cbn [find_port_sin_cell_and_position] in H. rewrite decide_True in H by done.
    by simplify_eq.
  - by rewrite find_port_recursive in H.
Qed.

(** The visited set only grows. *)
Lemma find_port_visited_mono (L : layout) :
  forall fuel cell st r st',
    find_port_sin_cell_and_position fuel L cell st = Some (inr (r, st')) ->
    visited_cells st ⊆ visited_cells st'.
Proof.
  intros fuel cell st r st' H.
  destruct (find_port_returns _ _ _ _ _ H) as [Hs|[= -> ->]]; [|done].
  revert cell st r st' H.
  induction fuel as [|f IH]; intros cell st r st' H; [done|].
  rewrite find_port_step in H by done. case_decide; [by simplify_eq|].
  destruct (direct_port L (cell_insts L cell)); [simplify_eq; simpl; set_solver|].
  set (st1 := mkSearch _ _) in H.
  assert (Hst1 : visited_cells st ⊆ visited_cells st1) by (simpl; set_solver).
  clearbody st1. revert st1 Hst1 H.
  induction (cell_insts L cell) as [|i il IHl]; intros st1 Hst1 H; simpl in H.
  - by simplify_eq.
  - destruct (find_port_sin_cell_and_position f L (cell_index i) st1)
      as [[e|[[r1|] st2]]|] eqn:E; [done| | |done].
    + simplify_eq. apply IH in E. set_solver.
    + apply IH in E. eapply IHl; [|exact H]. set_solver.
Qed.

(** With a frame for every cell not yet visited the search ends, with a
    result or with the error, on any graph of cells. *)
Lemma find_port_total (L : layout) :
  forall fuel cell st,
    (size (unvisited L (visited_cells st)) < fuel)%nat ->
    is_Some (find_port_sin_cell_and_position fuel L cell st).
Proof.
  destruct (recursive_hierarchy L) eqn:Hs.
  { intros [|f] cell st Hf; [lia|].
    destruct (decide (cell ∈ visited_cells st)) as [Hin|Hin].
    - cbn [find_port_sin_cell_and_position]. by rewrite decide_True.
    - by rewrite find_port_recursive. }
  induction fuel as [|f IH]; intros cell st Hf; [lia|].
  rewrite find_port_step by done. case_decide as Hin; [done|].
  destruct (direct_port L (cell_insts L cell)); [done|].
  destruct (decide (cell < length L)%nat) as [Hc|Hc];
    [|by rewrite cell_insts_outside].
  set (st1 := mkSearch _ _).
  assert (Hst1 : (size (unvisited L (visited_cells st1)) < f)%nat).
  { pose proof (unvisited_enter L _ _ Hc Hin). simpl. lia. }
  clearbody st1. revert st1 Hst1.
  induction (cell_insts L cell) as [|i il IHl]; intros st1 Hst1; simpl; [done|].
  destruct (IH (cell_index i) st1 Hst1) as [[e|[[r1|] st2]] E]; rewrite E;
    [done|done|].
  apply IHl. apply find_port_visited_mono in E.
  pose proof (unvisited_mono L _ _ E). lia.
Qed.

Lemma find_port_consistent (L : layout) :
  forall fuel cell st r st',
    find_port_sin_cell_and_position fuel L cell st = Some (inr (r, st')) ->
    consistent st -> consistent st'.
Proof.
  intros fuel cell st r st' H.
  destruct (find_port_returns _ _ _ _ _ H) as [Hs|[= -> ->]]; [|done].
  revert cell st r st' H.
  induction fuel as [|f IH]; intros cell st r st' H Hc; [done|].
  rewrite find_port_step in H by done. case_decide as Hin; [by simplify_eq|].
  set (st1 := mkSearch _ _) in H.
  assert (Hst1 : consistent st1).
  { destruct Hc as [Hnd Hiff]. split; simpl.
    - constructor; [by rewrite Hiff|done].
    - intros c. rewrite elem_of_cons, Hiff. set_solver. }
  destruct (direct_port L (cell_insts L cell)); [by simplify_eq|].
  clearbody st1. revert st1 Hst1 H.
  induction (cell_insts L cell) as [|i il IHl]; intros st1 Hst1 H; simpl in H.
  - by simplify_eq.
  - destruct (find_port_sin_cell_and_position f L (cell_index i) st1)
      as [[e|[[r1|] st2]]|] eqn:E; [done| | |done].
    + simplify_eq. by eapply IH.
    + eapply IHl; [|exact H]. by eapply IH.
Qed.

(** A marker placed directly in the searched cell is reported with the
    centre of its bounding box in the frame of that cell. *)
Lemma direct_port_found (L : layout) (il : list Inst) (c : nat) (y : Z) :
  direct_port L il = Some (c, y) ->
  exists i, i ∈ il /\ cell_index i = c
            /\ contains port_marker (cell_name L c) = true
            /\ y = (box_center (inst_bbox L i)).2.
Proof.
  induction il as [|i il IH]; [done|]. simpl.
  destruct (contains port_marker (cell_name L (cell_index i))) eqn:E.
  - intros [= <- <-]. exists i. split; [by left|done].
  - intros H. destruct (IH H) as (j & Hj & ?). exists j. split; [by right|done].
Qed.

Lemma direct_port_some (L : layout) (il : list Inst) :
  (exists i, i ∈ il /\ contains port_marker (cell_name L (cell_index i)) = true) ->
  is_Some (direct_port L il).
Proof.
  induction il as [|j il IH]; intros (i & Hi & Hc).
  - by apply elem_of_nil in Hi.
  - simpl. destruct (contains port_marker (cell_name L (cell_index j))) eqn:E; [done|].
    apply IH. apply elem_of_cons in Hi as [->|Hi]; [congruence|eauto].
Qed.

(** What the search reports in general: the marker cell, and the centre of
    the marker instance's box in the frame of the cell that holds the
    instance, one of the cells the search entered. *)
Lemma find_port_found (L : layout) :
  forall fuel cell st c y st',
    find_port_sin_cell_and_position fuel L cell st = Some (inr (Some (c, y), st')) ->
    exists d i,
      d ∈ visited_cells st' /\ i ∈ cell_insts L d /\ cell_index i = c
      /\ contains port_marker (cell_name L c) = true
      /\ y = (box_center (inst_bbox L i)).2.
Proof.
  intros fuel cell st c y st' H.
  destruct (find_port_returns _ _ _ _ _ H) as [Hs|[= ]].
  revert cell st c y st' H.
  induction fuel as [|f IH]; intros cell st c y st' H; [done|].
  rewrite find_port_step in H by done. case_decide; [done|].
  destruct (direct_port L (cell_insts L cell)) as [[c' y']|] eqn:Ed.
  - simplify_eq. apply direct_port_found in Ed as (i & ? & ? & ? & ?).
    exists cell, i. split_and!; try done. simpl. set_solver.
  - set (st1 := mkSearch _ _) in H. clearbody st1. clear Ed. revert st1 H.
    induction (cell_insts L cell) as [|i il IHl]; intros st1 H; simpl in H.
    + done.
    + destruct (find_port_sin_cell_and_position f L (cell_index i) st1)
        as [[e|[[r1|] st2]]|] eqn:E; [done| | |done].
      * destruct r1 as [c1 y1]. simplify_eq. exact (IH _ _ _ _ _ E).
      * exact (IHl _ H).
Qed.

(** The cells a search enters lie below the cell it started from. *)
Lemma find_port_visits_below (L : layout) :
  forall fuel cell st r st',
    find_port_sin_cell_and_position fuel L cell st = Some (inr (r, st')) ->
    forall d, d ∈ visited_cells st' -> d ∉ visited_cells st -> reachable L cell d.
Proof.
  intros fuel cell st r st' H.
  destruct (find_port_returns _ _ _ _ _ H) as [Hs|[= -> ->]]; [|done].
  revert cell st r st' H.
  induction fuel as [|f IH]; intros cell st r st' H d Hd Hn; [done|].
  rewrite find_port_step in H by done. case_decide as Hin; [by simplify_eq|].
  destruct (direct_port L (cell_insts L cell)).
  { simplify_eq. simpl in Hd. assert (d = cell) as -> by set_solver. constructor. }
  assert (Hloop : forall il st1 r st2,
            (forall i, i ∈ il -> i ∈ cell_insts L cell) ->
            sub_ports (find_port_sin_cell_and_position f L) il st1
              = Some (inr (r, st2)) ->
            forall d, d ∈ visited_cells st2 -> d ∉ visited_cells st1 ->
                      reachable L cell d).
  { clear -IH. induction il as [|i il IHl]; intros st1 r st2 Hsub H d Hd Hn;
      simpl in H.
    - by simplify_eq.
    - destruct (find_port_sin_cell_and_position f L (cell_index i) st1)
        as [[e|[[r1|] sta]]|] eqn:E; [done| | |done].
      + simplify_eq. eapply reach_below; [apply Hsub; by left|]. by eapply IH.
      + destruct (decide (d ∈ visited_cells sta)).
        * eapply reach_below; [apply Hsub; by left|]. by eapply IH.
        * eapply IHl; [|exact H|done|done]. intros j Hj. apply Hsub. by right. }
  destruct (decide (d = cell)) as [->|Hne]; [constructor|].
  eapply Hloop; [done|exact H|done|]. simpl. set_solver.
Qed.

(** After a search that found nothing on a hierarchy that is not
    recursive, every cell it entered holds no marker and only places cells
    that were entered as well. *)
Lemma find_port_none_closed (L : layout) :
  recursive_hierarchy L = false ->
  forall fuel cell st st',
    find_port_sin_cell_and_position fuel L cell st = Some (inr (None, st')) ->
    cell ∈ visited_cells st'
    /\ forall d, d ∈ visited_cells st' -> d ∉ visited_cells st ->
         direct_port L (cell_insts L d) = None
         /\ forall i, i ∈ cell_insts L d -> cell_index i ∈ visited_cells st'.
Proof.
  intros Hs.
  induction fuel as [|f IH]; intros cell st st' H; [done|].
  rewrite find_port_step in H by done. case_decide as Hin; [by simplify_eq|].
  destruct (direct_port L (cell_insts L cell)) eqn:Ed; [done|].
  set (st1 := mkSearch _ _) in H.
  assert (Hloop : forall il st1 st2,
            sub_ports (find_port_sin_cell_and_position f L) il st1
              = Some (inr (None, st2)) ->
            visited_cells st1 ⊆ visited_cells st2
            /\ (forall i, i ∈ il -> cell_index i ∈ visited_cells st2)
            /\ forall d, d ∈ visited_cells st2 -> d ∉ visited_cells st1 ->
                 direct_port L (cell_insts L d) = None
                 /\ forall i, i ∈ cell_insts L d -> cell_index i ∈ visited_cells st2).
  { clear -IH. induction il as [|i il IHl]; intros st1 st2 H; simpl in H.
    - simplify_eq. split_and!; [done|by intros i ?%elem_of_nil|done].
    - destruct (find_port_sin_cell_and_position f L (cell_index i) st1)
        as [[e|[[r1|] sta]]|] eqn:E; [done|done| |done].
      pose proof (find_port_visited_mono _ _ _ _ _ _ E) as Hm.
      apply IH in E as [Hi Hnew].
      apply IHl in H as (Hm2 & Hrest & Hnew2).
      split_and!.
      + set_solver.
      + intros j [->|Hj]%elem_of_cons; [set_solver|by apply Hrest].
      + intros d Hd Hn. destruct (decide (d ∈ visited_cells sta)) as [Hda|Hda].
        * destruct (Hnew d Hda Hn) as [? Hch]. split; [done|].
          intros j Hj. apply Hm2. by apply Hch.
        * by apply Hnew2. }
  apply Hloop in H as (Hm & Hch & Hnew).
  split; [apply Hm; simpl; set_solver|].
  intros d Hd Hn. destruct (decide (d = cell)) as [->|Hne].
  - done.
  - apply Hnew; [done|]. simpl. set_solver.
Qed.

Lemma size_unvisited_empty (L : layout) :
  (size (unvisited L ∅) < S (length L))%nat.
Proof.
  unfold unvisited.
  assert (size (set_seq (C := gset nat) 0 (length L) ∖ ∅) <= length L)%nat; [|lia].
  rewrite <- (size_set_seq (C := gset nat) 0 (length L)) at 2.
  apply subseteq_size. set_solver.
Qed.

Lemma find_port_no_error (L : layout) :
  recursive_hierarchy L = false ->
  forall fuel cell st e,
    find_port_sin_cell_and_position fuel L cell st <> Some (inl e).
Proof.
  intros Hs. induction fuel as [|f IH]; intros cell st e; [done|].
  rewrite find_port_step by done. case_decide; [done|].
  destruct (direct_port L (cell_insts L cell)); [done|].
  generalize (mkSearch ({[cell]} ∪ visited_cells st) (cell :: searched st)).
  induction (cell_insts L cell) as [|i il IHl]; intros st1; simpl; [done|].
  destruct (find_port_sin_cell_and_position f L (cell_index i) st1)
    as [[e'|[[r1|] st2]]|] eqn:E; [|done|apply IHl|done].
  by apply IH in E.
Qed.

(** The search on a hierarchy that is not recursive: it returns, it
    searches no cell twice, and it reports a port cell exactly when the
    cell searched, or a cell below it, places a marker cell. *)
Lemma search_sorted (L : layout) (cell : nat) :
  recursive_hierarchy L = false ->
  exists r st,
    search L cell = Some (inr (r, st))
    /\ NoDup (searched st)
    /\ (is_Some r <-> exists d, reachable L cell d /\ places_marker L d).
Proof.
  intros Hs. unfold search.
  destruct (find_port_total L (S (length L)) cell (mkSearch ∅ []))
    as [[e|[r st]] E]; [apply size_unvisited_empty| |].
  { by apply find_port_no_error in E. }
  exists r, st. split; [done|]. split.
  { eapply find_port_consistent in E as [Hnd _]; [done|].
    split; simpl; [constructor|set_solver]. }
  split.
  - intros [[c y] ->].
    pose proof (find_port_found _ _ _ _ _ _ _ E) as (d & i & Hd & Hi & Hc & Hm & _).
    exists d. split.
    + eapply find_port_visits_below; [exact E|done|]. simpl. set_solver.
    + exists i. by subst c.
  - intros (d & Hr & Hm). destruct r as [r|]; [done|]. exfalso.
    apply find_port_none_closed in E as [Hc Hnew]; [|done].
    assert (Hd : d ∈ visited_cells st).
    { clear Hm. induction Hr as [c|c i d Hi _ IH]; [done|].
      apply IH. destruct (Hnew c Hc) as [_ Hch]; [simpl; set_solver|].
      by apply Hch. }
    destruct (Hnew d Hd) as [Hnone _]; [simpl; set_solver|].
    apply direct_port_some with (L := L) in Hm. rewrite Hnone in Hm.
    by destruct Hm.
Qed.

(** C3 (the code departs from the claim).  In [nested_layout] the marker
    cell sits in [block], and [block] is placed in the searched cell
    displaced by (0, 100).  The search returns the marker cell with y = 0,
    the centre of the marker's box in the frame of [block]; in the frame of
    the searched cell the centre is at y = 100. *)
Theorem find_port_sin_reports_inner_frame :
  (exists st, search nested_layout 0 = Some (inr (Some (2%nat, 0), st)))
  /\ (box_center
        (box_transformed (trans_mul (trans_disp 0 100) trans_id) marker_box)).2
     = 100.
Proof. split; [eexists|]; vm_compute; reflexivity. Qed.

(** C7, as amended.  The search ends on every hierarchy.  On a hierarchy
    that is not recursive, shared cells included, it returns, it searches
    no cell twice, and when neither the cell searched nor a cell below it
    places a marker the result is (None, None).  On a recursive hierarchy
    no result is returned: the first [each_inst] raises [RuntimeError],
    which the function does not catch.  A hierarchy with a rank is not
    recursive ([ranked_not_recursive]); one in which a cell is placed below
    itself is ([cycle_recursive]). *)
Theorem find_port_sin_terminates (L : layout) (cell : nat) :
  (recursive_hierarchy L = false ->
   exists r st,
     search L cell = Some (inr (r, st))
     /\ NoDup (searched st)
     /\ ((forall d, reachable L cell d -> ~ places_marker L d) -> r = None))
  /\ (recursive_hierarchy L = true -> search L cell = Some (inl RuntimeError)).
Proof.
  split.
  - intros Hs. destruct (search_sorted L cell Hs) as (r & st & E & Hnd & Hr).
    exists r, st. split_and!; [done..|].
    intros Hno. destruct r as [r|]; [|done].
    destruct Hr as [Hr _]. destruct Hr as (d & Hd & Hm); [done|].
    by destruct (Hno d Hd).
  - intros Hr. unfold search. apply find_port_recursive; [done|]. simpl. set_solver.
Qed.

(** C7 on a hierarchy whose cell [shared] is placed along two paths. *)
Lemma find_port_sin_terminates_witness :
  exists st,
    search shared_layout 0 = Some (inr (None, st))
    /\ searched st = [2; 1; 0]%nat.
Proof.
  destruct (find_port_sin_terminates shared_layout 0) as [H _].
  destruct (H eq_refl) as (r & st & E & _ & _).
  exists st. vm_compute in E. injection E as <- <-. split; reflexivity.
Defined.

(** C7 as it was stated fails on a hierarchy with a cycle: no cell of
    [cyclic_layout] places a marker, and the search does not return
    (None, None), it ends with [RuntimeError]. *)
Lemma cyclic_hierarchy_raises :
  has_marker cyclic_layout = false
  /\ recursive_hierarchy cyclic_layout = true
  /\ search cyclic_layout 0 = Some (inl RuntimeError)
  /\ ~ exists st, search cyclic_layout 0 = Some (inr (None, st)).
Proof.
  split_and!; [reflexivity..|].
  intros [st H]. vm_compute in H. discriminate H.
Qed.

End PortSearchFacts.

(** ** Array flattening *)

Section ExplodeFacts.

Import Explode.

Lemma explode_single (i : Inst) :
  Forall (fun j => is_regular_array j = false /\ cell_index j = cell_index i)
         (explode i).
Proof.
  unfold explode, is_regular_array. destruct (array i) as [ar|] eqn:E.
  - apply Forall_forall. intros j Hj.
    apply list_elem_of_In, in_map_iff in Hj as (d & <- & _). done.
  - apply Forall_singleton. by rewrite E.
Qed.

Lemma flat_map_explode_single (il : list Inst) :
  Forall (fun j => is_regular_array j = false) (flat_map explode il).
Proof.
  induction il as [|i il IH]; simpl; [done|].
  apply Forall_app. split; [|done].
  eapply Forall_impl; [apply explode_single|]. by intros j [? _].
Qed.

Lemma explode_flat (il : list Inst) :
  Forall (fun j => is_regular_array j = false) il ->
  flat_map explode il = il /\ count_arrays il = 0%nat.
Proof.
  unfold count_arrays.
  induction 1 as [|i il Hi _ [IH1 IH2]]; [done|]. split.
  - simpl. rewrite IH1. unfold explode. unfold is_regular_array in Hi.
    by destruct (array i).
  - rewrite filter_cons_False by congruence. done.
Qed.

Lemma length_array_offsets (ar : ArraySpec) :
  (na ar * nb ar)%nat = length (array_offsets ar).
Proof.
  unfold array_offsets.
  rewrite <- (length_seq (na ar) 0) at 1.
  induction (seq 0 (na ar)) as [|r rs IH]; [done|].
  simpl. rewrite length_app, <- IH, length_map, length_seq. done.
Qed.

Lemma elem_of_array_offsets (ar : ArraySpec) (r c : nat) :
  (r < na ar)%nat -> (c < nb ar)%nat ->
  vadd (vscale (Z.of_nat r) (a ar)) (vscale (Z.of_nat c) (b ar))
    ∈ array_offsets ar.
Proof.
  intros Hr Hc. unfold array_offsets.
  apply list_elem_of_In, in_flat_map. exists r. split; [apply in_seq; lia|].
  apply in_map_iff. exists c. split; [done|apply in_seq; lia].
Qed.

(** An array of [na] by [nb] placements explodes into [na * nb] single
    instances, one at each [base + r * a + c * b]. *)
Lemma explode_array (i : Inst) (ar : ArraySpec) :
  array i = Some ar ->
  length (explode i) = (na ar * nb ar)%nat
  /\ Forall (fun j => is_regular_array j = false) (explode i)
  /\ forall r c, (r < na ar)%nat -> (c < nb ar)%nat ->
       mkInst (cell_index i)
              (displaced (trans i)
                 (vadd (vscale (Z.of_nat r) (a ar)) (vscale (Z.of_nat c) (b ar))))
              None ∈ explode i.
Proof.
  intros E. split; [|split].
  - unfold explode. rewrite E, length_map. symmetry. apply length_array_offsets.
  - eapply Forall_impl; [apply explode_single|]. by intros j [? _].
  - intros r c Hr Hc. unfold explode. rewrite E.
    apply list_elem_of_In, in_map_iff. eexists. split; [reflexivity|].
    apply list_elem_of_In. by apply elem_of_array_offsets.
Qed.

Lemma total_arrays_insert (L : layout) (c : nat) (x y : Cell) :
  L !! c = Some x ->
  (total_arrays (<[c := y]> L) + count_arrays (insts x)
   = total_arrays L + count_arrays (insts y))%nat.
Proof.
  unfold total_arrays.
  revert c. induction L as [|z L IH]; intros c E; [done|].
  destruct c as [|c]; simpl.
  - injection E as ->.
    generalize (foldr (λ c n, count_arrays (insts c) + n) 0 L)%nat,
      (count_arrays (insts x)), (count_arrays (insts y)).
    intros; lia.
  - rewrite <- !Nat.add_assoc. f_equal. exact (IH c E).
Qed.

Lemma explode_cell_spec (L : layout) (c : nat) (L1 : layout) (n : nat) :
  explode_cell L c = (L1, n) ->
  length L1 = length L
  /\ (forall d, d <> c -> L1 !! d = L !! d)
  /\ cell_insts L1 c = flat_map explode (cell_insts L c)
  /\ (n + total_arrays L1 = total_arrays L)%nat.
Proof.
  unfold explode_cell, cell_insts. destruct (L !! c) as [x|] eqn:E.
  - intros [= <- <-]. repeat split.
    + apply length_insert.
    + intros d Hd. by apply list_lookup_insert_ne.
    + rewrite list_lookup_insert_eq by (by eapply lookup_lt_Some). done.
    + pose proof (total_arrays_insert L c x
        (mkCell (name x) (flat_map explode (insts x)) (bbox x)) E) as Ht.
      simpl in Ht.
      destruct (explode_flat _ (flat_map_explode_single (insts x))) as [_ Hz].
      lia.
  - intros [= <- <-]. rewrite E. done.
Qed.


Lemma exploded_refl (L : layout) (V : gset nat) : exploded L V L V.
Proof. unfold exploded. repeat split; done. Qed.

Lemma exploded_trans (L0 L1 L2 : layout) (V0 V1 V2 : gset nat) :
  exploded L0 V0 L1 V1 -> exploded L1 V1 L2 V2 -> exploded L0 V0 L2 V2.
Proof.
  intros (Hs1 & Hl1 & Hf1 & Hn1) (Hs2 & Hl2 & Hf2 & Hn2).
  repeat split.
  - set_solver.
  - congruence.
  - intros d [Hd|Hd].
    + rewrite Hf2 by (left; set_solver). apply Hf1. by left.
    + rewrite Hf2 by (by right). apply Hf1. right. set_solver.
  - intros d Hd2 Hd0. destruct (decide (d ∈ V1)) as [Hd1|Hd1].
    + unfold cell_insts at 1. rewrite Hf2 by (by left).
      by apply Hn1.
    + rewrite Hn2 by done. unfold cell_insts.
      rewrite Hf1 by (by right). done.
Qed.

Lemma closed_over_trans (L1 L2 : layout) (V0 V1 V2 : gset nat) :
  exploded L1 V1 L2 V2 ->
  closed_over L1 V0 V1 -> closed_over L2 V1 V2 -> closed_over L2 V0 V2.
Proof.
  intros (Hs & _ & Hf & _) Hc1 Hc2 d Hd2 Hd0 i Hi.
  destruct (decide (d ∈ V1)) as [Hd1|Hd1].
  - unfold cell_insts in Hi. rewrite Hf in Hi by (by left).
    apply Hs. by eapply Hc1.
  - by eapply Hc2.
Qed.

Lemma sub_cells_spec
    (rec : layout -> nat -> gset nat -> option (layout * gset nat * nat)) :
  (forall L c V res, rec L c V = Some res -> run_spec L c V res) ->
  forall il L V n L' V' n',
    sub_cells rec il L V n = Some (L', V', n') ->
    exploded L V L' V'
    /\ closed_over L' V V'
    /\ (forall i, i ∈ il -> is_regular_array i = false -> cell_index i ∈ V')
    /\ (n' + total_arrays L' = n + total_arrays L)%nat.
Proof.
  intros Hrec. induction il as [|i il IH]; intros L V n L' V' n' H; simpl in H.
  - simplify_eq. split_and!.
    + apply exploded_refl.
    + intros d ? ?. done.
    + intros i ?%elem_of_nil. done.
    + done.
  - destruct (is_regular_array i) eqn:Ei.
    + destruct (IH _ _ _ _ _ _ H) as (He & Hc & Hi & Hn).
      split_and!; try done.
      intros j [->|Hj]%elem_of_cons Hj'; [congruence|by apply Hi].
    + destruct (rec L (cell_index i) V) as [[[L1 V1] k]|] eqn:E; [|done].
      apply Hrec in E as (He1 & Hc1 & Hi1 & Hn1). simpl in *.
      destruct (IH _ _ _ _ _ _ H) as (He & Hc & Hi & Hn).
      split_and!.
      * by eapply exploded_trans.
      * by eapply closed_over_trans.
      * intros j [->|Hj]%elem_of_cons Hj'; [|by apply Hi].
        destruct He as (Hs & _). by apply Hs.
      * lia.
Qed.

Lemma explode_regular_arrays_spec :
  forall fuel L cell V res,
    explode_regular_arrays fuel L cell V = Some res -> run_spec L cell V res.
Proof.
  induction fuel as [|f IH]; intros L cell V res H; [done|].
  simpl in H. case_decide as Hin.
  - simplify_eq. unfold run_spec; simpl.
    split_and!; [apply exploded_refl|by intros d ? ?|done|done].
  - destruct (explode_cell L cell) as [L1 n1] eqn:E1.
    apply explode_cell_spec in E1 as (Hl1 & Hf1 & Hi1 & Hn1).
    destruct res as [[L' V'] n'].
    apply (sub_cells_spec _ (IH)) in H as (He & Hc & Hi & Hn).
    assert (He1 : exploded L V L1 ({[cell]} ∪ V)).
    { split_and!; [set_solver|done| |].
      - intros d Hd. apply Hf1. set_solver.
      - intros d Hd Hd'. assert (d = cell) as -> by set_solver. done. }
    pose proof He as (Hs & _ & Hf & _).
    unfold run_spec; simpl. split_and!.
    + by eapply exploded_trans.
    + intros d Hd Hd' i Hi'.
      destruct (decide (d = cell)) as [->|Hne].
      * unfold cell_insts in Hi'. rewrite Hf in Hi' by (left; set_solver).
        fold (cell_insts L1 cell) in Hi'. apply Hi; [done|].
        rewrite Hi1 in Hi'.
        pose proof (flat_map_explode_single (cell_insts L cell)) as Hall.
        rewrite Forall_forall in Hall. by apply Hall.
      * eapply Hc; [done| |done]. set_solver.
    + set_solver.
    + lia.
Qed.

(** With a frame for every cell not yet visited the run returns. *)
Lemma explode_regular_arrays_total :
  forall fuel L cell V,
    (size (unvisited L V) < fuel)%nat ->
    is_Some (explode_regular_arrays fuel L cell V).
Proof.
  induction fuel as [|f IH]; intros L cell V Hf; [lia|].
  assert (Hloop : forall il L V n,
             (size (unvisited L V) < f)%nat ->
             is_Some (sub_cells (explode_regular_arrays f) il L V n)).
  { clear -IH. induction il as [|i il IHl]; intros L V n Hm; simpl; [done|].
    destruct (is_regular_array i); [by apply IHl|].
    destruct (IH L (cell_index i) V Hm) as [[[L2 V2] k] E]. rewrite E.
    apply IHl. apply explode_regular_arrays_spec in E as ((Hs & Hl & _) & _).
    simpl in *. pose proof (unvisited_mono L _ _ Hs).
    unfold unvisited in *. rewrite Hl. lia. }
  simpl. case_decide as Hin; [done|].
  destruct (explode_cell L cell) as [L1 n1] eqn:E1.
  apply explode_cell_spec in E1 as (Hl1 & _ & Hi1 & _).
  destruct (decide (cell < length L)%nat) as [Hc|Hc]; last first.
  { rewrite Hi1, cell_insts_outside by done. done. }
  apply Hloop.
  pose proof (unvisited_enter L _ _ Hc Hin).
  unfold unvisited in *. rewrite Hl1. lia.
Qed.




End ExplodeFacts.

(** ** Loading the submissions *)

Section SubmissionsFacts.

Import Submissions.

Lemma count_line_disconnected (e : error_counts) (line : string) :
  (disconnected_pins e <= disconnected_pins (count_line e line))%nat
  /\ (contains "disconnected pin" (lower line) = true ->
      (disconnected_pins e < disconnected_pins (count_line e line))%nat).
Proof.
  unfold count_line.
  destruct (contains "disconnected pin" (lower line)); simpl; [lia|].
  split; [|done].
  repeat match goal with
         | |- context [if ?b then _ else _] => destruct b; simpl
         end; lia.
Qed.

Lemma parse_disconnected (lines : list string) (e : error_counts) :
  (disconnected_pins e <= disconnected_pins (foldl count_line e lines))%nat
  /\ ((exists line, line ∈ lines /\ contains "disconnected pin" (lower line) = true) ->
      (disconnected_pins e < disconnected_pins (foldl count_line e lines))%nat).
Proof.
  revert e. induction lines as [|l ls IH]; intros e; simpl.
  - split; [lia|]. intros (line & []%elem_of_nil & _).
  - destruct (IH (count_line e l)) as [IH1 IH2].
    destruct (count_line_disconnected e l) as [H1 H2].
    split; [lia|].
    intros (line & [->|Hin]%elem_of_cons & Hc).
    + specialize (H2 Hc). lia.
    + assert (disconnected_pins (count_line e l)
              < disconnected_pins (foldl count_line (count_line e l) ls))%nat
        by (apply IH2; eauto).
      lia.
Qed.

Lemma load_one_summary (st : load_state) (g : submission_file) (nm : string) :
  error_summary (load_one st g) !! nm
  = if decide (filename g = nm) then Some (details (verification g))
    else error_summary st !! nm.
Proof.
  unfold load_one. destruct (verification g) as [d|d]; simpl.
  - rewrite lookup_insert. by case_decide.
  - destruct (number_username _ _). simpl. rewrite lookup_insert. by case_decide.
Qed.

Lemma load_summary_other (files : list submission_file) (st : load_state) (nm : string) :
  nm ∉ filename <$> files ->
  error_summary (foldl load_one st files) !! nm = error_summary st !! nm.
Proof.
  revert st. induction files as [|g files IH]; intros st Hn; [done|].
  simpl. rewrite fmap_cons, not_elem_of_cons in Hn. destruct Hn as [Hne Hn].
  rewrite IH by done. rewrite load_one_summary. by case_decide.
Qed.

Lemma load_summary (files : list submission_file) (st : load_state) (f : submission_file) :
  NoDup (filename <$> files) -> f ∈ files ->
  error_summary (foldl load_one st files) !! filename f
  = Some (details (verification f)).
Proof.
  revert st. induction files as [|g files IH]; intros st Hnd Hin.
  - by apply elem_of_nil in Hin.
  - rewrite fmap_cons in Hnd. apply NoDup_cons in Hnd as [Hg Hnd].
    simpl. apply elem_of_cons in Hin as [->|Hin].
    + rewrite load_summary_other by done.
      rewrite load_one_summary. by case_decide.
    + by apply IH.
Qed.

Lemma load_one_submissions (st : load_state) (g : submission_file) (p : string * string) :
  p ∈ submissions (load_one st g) ->
  p ∈ submissions st
  \/ (p.1 = filename g /\ exists d, verification g = Kept d).
Proof.
  unfold load_one. destruct (verification g) as [d|d]; simpl; [by left|].
  destruct (number_username _ _) as [counts nm]. simpl.
  rewrite elem_of_app, list_elem_of_singleton. intros [?| ->]; [by left|].
  right. eauto.
Qed.

Lemma load_submissions (files : list submission_file) (st : load_state) (p : string * string) :
  p ∈ submissions (foldl load_one st files) ->
  p ∈ submissions st
  \/ exists g, g ∈ files /\ p.1 = filename g /\ exists d, verification g = Kept d.
Proof.
  revert st. induction files as [|g files IH]; intros st Hp; [by left|].
  simpl in Hp. apply IH in Hp as [Hp|(h & Hh & ?)].
  - apply load_one_submissions in Hp as [Hp|[? ?]]; [by left|].
    right. exists g. split; [by left|done].
  - right. exists h. split; [by right|done].
Qed.

Lemma NoDup_fmap_eq {A B} (f : A -> B) (l : list A) (x y : A) :
  NoDup (f <$> l) -> x ∈ l -> y ∈ l -> f x = f y -> x = y.
Proof.
  induction l as [|z l IH]; [by intros _ ?%elem_of_nil|].
  rewrite fmap_cons, NoDup_cons. intros [Hz Hnd].
  intros [->|Hx]%elem_of_cons [->|Hy]%elem_of_cons Heq; auto.
  - exfalso. apply Hz. rewrite Heq. by apply list_elem_of_fmap_2.
  - exfalso. apply Hz. rewrite <- Heq. by apply list_elem_of_fmap_2.
Qed.

(** C6.  A file of the directory whose first check reports errors, so that
    its verbose report is captured, and whose report has a line with
    "disconnected pin" in any letter case, is not among the returned
    submissions, and its parsed counts, with a positive count of
    disconnected pins, are its entry in the error summary. *)
Theorem disconnected_pin_file_excluded
    (files : list submission_file) (f : submission_file) (num_errors : Z) :
  NoDup (filename <$> files) ->
  f ∈ files ->
  check_quiet f = Some num_errors -> 0 < num_errors ->
  (exists line, line ∈ split newline (check_verbose f)
                /\ contains "disconnected pin" (lower line) = true) ->
  (filename f ∉ (load_submission_designs files).1.*1)
  /\ (load_submission_designs files).2 !! filename f
     = Some (Counts (parse_verification_errors (check_verbose f)))
  /\ (0 < disconnected_pins (parse_verification_errors (check_verbose f)))%nat.
Proof.
  intros Hnd Hin Hq Hpos Hline.
  assert (Hd : (0 < disconnected_pins (parse_verification_errors (check_verbose f)))%nat).
  { unfold parse_verification_errors.
    destruct (parse_disconnected (split newline (check_verbose f)) no_errors) as [_ H].
    specialize (H Hline). simpl in H. lia. }
  assert (Hv : verification f
               = Skipped (Counts (parse_verification_errors (check_verbose f)))).
  { unfold verification. rewrite Hq.
    destruct (0 <? num_errors) eqn:E; [|lia].
    destruct (0 <? disconnected_pins _)%nat eqn:E'; [done|].
    apply Nat.ltb_ge in E'. lia. }
  unfold load_submission_designs. simpl. split_and!; [| |done].
  - intros Hf. apply list_elem_of_fmap in Hf as (p & Hp1 & Hp).
    apply load_submissions in Hp as [Hp|(g & Hg & Hpg & d & Hk)].
    + by apply elem_of_nil in Hp.
    + assert (g = f) as ->.
      { eapply NoDup_fmap_eq; [exact Hnd|done|done|congruence]. }
      congruence.
  - rewrite load_summary by done. by rewrite Hv.
Qed.

(** C6 on a directory of three files, the second with a disconnected pin. *)
Lemma disconnected_pin_file_excluded_witness :
  ("b.gds" ∉ (load_submission_designs mixed_files).1.*1)
  /\ (load_submission_designs mixed_files).2 !! "b.gds"
     = Some (Counts (parse_verification_errors report))
  /\ (0 < disconnected_pins (parse_verification_errors report))%nat.
Proof.
  apply (disconnected_pin_file_excluded mixed_files
           (mkFile "b.gds" (Some 2) report 5000 5000 "bob") 2).
  - vm_compute. repeat constructor; set_solver.
  - set_solver.
  - reflexivity.
  - lia.
  - exists "Error: Disconnected Pin at (10, 20)". split; [|reflexivity].
    vm_compute. set_solver.
Defined.

(** C8 (the code departs from the claim).  With the handles bob, bob and
    bob2 in this order, the second submission is named "bob2" by the
    numbering and the third keeps its own handle "bob2": two submissions
    of one batch carry the same name. *)
Theorem duplicate_handles_collide :
  (load_submission_designs bob_files).1
  = [("a.gds", "bob"); ("b.gds", "bob2"); ("c.gds", "bob2")].
Proof. vm_compute. reflexivity. Qed.

End SubmissionsFacts.

(** ** GitHub handles *)

Section GitHubFacts.

Import GitHub.

(** C9, as the code has it.  While the API answers 403 and the address is
    not cached, every frame the interpreter grants sends one request and
    sleeps 60 seconds before the retry: [depth] requests and [60 * depth]
    seconds, whatever [depth] is, and nothing is cached.  The call that
    finds no frame left raises [RecursionError], the handler of the frame
    below catches it, and the lookup returns [None]. *)
Theorem rate_limit_retries_until_stack_exhausted
    (depth : nat) (net : nat -> http_response) (email : string) (st : api_state) :
  cache st !! email = None ->
  (forall k, net k = rate_limited) ->
  get_github_username_from_api depth net email st
  = (match depth with O => inl RecursionError | S _ => inr None end,
     mkApi (cache st) (requests st + depth) (slept st + 60 * Z.of_nat depth)).
Proof.
  intros Hc Hnet. revert st Hc.
  induction depth as [|d IH]; intros st Hc.
  - simpl. destruct st as [c r s]. simpl. f_equal. f_equal; [lia|lia].
  - cbn [get_github_username_from_api]. rewrite Hc, Hnet.
    unfold rate_limited. cbn [Z.eqb Pos.eqb].
    rewrite IH by done. cbn [cache requests slept].
    assert (E : forall (x : exn + option string) (s : api_state),
               match d with O => inl RecursionError | S _ => inr None end = x ->
               (match x with
                | inl _ => (inr None, s)
                | inr r => (inr r, s)
                end) = (@inr exn (option string) None, s)).
    { intros x s <-. by destruct d. }
    erewrite E by reflexivity.
    f_equal. f_equal; lia.
Qed.

(** C9 with three frames left. *)
Lemma rate_limit_retries_until_stack_exhausted_witness :
  get_github_username_from_api 3 (fun _ => rate_limited) "a@b.c" no_state
  = (inr None, mkApi ∅ 3 180).
Proof.
  apply (rate_limit_retries_until_stack_exhausted 3 (fun _ => rate_limited)
           "a@b.c" no_state); reflexivity.
Defined.

(** C9 as stated fails: under persistent rate limiting the call returns. *)
Lemma rate_limited_call_returns :
  ~ (forall depth r st',
       get_github_username_from_api depth (fun _ => rate_limited) "a@b.c" no_state
       <> (inr r, st')).
Proof. intros H. by apply (H 3%nat None (mkApi ∅ 3 180)). Qed.

(** C10.  [get_github_username] returns a string on every input, and the
    string is 'unknown' when the git query fails, gives no author email,
    or every resolution method fails. *)
Theorem get_github_username_total (depth : nat) (e : env) (st : api_state) :
  (exists username, (get_github_username depth e st).1 = inr username)
  /\ (git_fails e \/ no_author_email e \/ all_methods_fail depth e st ->
      (get_github_username depth e st).1 = inr "unknown").
Proof.
  split.
  - unfold get_github_username.
    destruct (resolve depth e st) as [[x|u] st']; simpl; eauto.
  - unfold get_github_username, resolve, git_fails, no_author_email,
      all_methods_fail.
    destruct (git_email e) as [result|]; [|done].
    destruct (returncode result =? 0) eqn:Erc; simpl.
    2: { intros _. done. }
    destruct (String.eqb (strip (stdout result)) EmptyString) eqn:Eout; simpl.
    { intros _. done. }
    intros [Hrc|[Hout|(Hno & Hfork & Hapi & Hparse)]].
    + apply Z.eqb_eq in Erc. done.
    + apply String.eqb_neq in Eout. done.
    + rewrite Hno, Hfork.
      destruct (get_github_username_from_api depth (net e)
                  (strip (stdout result)) st) as [[x|username] st']; simpl in *.
      * done.
      * rewrite Hapi, Hparse. done.
Qed.

(** C10 on a commit whose author address has no '@', with no fork list and
    a rate-limited API. *)
Lemma get_github_username_total_witness :
  all_methods_fail 3 local_env no_state
  /\ (get_github_username 3 local_env no_state).1 = inr "unknown".
Proof.
  assert (H : all_methods_fail 3 local_env no_state).
  { vm_compute. repeat split. }
  split; [exact H|].
  apply (proj2 (get_github_username_total 3 local_env no_state)).
  right; right. exact H.
Defined.

End GitHubFacts.

(** ** The batch *)

Section PicletsFacts.

Import Piclets.

Lemma process_pairs_later_runs (subs : list (string * string))
    (runs runs' : nat -> run) (i : nat) :
  (forall k, (i <= k)%nat -> runs k = runs' k) ->
  process_pairs subs runs i = process_pairs subs runs' i.
Proof.
  revert i. induction subs as [subs IH] using (induction_ltof1 _ length).
  unfold ltof in IH. intros i H.
  destruct subs as [|s1 [|s2 rest]]; simpl.
  - done.
  - by rewrite H.
  - rewrite H by lia. do 2 f_equal. apply IH; [simpl; lia|].
    intros k Hk. apply H. lia.
Qed.

(** C4, as the code has it.  When the [try] block of a pair raises, the
    error is logged as the last event of the iteration and no "Generated"
    line is printed; the pairs that follow are processed, the same way as
    after a pair that succeeded; and when the exception is raised during
    the assembly, before the first export, no file is written for the
    pair. *)
Theorem failed_pair_logged_batch_continues
    (s1 s2 : string * string) (rest : list (string * string))
    (runs : nat -> run) (i : nat) :
  pair_raises (runs i) ->
  let piclet := pair_name s1.2 s2.2 in
  last (pair_iteration s1.2 s2.2 (runs i)) = Some (Error piclet)
  /\ (Generated piclet ∉ pair_iteration s1.2 s2.2 (runs i))
  /\ process_pairs (s1 :: s2 :: rest) runs i
     = pair_iteration s1.2 s2.2 (runs i) ++ process_pairs rest runs (S i)
  /\ process_pairs rest runs (S i)
     = process_pairs rest (fun k => if decide (k = i) then all_ok else runs k) (S i)
  /\ (raised_in_assembly (runs i) ->
      pair_iteration s1.2 s2.2 (runs i) = [Generating piclet; Error piclet]).
Proof.
  intros Hr piclet. unfold pair_raises, raised_in_assembly in *.
  split_and!.
  - destruct (runs i) as [[] [] [] [] []]; simpl in Hr; try done; reflexivity.
  - destruct (runs i) as [[] [] [] [] []]; simpl in Hr; try done;
      unfold pair_iteration, try_except; simpl; fold piclet;
      rewrite ?elem_of_cons, elem_of_nil; naive_solver.
  - reflexivity.
  - apply process_pairs_later_runs. intros k Hk. case_decide; [lia|done].
  - intros Ha. unfold pair_iteration, pair_body. rewrite Ha. reflexivity.
Qed.

(** C4 on a pair whose assembly raises, followed by a pair that succeeds. *)
Lemma failed_pair_logged_batch_continues_witness :
  let runs := fun k : nat => match k with O => assembly_fails | _ => all_ok end in
  let piclet := pair_name "alice" "bob" in
  last (pair_iteration "alice" "bob" (runs 0%nat)) = Some (Error piclet)
  /\ (Generated piclet ∉ pair_iteration "alice" "bob" (runs 0%nat))
  /\ process_pairs [("a.gds", "alice"); ("b.gds", "bob");
                    ("c.gds", "carol"); ("d.gds", "dave")] runs 0
     = pair_iteration "alice" "bob" (runs 0%nat)
       ++ process_pairs [("c.gds", "carol"); ("d.gds", "dave")] runs 1
  /\ process_pairs [("c.gds", "carol"); ("d.gds", "dave")] runs 1
     = process_pairs [("c.gds", "carol"); ("d.gds", "dave")]
         (fun k => if decide (k = 0%nat) then all_ok else runs k) 1
  /\ (raised_in_assembly (runs 0%nat) ->
      pair_iteration "alice" "bob" (runs 0%nat)
      = [Generating piclet; Error piclet]).
Proof.
  intros runs piclet.
  apply (failed_pair_logged_batch_continues ("a.gds", "alice") ("b.gds", "bob")
           [("c.gds", "carol"); ("d.gds", "dave")] runs 0).
  reflexivity.
Defined.

(** C4 as stated fails: the second export raises after the first has
    written its file, and the file stays in one of the two locations. *)
Lemma failed_pair_leaves_file :
  pair_raises second_export_fails
  /\ generate_piclets four_files
       (fun k => match k with O => second_export_fails | _ => all_ok end)
     = [Generating "PIClet-3x3-alice-bob";
        Exported Tapeout "PIClet-3x3-alice-bob";
        Error "PIClet-3x3-alice-bob";
        Generating "PIClet-3x3-carol-dave";
        Exported Tapeout "PIClet-3x3-carol-dave";
        Exported PicletsDir "PIClet-3x3-carol-dave";
        Generated "PIClet-3x3-carol-dave"].
Proof. split; vm_compute; reflexivity. Qed.

End PicletsFacts.

(** ** Port discovery: what is found *)

Section PortSearchReach.

Import PortSearch Reach Faml.

(** The search is sound and complete on an acyclic hierarchy, one with a
    rank that decreases along every placement: it returns, and it reports a
    port cell exactly when the cell searched, or a cell below it, holds an
    instance of a cell whose name carries the marker. *)
Theorem find_port_sin_finds_reachable_marker
    (L : layout) (rank : nat -> nat) (cell : nat) :
  ranked L rank = true ->
  exists r st,
    search L cell = Some (inr (r, st))
    /\ (is_Some r <-> exists d, reachable L cell d /\ places_marker L d).
Proof.
  intros Hr.
  destruct (search_sorted L cell (ranked_not_recursive L rank Hr))
    as (r & st & E & _ & Hiff).
  by exists r, st.
Qed.

Lemma find_port_sin_finds_reachable_marker_witness :
  exists r st,
    search nested_layout 0 = Some (inr (r, st))
    /\ (is_Some r <-> exists d, reachable nested_layout 0 d
                                /\ places_marker nested_layout d).
Proof.
  apply (find_port_sin_finds_reachable_marker nested_layout (fun c => (2 - c)%nat) 0).
  reflexivity.
Defined.

End PortSearchReach.

(** ** Loading the submissions: the lists and the names *)

Section LoadFacts.

Import Submissions LoadSpec.

Lemma load_one_kept (st : load_state) (f : submission_file) :
  (submissions (load_one st f)).*1
  = (submissions st).*1 ++ (if kept f then [filename f] else []).
Proof.
  unfold load_one, kept. destruct (verification f); simpl.
  - by rewrite app_nil_r.
  - destruct (number_username _ _). simpl. by rewrite fmap_app.
Qed.

Lemma load_kept (files : list submission_file) (st : load_state) :
  (submissions (foldl load_one st files)).*1
  = (submissions st).*1 ++ (filename <$> filter (fun f => kept f = true) files).
Proof.
  revert st. induction files as [|f files IH]; intros st; simpl.
  - by rewrite app_nil_r.
  - rewrite IH, load_one_kept, <- app_assoc. f_equal.
    destruct (kept f) eqn:E.
    + by rewrite filter_cons_True.
    + rewrite filter_cons_False by congruence. done.
Qed.

Lemma load_summary_dom (files : list submission_file) (st : load_state) (nm : string) :
  is_Some (error_summary (foldl load_one st files) !! nm)
  <-> nm ∈ filename <$> files \/ is_Some (error_summary st !! nm).
Proof.
  revert st. induction files as [|f files IH]; intros st; simpl.
  - rewrite elem_of_nil. naive_solver.
  - rewrite IH, load_one_summary. csimpl. rewrite elem_of_cons.
    case_decide; naive_solver.
Qed.

(** The loop sorts the files into two: the submissions returned are the
    files the verification lets through, in directory order, and the error
    summary has an entry for every file of the directory and for nothing
    else, the one its verification produced. *)
Theorem load_submission_designs_partition (files : list submission_file) :
  NoDup (filename <$> files) ->
  (load_submission_designs files).1.*1
  = filename <$> filter (fun f => kept f = true) files
  /\ (forall nm, is_Some ((load_submission_designs files).2 !! nm)
                 <-> nm ∈ filename <$> files)
  /\ (forall f, f ∈ files ->
        (load_submission_designs files).2 !! filename f
        = Some (details (verification f))).
Proof.
  intros Hnd. unfold load_submission_designs. simpl. split_and!.
  - by rewrite load_kept.
  - intros nm. rewrite load_summary_dom. simpl. rewrite lookup_empty.
    split; [intros [?|[? ?]]; done|by left].
  - intros f Hf. by apply load_summary.
Qed.

Lemma load_submission_designs_partition_witness :
  (load_submission_designs mixed_files).1.*1
  = filename <$> filter (fun f => kept f = true) mixed_files
  /\ (forall nm, is_Some ((load_submission_designs mixed_files).2 !! nm)
                 <-> nm ∈ filename <$> mixed_files)
  /\ (forall f, f ∈ mixed_files ->
        (load_submission_designs mixed_files).2 !! filename f
        = Some (details (verification f))).
Proof.
  apply (load_submission_designs_partition mixed_files).
  vm_compute. repeat constructor; set_solver.
Defined.

(** *** The numbering of the names *)

Lemma occurrences_snoc (u v : string) (seen : list string) :
  occurrences u (seen ++ [v])
  = (occurrences u seen + if decide (v = u) then 1 else 0)%nat.
Proof.
  unfold occurrences. rewrite filter_app, length_app. f_equal.
  case_decide.
  - by rewrite filter_cons_True.
  - by rewrite filter_cons_False.
Qed.

Lemma number_username_counted (counts : gmap string nat) (seen : list string)
    (u : string) :
  counted counts seen ->
  (number_username counts u).2 = numbered u (occurrences u seen)
  /\ counted (number_username counts u).1 (seen ++ [u]).
Proof.
  intros Hc. unfold number_username. rewrite (Hc u).
  assert (Hins : forall k : nat,
             S (occurrences u seen) = k ->
             counted (<[u := k]> counts) (seen ++ [u])).
  { intros k Hk v. rewrite occurrences_snoc.
    destruct (decide (u = v)) as [<-|Hne].
    - rewrite lookup_insert_eq.
      replace (occurrences u seen + 1)%nat with k by lia.
      destruct k; [lia|done].
    - rewrite lookup_insert_ne, Nat.add_0_r by done. apply Hc. }
  destruct (occurrences u seen) as [|n] eqn:E; simpl; (split; [done|]).
  - by apply Hins.
  - by apply Hins.
Qed.

Lemma load_names (files : list submission_file) (st : load_state) (seen : list string) :
  counted (username_counts st) seen ->
  (submissions (foldl load_one st files)).*2
  = (submissions st).*2
    ++ names_after seen (github_username <$> filter (fun f => kept f = true) files).
Proof.
  revert st seen. induction files as [|f files IH]; intros st seen Hc; simpl.
  - by rewrite app_nil_r.
  - unfold load_one at 2. unfold kept at 1.
    destruct (verification f) eqn:Ev.
    + rewrite filter_cons_False by (unfold kept; rewrite Ev; done).
      by rewrite (IH _ seen).
    + rewrite filter_cons_True by (unfold kept; rewrite Ev; done).
      destruct (number_username_counted _ _ (github_username f) Hc) as [Hn Hc'].
      destruct (number_username (username_counts st) (github_username f))
        as [counts nm]. simpl in Hn, Hc'.
      rewrite (IH _ (seen ++ [github_username f])) by done.
      simpl. rewrite fmap_app, <- app_assoc. simpl. by rewrite Hn.
Qed.

(** The dictionary of counts implements the naming rule: the submission
    whose handle the loop meets for the first time keeps it, and the one
    that meets it for the [k]-th time, [k >= 2], gets the handle followed by
    [k]. *)
Theorem load_submission_designs_names (files : list submission_file) :
  (load_submission_designs files).1.*2
  = names_after [] (github_username <$> filter (fun f => kept f = true) files).
Proof.
  unfold load_submission_designs. simpl.
  rewrite (load_names files _ []); [done|].
  intros u. simpl. apply lookup_empty.
Qed.

End LoadFacts.

(** ** Names of submissions with one handle, and the parsed counts *)

Section NameFacts.

Import Submissions LoadSpec.

Lemma pretty_N_go_nonempty (x : N) (s : string) :
  s <> EmptyString -> pretty_N_go x s <> EmptyString.
Proof.
  revert s. induction (N.lt_wf_0 x) as [x _ IH]; intros s Hs.
  assert (x = 0 \/ 0 < x)%N as [->|Hx] by lia.
  - by rewrite pretty_N_go_0.
  - rewrite pretty_N_go_step by done. apply IH; [by apply N.div_lt|done].
Qed.

Lemma pretty_nat_nonempty (n : nat) : pretty n <> EmptyString.
Proof.
  unfold pretty, pretty_nat, pretty, pretty_N. case_decide; [done|].
  rewrite pretty_N_go_step by lia. by apply pretty_N_go_nonempty.
Qed.

Lemma append_self (u p : string) : u = u +:+ p -> p = EmptyString.
Proof.
  induction u as [|c u IH]; simpl; [done|]. intros [= H]. by apply IH.
Qed.

(** The rule gives different names to different ranks of one handle. *)
Lemma numbered_inj (u : string) (n m : nat) :
  numbered u n = numbered u m -> n = m.
Proof.
  destruct n as [|n], m as [|m]; simpl; intros H; [done| | |].
  - apply append_self in H. by apply pretty_nat_nonempty in H.
  - symmetry in H. apply append_self in H. by apply pretty_nat_nonempty in H.
  - apply String.app_inj, pretty_nat_inj in H. lia.
Qed.

Lemma names_after_lookup (us seen : list string) (i : nat) (u : string) :
  us !! i = Some u ->
  names_after seen us !! i
  = Some (numbered u (occurrences u (seen ++ take i us))).
Proof.
  revert seen i. induction us as [|v us IH]; intros seen i Hi; [done|].
  destruct i as [|i]; simpl in *.
  - simplify_eq. by rewrite app_nil_r.
  - rewrite (IH _ _ Hi). by rewrite <- app_assoc.
Qed.

Lemma occurrences_take_lt (us : list string) (i j : nat) (u : string) :
  us !! i = Some u -> (i < j)%nat ->
  (occurrences u (take i us) < occurrences u (take j us))%nat.
Proof.
  intros Hi Hij. unfold occurrences.
  assert (Hsplit : take j us = take i us ++ u :: take (j - S i) (drop (S i) us)).
  { rewrite <- (take_drop_middle us i u Hi) at 1.
    rewrite take_app_ge by (rewrite length_take; lia).
    f_equal. rewrite length_take_le by (apply lookup_lt_Some in Hi; lia).
    replace (j - i)%nat with (S (j - S i)) by lia. done. }
  rewrite Hsplit, filter_app, length_app, filter_cons_True by done. simpl. lia.
Qed.

(** Two submissions of one batch that resolve to the same handle carry
    different names. *)
Theorem same_handle_names_differ
    (files : list submission_file) (i j : nat) (fi fj : submission_file) :
  filter (fun f => kept f = true) files !! i = Some fi ->
  filter (fun f => kept f = true) files !! j = Some fj ->
  (i < j)%nat ->
  github_username fi = github_username fj ->
  exists ni nj,
    (load_submission_designs files).1.*2 !! i = Some ni
    /\ (load_submission_designs files).1.*2 !! j = Some nj
    /\ ni <> nj.
Proof.
  intros Hi Hj Hij Heq.
  assert (Hnames : (load_submission_designs files).1.*2
                   = names_after [] (github_username
                                       <$> filter (fun f => kept f = true) files)).
  { unfold load_submission_designs. simpl.
    rewrite (load_names files _ []); [done|].
    intros u. simpl. apply lookup_empty. }
  rewrite Hnames. clear Hnames.
  set (us := github_username <$> filter (fun f => kept f = true) files).
  assert (Hui : us !! i = Some (github_username fi))
    by (unfold us; by rewrite list_lookup_fmap, Hi).
  assert (Huj : us !! j = Some (github_username fi))
    by (unfold us; rewrite list_lookup_fmap, Hj; simpl; by rewrite Heq).
  rewrite (names_after_lookup _ _ _ _ Hui), (names_after_lookup _ _ _ _ Huj).
  simpl. eexists _, _. split_and!; [done|done|].
  intros H%numbered_inj.
  pose proof (occurrences_take_lt us i j _ Hui Hij). lia.
Qed.

Lemma same_handle_names_differ_witness :
  exists ni nj,
    (load_submission_designs bob_files).1.*2 !! 0%nat = Some ni
    /\ (load_submission_designs bob_files).1.*2 !! 1%nat = Some nj
    /\ ni <> nj.
Proof.
  apply (same_handle_names_differ bob_files 0 1
           (clean_file "a.gds" "bob") (clean_file "b.gds" "bob"));
    [reflexivity|reflexivity|lia|reflexivity].
Defined.

(** *** The parsed counts *)

Lemma count_line_disconnected_exact (e : error_counts) (line : string) :
  disconnected_pins (count_line e line)
  = (disconnected_pins e
     + if contains "disconnected pin" (lower line) then 1 else 0)%nat.
Proof.
  unfold count_line.
  destruct (contains "disconnected pin" (lower line)); simpl; [lia|].
  repeat match goal with
         | |- context [if ?b then _ else _] => destruct b; simpl
         end; lia.
Qed.

Lemma foldl_count_line_disconnected (lines : list string) (e : error_counts) :
  disconnected_pins (foldl count_line e lines)
  = (disconnected_pins e
     + length (filter (fun l => contains "disconnected pin" (lower l) = true) lines))%nat.
Proof.
  revert e. induction lines as [|l ls IH]; intros e; simpl; [lia|].
  rewrite IH, count_line_disconnected_exact.
  destruct (contains "disconnected pin" (lower l)) eqn:E.
  - rewrite filter_cons_True by done. simpl. lia.
  - rewrite filter_cons_False by congruence. lia.
Qed.

(** The count that decides whether a file is skipped is exact: it is the
    number of lines of the report that contain "disconnected pin" in any
    letter case. *)
Theorem parse_counts_disconnected_lines (verification_output : string) :
  disconnected_pins (parse_verification_errors verification_output)
  = length (filter (fun l => contains "disconnected pin" (lower l) = true)
                   (split newline verification_output)).
Proof.
  unfold parse_verification_errors. by rewrite foldl_count_line_disconnected.
Qed.

Lemma count_line_total (e : error_counts) (line : string) :
  (total_count (count_line e line) <= S (total_count e))%nat.
Proof.
  unfold count_line, total_count.
  repeat match goal with
         | |- context [if ?b then _ else _] => destruct b; simpl
         end; lia.
Qed.

Lemma foldl_count_line_total (lines : list string) (e : error_counts) :
  (total_count (foldl count_line e lines) <= total_count e + length lines)%nat.
Proof.
  revert e. induction lines as [|l ls IH]; intros e; simpl; [lia|].
  pose proof (IH (count_line e l)). pose proof (count_line_total e l). lia.
Qed.

(** No line of the report is counted twice: the six counters together
    never exceed the number of lines. *)
Theorem parse_counts_each_line_once (verification_output : string) :
  (total_count (parse_verification_errors verification_output)
   <= length (split newline verification_output))%nat.
Proof.
  unfold parse_verification_errors.
  pose proof (foldl_count_line_total (split newline verification_output) no_errors).
  by simpl in *.
Qed.

End NameFacts.

(** ** GitHub handles: the cache, the waiting and the noreply addresses *)

Section ApiFacts.

Import GitHub.

(** An answer of the API other than a rate limit, that the code can read,
    is cached: the next lookup of the address returns the same name, sends
    no request and leaves the state alone, whatever the network would say. *)
Theorem api_answer_is_cached
    (d d' : nat) (net net' : nat -> http_response) (email : string)
    (st : api_state) (status_code total_count : Z) (items : list (option string)) :
  cache st !! email = None ->
  net (requests st) = Response status_code total_count items ->
  status_code <> 403 ->
  (status_code = 200 -> 0 < total_count -> items <> []) ->
  let first := get_github_username_from_api (S d) net email st in
  requests first.2 = S (requests st)
  /\ slept first.2 = slept st
  /\ get_github_username_from_api (S d') net' email first.2 = first.
Proof.
  intros Hc Hnet H403 Hitems. cbn [get_github_username_from_api].
  rewrite Hc, Hnet. cbn zeta.
  destruct (status_code =? 200) eqn:E200.
  - apply Z.eqb_eq in E200. destruct (0 <? total_count) eqn:Etc.
    + destruct items as [|username rest]; [exfalso; apply Hitems; [done|lia|done]|].
      simpl. rewrite lookup_insert_eq. done.
    + simpl. rewrite lookup_insert_eq. done.
  - destruct (status_code =? 403) eqn:E403; [apply Z.eqb_eq in E403; done|].
    simpl. rewrite lookup_insert_eq. done.
Qed.

Lemma api_answer_is_cached_witness :
  let net := fun _ : nat => Response 200 1 [Some "octocat"] in
  let first := get_github_username_from_api 1 net "o@example.org" no_state in
  requests first.2 = S (requests no_state)
  /\ slept first.2 = slept no_state
  /\ get_github_username_from_api 1 (fun _ => Raises) "o@example.org" first.2 = first.
Proof.
  intros net.
  apply (api_answer_is_cached 0 0 net (fun _ => Raises) "o@example.org" no_state
           200 1 [Some "octocat"]); [reflexivity|reflexivity|lia|done].
Defined.

(** Rate-limited answers only delay the lookup: [n] of them cost [n]
    requests, [n] frames and [60 * n] seconds, and the lookup goes on as if
    started then. *)
Lemma api_rate_limited_prefix (n : nat) :
  forall (depth : nat) (net : nat -> http_response) (email : string) (st : api_state),
    cache st !! email = None ->
    (forall k, (k < n)%nat -> net (requests st + k)%nat = rate_limited) ->
    get_github_username_from_api (S (n + depth)) net email st
    = match get_github_username_from_api (S depth) net email
              (mkApi (cache st) (requests st + n) (slept st + 60 * Z.of_nat n)) with
      | (inl _, st') => (inr None, st')
      | other => other
      end.
Proof.
  induction n as [|n IH]; intros depth net email st Hc Hnet.
  - replace (mkApi (cache st) (requests st + 0) (slept st + 60 * Z.of_nat 0)) with st
      by (destruct st; simpl; f_equal; lia).
    simpl (0 + depth)%nat.
    cbn [get_github_username_from_api]. rewrite Hc.
    destruct (net (requests st)) as [|sc tc items]; [done|].
    destruct (sc =? 200); [by destruct (0 <? tc), items|].
    destruct (sc =? 403); [|done].
    by destruct (get_github_username_from_api depth net email _) as [[?|?] ?].
  - replace (S (S n + depth)) with (S (S (n + depth))) by lia.
    remember (S (n + depth)) as d' eqn:Hd'.
    match goal with |- _ = ?r => remember r as rhs eqn:Hrhs end.
    cbn [get_github_username_from_api]. rewrite Hc.
    rewrite <- (Nat.add_0_r (requests st)) at 1. rewrite Hnet by lia.
    unfold rate_limited. cbn [Z.eqb Pos.eqb]. subst d'.
    rewrite IH; [| done |].
    + cbn [cache requests slept]. subst rhs.
      replace (S (requests st) + n)%nat with (requests st + S n)%nat by lia.
      replace (slept st + 60 + 60 * Z.of_nat n) with (slept st + 60 * Z.of_nat (S n))
        by lia.
      destruct (get_github_username_from_api (S depth) net email _) as [[?|?] ?];
        reflexivity.
    + intros k Hk. cbn [requests].
      replace (S (requests st) + k)%nat with (requests st + S k)%nat by lia.
      apply Hnet. lia.
Qed.

(** After [n] rate-limited answers and then a user, the lookup returns the
    user's login, caches it, and has slept exactly [60 * n] seconds: one
    fixed wait per refusal. *)
Theorem api_waits_sixty_seconds_per_refusal
    (n depth : nat) (net : nat -> http_response) (email : string)
    (st : api_state) (total_count : Z) (username : option string)
    (items : list (option string)) :
  cache st !! email = None ->
  (forall k, (k < n)%nat -> net (requests st + k)%nat = rate_limited) ->
  net (requests st + n)%nat = Response 200 total_count (username :: items) ->
  0 < total_count ->
  get_github_username_from_api (S (n + depth)) net email st
  = (inr username,
     mkApi (<[email := username]> (cache st)) (S (requests st + n))
           (slept st + 60 * Z.of_nat n)).
Proof.
  intros Hc Hnet Hans Htc. rewrite api_rate_limited_prefix by done.
  cbn [get_github_username_from_api cache requests slept]. rewrite Hc, Hans.
  cbn [Z.eqb Pos.eqb]. destruct (0 <? total_count) eqn:E; [done|lia].
Qed.

Lemma api_waits_sixty_seconds_per_refusal_witness :
  get_github_username_from_api 3
    (fun k => match k with
              | 0%nat | 1%nat => rate_limited
              | _ => Response 200 1 [Some "octocat"]
              end)
    "o@example.org" no_state
  = (inr (Some "octocat"),
     mkApi (<["o@example.org" := Some "octocat"]> ∅) 3 120).
Proof.
  apply (api_waits_sixty_seconds_per_refusal 2 0 _ "o@example.org" no_state 1
           (Some "octocat") []).
  - reflexivity.
  - intros k Hk. destruct k as [|[|k]]; [reflexivity|reflexivity|lia].
  - reflexivity.
  - lia.
Defined.

End ApiFacts.

(** ** GitHub handles: noreply addresses *)

Section NoreplyFacts.

Import GitHub.

Lemma append_assoc (u v w : string) : (u +:+ v) +:+ w = u +:+ (v +:+ w).
Proof.
  induction u as [|c u IH]; [reflexivity|].
  change (String c ((u +:+ v) +:+ w) = String c (u +:+ (v +:+ w))).
  by f_equal.
Qed.

Lemma prefix_append (needle s : string) : String.prefix needle (needle +:+ s) = true.
Proof.
  induction needle as [|c needle IH]; [by destruct s|].
  change (String c needle +:+ s) with (String c (needle +:+ s)).
  cbn [String.prefix]. by destruct (ascii_dec c c).
Qed.

Lemma contains_here (needle s : string) : contains needle (needle +:+ s) = true.
Proof.
  assert (Hprefix : forall hay, String.prefix needle hay = true ->
                                contains needle hay = true).
  { intros hay H. destruct hay; cbn [contains]; by rewrite H. }
  apply Hprefix, prefix_append.
Qed.

Lemma contains_append_r (needle p s : string) :
  contains needle s = true -> contains needle (p +:+ s) = true.
Proof.
  intros H. induction p as [|c p IH]; [exact H|].
  change (String c p +:+ s) with (String c (p +:+ s)).
  cbn [contains]. rewrite IH. apply orb_true_r.
Qed.

Lemma lacks_cons (c x : ascii) (w : string) :
  contains (String c EmptyString) (String x w) = false ->
  x <> c /\ contains (String c EmptyString) w = false.
Proof.
  simpl. destruct (ascii_dec c x) as [->|Hne]; simpl.
  - by destruct w.
  - intros H. split; [congruence|done].
Qed.

Lemma lacks_append (c : ascii) (u v : string) :
  contains (String c EmptyString) u = false ->
  contains (String c EmptyString) v = false ->
  contains (String c EmptyString) (u +:+ v) = false.
Proof.
  intros Hu Hv. induction u as [|x u IH]; [done|].
  apply lacks_cons in Hu as [Hx Hu]. specialize (IH Hu).
  change (String x u +:+ v) with (String x (u +:+ v)).
  cbn [contains String.prefix]. destruct (ascii_dec c x); [congruence|].
  by rewrite IH.
Qed.

Lemma split_append (sep : ascii) (w rest : string) :
  contains (String sep EmptyString) w = false ->
  split sep (w +:+ String sep rest) = w :: split sep rest.
Proof.
  intros Hw. induction w as [|x w IH].
  - change (EmptyString +:+ String sep rest) with (String sep rest).
    cbn [split]. by rewrite decide_True.
  - apply lacks_cons in Hw as [Hx Hw].
    change (String x w +:+ String sep rest) with (String x (w +:+ String sep rest)).
    cbn [split]. rewrite decide_False by done. by rewrite IH.
Qed.

Lemma split_lacks (sep : ascii) (w : string) :
  contains (String sep EmptyString) w = false -> split sep w = [w].
Proof.
  intros Hw. induction w as [|x w IH]; [done|]. simpl.
  apply lacks_cons in Hw as [Hx Hw]. rewrite decide_False by done.
  by rewrite IH.
Qed.

(** A commit made with a GitHub noreply address [id+user@users.noreply.
    github.com] resolves to [user], without a look at the forks and without
    a request to the API. *)
Theorem noreply_address_gives_username
    (depth : nat) (e : env) (st : api_state) (out uid user : string) :
  git_email e = Some (mkRun 0 out) ->
  strip out = uid +:+ "+" +:+ user +:+ "@users.noreply.github.com" ->
  contains "@" uid = false -> contains "+" uid = false ->
  contains "@" user = false -> contains "+" user = false ->
  get_github_username depth e st = (inr user, st).
Proof.
  intros Hgit Hstrip Huid_at Huid_plus Huser_at Huser_plus.
  set (userid := uid +:+ "+" +:+ user).
  assert (Hemail : strip out = userid +:+ String at_sign "users.noreply.github.com").
  { rewrite Hstrip. unfold userid. by rewrite !append_assoc. }
  assert (Hnoreply : noreply_username (strip out) = Some (inr user)).
  { unfold noreply_username. rewrite Hemail.
    rewrite (contains_append_r "@" userid) by apply (contains_here "@").
    rewrite split_append; last first.
    { apply lacks_append; [done|]. apply (lacks_append _ "+"); done. }
    cbn [head default from_option Datatypes.id].
    assert (Hplus : contains "+" userid = true)
      by (unfold userid; apply contains_append_r, (contains_here "+")).
    rewrite Hplus.
    rewrite (contains_append_r "@users.noreply.github.com" userid)
      by apply (contains_here "@users.noreply.github.com" EmptyString).
    cbn [andb]. unfold userid.
    change ("+" +:+ user) with (String plus_sign user).
    rewrite split_append, split_lacks by done. done. }
  unfold get_github_username, resolve. rewrite Hgit. cbn [returncode stdout].
  rewrite Hnoreply.
  replace (String.eqb (strip out) EmptyString) with false; [done|].
  rewrite Hemail. unfold userid. by destruct uid.
Qed.

Lemma noreply_address_gives_username_witness :
  get_github_username 0
    (mkEnv (Some (mkRun 0 " 12345+octo@users.noreply.github.com ")) None None
           (fun _ => Raises))
    no_state
  = (inr "octo", no_state).
Proof.
  apply (noreply_address_gives_username 0 _ no_state
           " 12345+octo@users.noreply.github.com " "12345" "octo");
    reflexivity.
Defined.

End NoreplyFacts.

(** ** The batch: attempts, reports and the tapeout directory *)

Section BatchFacts.

Import Piclets Trace.

Lemma count_app (kind : event -> bool) (t u : list event) :
  count kind (t ++ u) = (count kind t + count kind u)%nat.
Proof. unfold count. by rewrite filter_app, length_app. Qed.

Lemma pair_iteration_counts (u1 u2 : string) (r : run) :
  count is_generating (pair_iteration u1 u2 r) = 1%nat
  /\ (count is_generated (pair_iteration u1 u2 r)
      + count is_error (pair_iteration u1 u2 r) = 1)%nat.
Proof. by destruct r as [[] [] [] [] []]. Qed.

Lemma single_iteration_counts (u : string) (r : run) :
  count is_generating (single_iteration u r) = 1%nat
  /\ (count is_generated (single_iteration u r)
      + count is_error (single_iteration u r) = 1)%nat.
Proof. by destruct r as [[] [] [] [] []]. Qed.

(** Whatever raises, the batch attempts every PIClet: for [n] submissions it
    announces [ceil(n/2)] of them, and each attempt ends either with its
    "Generated" line or with its logged error, never with both or none. *)
Theorem batch_attempts_every_piclet
    (submissions : list (string * string)) (runs : nat -> run) (i : nat) :
  count is_generating (process_pairs submissions runs i)
  = iterations (length submissions)
  /\ (count is_generated (process_pairs submissions runs i)
      + count is_error (process_pairs submissions runs i)
      = iterations (length submissions))%nat.
Proof.
  revert i.
  induction submissions as [submissions IH] using (induction_ltof1 _ length).
  unfold ltof in IH. intros i.
  destruct submissions as [|s1 [|s2 rest]].
  - done.
  - apply single_iteration_counts.
  - cbn [process_pairs]. rewrite !count_app.
    destruct (pair_iteration_counts s1.2 s2.2 (runs i)) as [-> Hp].
    destruct (IH rest ltac:(simpl; lia) (S i)) as [-> Hr].
    change (iterations (length (s1 :: s2 :: rest)))
      with (S (iterations (length rest))).
    split; [done|lia].
Qed.

(** Without the tapeout directory no pair leaves a file: the only file a
    batch can write is the one of a last, unpaired submission, in the
    piclets directory. *)
Theorem no_tapeout_directory_no_pair_file
    (submissions : list (string * string)) (runs : nat -> run) (i : nat)
    (loc : location) (file : string) :
  (forall k, tapeout_exists (runs k) = false) ->
  Exported loc file ∈ process_pairs submissions runs i ->
  loc = PicletsDir
  /\ Nat.Odd (length submissions)
  /\ exists s, last submissions = Some s /\ file = single_name s.2.
Proof.
  intros Hno. revert i.
  induction submissions as [submissions IH] using (induction_ltof1 _ length).
  unfold ltof in IH. intros i Hin.
  destruct submissions as [|s1 [|s2 rest]].
  - by apply elem_of_nil in Hin.
  - cbn [process_pairs] in Hin. specialize (Hno i).
    destruct (runs i) as [[] te [] [] []]; simpl in Hno; subst te;
      vm_compute in Hin;
      repeat (apply elem_of_cons in Hin as [Hin|Hin]; [try discriminate|]);
      try (by apply elem_of_nil in Hin);
      injection Hin as -> ->;
      (split_and!; [done|by exists 0%nat|by exists s1]).
  - cbn [process_pairs] in Hin. apply elem_of_app in Hin as [Hin|Hin].
    + exfalso. specialize (Hno i).
      destruct (runs i) as [[] te [] [] []]; simpl in Hno; subst te;
        vm_compute in Hin;
        repeat (apply elem_of_cons in Hin as [Hin|Hin]; [discriminate|]);
        by apply elem_of_nil in Hin.
    + destruct (IH rest ltac:(simpl; lia) (S i) Hin) as (-> & [k Hk] & s & Hs & ->).
      split_and!; [done| |].
      * exists (S k). simpl. lia.
      * exists s. split; [|done]. by destruct rest.
Qed.

Lemma no_tapeout_directory_no_pair_file_witness :
  PicletsDir = PicletsDir
  /\ Nat.Odd (length [("a.gds", "alice"); ("b.gds", "bob"); ("c.gds", "carol")])
  /\ exists s, last [("a.gds", "alice"); ("b.gds", "bob"); ("c.gds", "carol")] = Some s
               /\ "PIClet-3x3-carol" = single_name s.2.
Proof.
  apply (no_tapeout_directory_no_pair_file
           [("a.gds", "alice"); ("b.gds", "bob"); ("c.gds", "carol")]
           (fun _ => no_tapeout) 0 PicletsDir "PIClet-3x3-carol").
  - reflexivity.
  - vm_compute. set_solver.
Defined.

End BatchFacts.

(** ** Re-parenting: the errors *)

Section MoveUpErrors.

Import MoveUp Hierarchy.

Lemma inst_refs_valid (L : layout) (p : nat) (r : InstRef) (i : Inst) :
  (r, i) ∈ inst_refs L p -> get_inst L r = Some i.
Proof.
  unfold inst_refs, cell_insts, get_inst.
  intros (k & x & [= -> ->] & Hk)%elem_of_lookup_imap. simpl.
  destruct (L !! p) as [c|]; [done|]. by rewrite lookup_nil in Hk.
Qed.

Lemma inst_refs_complete (L : layout) (r : InstRef) (i : Inst) :
  get_inst L r = Some i -> (r, i) ∈ inst_refs L (parent_cell r).
Proof.
  unfold inst_refs, cell_insts, get_inst. destruct r as [p k]. simpl.
  destruct (L !! p) as [c|] eqn:E; [|done]. simpl. intros Hk.
  apply elem_of_lookup_imap. by exists k, i.
Qed.

(** A placed instance is among the parent instances of its own cell: the
    list the function tests for emptiness is never empty. *)
Lemma each_parent_inst_self (L : layout) (r : InstRef) (ci : Inst) :
  get_inst L r = Some ci -> r ∈ each_parent_inst L (cell_index ci).
Proof.
  intros H. unfold each_parent_inst.
  apply list_elem_of_In, in_flat_map. exists (parent_cell r). split.
  - apply in_seq. unfold get_inst in H.
    destruct (L !! parent_cell r) eqn:E; [|done].
    apply lookup_lt_Some in E. lia.
  - apply list_elem_of_In, list_elem_of_omap. exists (r, ci).
    split; [by apply inst_refs_complete|]. simpl. by rewrite decide_True.
Qed.

Lemma instances_rec_valid (L : layout) (target : string) :
  forall fuel c r, r ∈ instances_rec fuel L c target -> is_Some (get_inst L r).
Proof.
  induction fuel as [|f IH]; intros c r Hr; [by apply elem_of_nil in Hr|].
  simpl in Hr. apply list_elem_of_In, in_flat_map in Hr as ([r' i] & Hri & Hr).
  apply list_elem_of_In in Hri, Hr. simpl in Hr.
  apply elem_of_app in Hr as [Hr|Hr].
  - case_decide; [|by apply elem_of_nil in Hr].
    apply list_elem_of_singleton in Hr as ->.
    apply inst_refs_valid in Hri. by rewrite Hri.
  - by eapply IH.
Qed.

Lemma level_step_cases (L : layout) (top_cell : nat) (st : state) :
  well_placed L st ->
  match level_step L top_cell st with
  | inl ValueError => False
  | inl AttributeError => ambiguous L (current_inst st)
  | inl UnboundLocalError => True
  | inr st' => well_placed L st'
  end.
Proof.
  intros [[ci Hci] Hinst1]. unfold level_step. rewrite Hci.
  pose proof (each_parent_inst_self L _ _ Hci) as Hself.
  destruct (each_parent_inst L (cell_index ci)) as [|r1 [|r2 rest]] eqn:Ep.
  - by apply elem_of_nil in Hself.
  - destruct (last (instances_rec _ _ _ _)) as [r|] eqn:El.
    + assert (Hr : is_Some (get_inst L r)).
      { eapply instances_rec_valid. apply last_Some_elem_of. exact El. }
      split; simpl; [done|]. by intros ? [= <-].
    + destruct (instance1 st) as [r|] eqn:E1; [|done].
      split; simpl; [by apply Hinst1|]. intros ? [= <-]. by apply Hinst1.
  - exists ci. split; [done|]. rewrite Ep. simpl. lia.
Qed.

Lemma level_step_ambiguous (L : layout) (top_cell : nat) (st : state) :
  ambiguous L (current_inst st) -> level_step L top_cell st = inl AttributeError.
Proof.
  intros (ci & Hci & Hlen). unfold level_step. rewrite Hci.
  by destruct (each_parent_inst L (cell_index ci)) as [|r1 [|r2 rest]];
    simpl in Hlen; try lia.
Qed.

Lemma levels_app (L : layout) (top_cell : nat) :
  forall m k st,
    levels (m + k) L top_cell st
    = match levels m L top_cell st with
      | inl e => inl e
      | inr st' => levels k L top_cell st'
      end.
Proof.
  induction m as [|m IH]; intros k st; simpl; [done|].
  destruct (level_step L top_cell st); [done|]. apply IH.
Qed.

(** What a walk of [n] levels ends with, started on instances of the
    layout. *)
Lemma levels_cases (L : layout) (top_cell : nat) :
  forall n st,
    well_placed L st ->
    match levels n L top_cell st with
    | inl ValueError => False
    | inl AttributeError =>
        exists k st', (k < n)%nat /\ levels k L top_cell st = inr st'
                      /\ ambiguous L (current_inst st')
    | inl UnboundLocalError => True
    | inr st' => well_placed L st'
    end.
Proof.
  induction n as [|n IH]; intros st Hst; simpl; [done|].
  pose proof (level_step_cases L top_cell st Hst) as Hs.
  destruct (level_step L top_cell st) as [[]|st'] eqn:E; [done| |done|].
  - exists 0%nat, st. split_and!; [lia|done|done].
  - specialize (IH st' Hs).
    destruct (levels n L top_cell st') as [[]|st'']; [done| |done|done].
    destruct IH as (k & st2 & Hk & Hl & Ha).
    exists (S k), st2. split_and!; [lia| |done]. simpl. by rewrite E.
Qed.

(** When the instance to move exists the function never raises the
    [ValueError] its docstring names.  The walk cannot find a cell without
    parent instances, as the instance it stands on is one of them; and
    where it stands on an instance whose cell is placed more than once,
    within [num_levels + 1] levels, it leaves with [AttributeError],
    exactly in that case. *)
Theorem ambiguous_path_raises_attribute_error
    (L : layout) (top_cell : nat) (instance : InstRef) (num_levels : nat) :
  is_Some (get_inst L instance) ->
  move_instance_up_hierarchy L top_cell instance num_levels <> inl ValueError
  /\ (move_instance_up_hierarchy L top_cell instance num_levels
      = inl AttributeError
      <-> exists level st,
            (level <= num_levels)%nat
            /\ levels level L top_cell (mkState trans_id instance None) = inr st
            /\ ambiguous L (current_inst st)).
Proof.
  intros Hi.
  assert (Hw : well_placed L (mkState trans_id instance None))
    by (split; simpl; [done|by intros ? [=]]).
  pose proof (levels_cases L top_cell (S num_levels) _ Hw) as Hl.
  unfold move_instance_up_hierarchy. split.
  - destruct (levels (S num_levels) _ _ _) as [[]|st'] eqn:E; [done..|].
    destruct Hl as [[ci Hci] _]. by rewrite Hci.
  - split.
    + destruct (levels (S num_levels) _ _ _) as [[]|st'] eqn:E; [done| |done|].
      * intros _. destruct Hl as (k & st2 & Hk & Hl & Ha).
        exists k, st2. split_and!; [lia|done|done].
      * destruct Hl as [[ci Hci] _]. by rewrite Hci.
    + intros (k & st & Hk & Hlev & Ha).
      replace (S num_levels) with (k + S (num_levels - k))%nat by lia.
      rewrite levels_app, Hlev. cbn [levels].
      by rewrite level_step_ambiguous.
Qed.

Lemma ambiguous_path_raises_attribute_error_witness :
  move_instance_up_hierarchy twice_layout 0 (mkRef 1 0) 1 <> inl ValueError
  /\ (move_instance_up_hierarchy twice_layout 0 (mkRef 1 0) 1 = inl AttributeError
      <-> exists level st,
            (level <= 1)%nat
            /\ levels level twice_layout 0 (mkState trans_id (mkRef 1 0) None)
               = inr st
            /\ ambiguous twice_layout (current_inst st)).
Proof.
  apply (ambiguous_path_raises_attribute_error twice_layout 0 (mkRef 1 0) 1).
  by eexists.
Defined.

Lemma instances_rec_unplaced (L : layout) (nm : string) :
  unplaced L nm = true ->
  forall fuel c, instances_rec fuel L c nm = [].
Proof.
  intros Hu. induction fuel as [|f IH]; intros c; [done|]. simpl.
  assert (Hc : forall ri, ri ∈ inst_refs L c ->
                 cell_name L (cell_index ri.2) <> nm).
  { intros [r i] Hri. simpl. unfold inst_refs, cell_insts in Hri.
    apply elem_of_lookup_imap in Hri as (k & x & [= -> ->] & Hk).
    destruct (L !! c) as [cc|] eqn:E; [|by rewrite lookup_nil in Hk].
    unfold unplaced in Hu. rewrite forallb_forall in Hu.
    specialize (Hu cc). rewrite forallb_forall in Hu.
    assert (Hneg : negb (String.eqb (cell_name L (cell_index x)) nm) = true).
    { apply Hu; apply list_elem_of_In; by eapply list_elem_of_lookup_2. }
    apply negb_true_iff, String.eqb_neq in Hneg. done. }
  induction (inst_refs L c) as [|ri l IHl]; [done|]. simpl.
  rewrite decide_False by (apply Hc; by left). rewrite IH. simpl.
  apply IHl. intros ri' Hri'. apply Hc. by right.
Qed.

(** Asked to move an instance that sits directly in a top cell, a cell
    placed nowhere, the function does not raise the [ValueError] of its
    docstring: it reads [instance1] before any instance was bound to it and
    leaves with [UnboundLocalError]. *)
Theorem instance_in_top_cell_unbound
    (L : layout) (top_cell : nat) (instance : InstRef) (ci : Inst)
    (num_levels : nat) :
  get_inst L instance = Some ci ->
  each_parent_inst L (cell_index ci) = [instance] ->
  unplaced L (cell_name L (parent_cell instance)) = true ->
  move_instance_up_hierarchy L top_cell instance num_levels
  = inl UnboundLocalError.
Proof.
  intros Hci Hp Hu. unfold move_instance_up_hierarchy.
  cbn [levels]. unfold level_step at 1. cbn [current_inst]. rewrite Hci, Hp.
  rewrite instances_rec_unplaced by done. reflexivity.
Qed.

Lemma instance_in_top_cell_unbound_witness :
  move_instance_up_hierarchy ex_layout 0 (mkRef 0 0) 1 = inl UnboundLocalError.
Proof.
  apply (instance_in_top_cell_unbound ex_layout 0 (mkRef 0 0)
           (mkInst 1 trans_id None) 1); reflexivity.
Defined.

End MoveUpErrors.

(** ** Array flattening: what a run leaves alone *)

Section ExplodeFrame.

Import Explode.

Lemma flat_map_explode_index (il : list Inst) (j : Inst) :
  j ∈ flat_map explode il -> exists i, i ∈ il /\ cell_index j = cell_index i.
Proof.
  induction il as [|i il IH]; simpl; [by intros ?%elem_of_nil|].
  rewrite elem_of_app. intros [Hj|Hj].
  - exists i. split; [by left|].
    pose proof (explode_single i) as Hs. rewrite Forall_forall in Hs.
    by apply Hs.
  - destruct (IH Hj) as (k & ? & ?). exists k. split; [by right|done].
Qed.

Lemma explode_cell_name (L : layout) (c d : nat) :
  cell_name (explode_cell L c).1 d = cell_name L d.
Proof.
  unfold explode_cell, cell_name. destruct (L !! c) as [x|] eqn:E; [|done].
  simpl. destruct (decide (c = d)) as [->|Hne].
  - rewrite list_lookup_insert_eq by (by eapply lookup_lt_Some). by rewrite E.
  - by rewrite list_lookup_insert_ne.
Qed.

Lemma explode_regular_arrays_names :
  forall fuel L cell V res,
    explode_regular_arrays fuel L cell V = Some res ->
    forall d, cell_name res.1.1 d = cell_name L d.
Proof.
  induction fuel as [|f IH]; intros L cell V res H d; [done|].
  simpl in H. case_decide; [by simplify_eq|].
  pose proof (explode_cell_name L cell d) as Hc.
  destruct (explode_cell L cell) as [L1 n1]. simpl in Hc. rewrite <- Hc.
  revert H. generalize (cell_insts L1 cell) ({[cell]} ∪ V) n1. clear Hc.
  revert L1. intros L1 il. revert L1.
  induction il as [|i il IHl]; intros L1 V1 n H; simpl in H.
  - by simplify_eq.
  - destruct (is_regular_array i); [by eapply IHl|].
    destruct (explode_regular_arrays f L1 (cell_index i) V1)
      as [[[L2 V2] k]|] eqn:E; [|done].
    rewrite (IHl _ _ _ H). apply (IH _ _ _ _ E).
Qed.

(** A run keeps the cells of the layout, and their names; it leaves alone
    every cell it does not enter and every cell that was visited before;
    what it changes is the instance list of the cells it enters, without
    adding a reference to a cell that was not placed there before; and the
    count it returns is at most the number of arrays the layout held. *)
Theorem explode_regular_arrays_frame
    (fuel : nat) (L : layout) (cell : nat) (visited_cells : gset nat)
    (L' : layout) (visited' : gset nat) (exploded_count : nat) :
  explode_regular_arrays fuel L cell visited_cells
    = Some (L', visited', exploded_count) ->
  length L' = length L
  /\ (forall d, cell_name L' d = cell_name L d)
  /\ (forall d, d ∈ visited_cells \/ d ∉ visited' -> L' !! d = L !! d)
  /\ (forall d j, j ∈ cell_insts L' d ->
        exists i, i ∈ cell_insts L d /\ cell_index j = cell_index i)
  /\ (exploded_count <= total_arrays L)%nat.
Proof.
  intros H.
  pose proof (explode_regular_arrays_names _ _ _ _ _ H) as Hnames.
  apply explode_regular_arrays_spec in H as ((Hs & Hlen & Hframe & Hnew) & _ & _ & Hn).
  simpl in *. split_and!; try done.
  - intros d j Hj.
    destruct (decide (d ∈ visited_cells \/ d ∉ visited')) as [Hd|Hd].
    + unfold cell_insts in Hj. rewrite (Hframe d Hd) in Hj. by exists j.
    + rewrite Hnew in Hj.
      * by apply flat_map_explode_index.
      * destruct (decide (d ∈ visited')); [done|]. exfalso. apply Hd. by right.
      * intros ?. apply Hd. by left.
  - lia.
Qed.

Lemma explode_regular_arrays_frame_witness :
  exists L',
    length L' = length arrayed_layout
    /\ (forall d, cell_name L' d = cell_name arrayed_layout d)
    /\ (forall d, d ∈ ({[2%nat]} : gset nat) \/ d ∉ ({[0%nat; 1%nat; 2%nat]} : gset nat) ->
          L' !! d = arrayed_layout !! d)
    /\ (forall d j, j ∈ cell_insts L' d ->
          exists i, i ∈ cell_insts arrayed_layout d /\ cell_index j = cell_index i)
    /\ (1 <= total_arrays arrayed_layout)%nat.
Proof.
  eexists.
  apply (explode_regular_arrays_frame 3 arrayed_layout 0 {[2%nat]} _
           {[0%nat; 1%nat; 2%nat]} 1).
  vm_compute. reflexivity.
Defined.

End ExplodeFrame.

(** ** The reference copy: displacing the copy *)

Section FamlShift.

Import Faml.

(** The positions follow a displacement of the copy: placing the copy
    displaced by (dx, dy), without rotation, adds [dx] to every position
    reported, in the same order, on any hierarchy and for any recursion
    budget. *)
Theorem faml_positions_follow_displacement
    (fuel : nat) (L : layout) (nm : string) (cell : nat) (t : Trans) (dx dy : Z) :
  find_faml_positions fuel L nm cell (trans_mul (trans_disp dx dy) t)
  = fmap (M := list) (Z.add dx) <$> find_faml_positions fuel L nm cell t.
Proof. apply find_faml_positions_shift. Qed.

End FamlShift.

(** ** The FaML substitution *)

Section SubstitutionFacts.

Import Substitution.

Lemma is_gc_names (L L' : layout) (i : Inst) :
  (forall d, cell_name L' d = cell_name L d) -> is_gc L' i = is_gc L i.
Proof. intros H. unfold is_gc. by rewrite H. Qed.

Lemma filter_is_gc_names (L L' : layout) (b : bool) (il : list Inst) :
  (forall d, cell_name L' d = cell_name L d) ->
  filter (fun i => is_gc L' i = b) il = filter (fun i => is_gc L i = b) il.
Proof.
  intros H. apply list_filter_iff. intros i. by rewrite (is_gc_names L L' i H).
Qed.

Lemma replaced_names (L L' : layout) (fc : faml) (il : list Inst) :
  (forall d, cell_name L' d = cell_name L d) ->
  replaced L' fc il = replaced L fc il.
Proof. intros H. unfold replaced. by rewrite !(filter_is_gc_names L L'). Qed.

Lemma replaced_no_gc (L : layout) (fc : faml) (il : list Inst) (i : Inst) :
  contains "GC" (cell_name L (faml_index fc)) = false ->
  i ∈ replaced L fc il -> is_gc L i = false.
Proof.
  intros Hf. unfold replaced. rewrite elem_of_app. intros [Hi|Hi].
  - by apply list_elem_of_filter in Hi as [? _].
  - apply list_elem_of_fmap in Hi as (j & -> & _). done.
Qed.

Lemma filter_none {A} (f : A -> bool) (l : list A) :
  (forall i, i ∈ l -> f i = false) -> filter (fun i => f i = true) l = [].
Proof.
  induction l as [|i l IH]; intros H; [done|].
  rewrite filter_cons_False.
  - apply IH. intros j Hj. apply H. by right.
  - rewrite H; [done|by left].
Qed.

Lemma foldr_insert_sum (f : Cell -> nat) (L : layout) (c : nat) (x y : Cell) :
  L !! c = Some x ->
  (foldr (fun c n => f c + n) 0 (<[c := y]> L) + f x
   = foldr (fun c n => f c + n) 0 L + f y)%nat.
Proof.
  revert c. induction L as [|z L IH]; intros c E; [done|].
  destruct c as [|c]; simpl.
  - injection E as ->.
    generalize (foldr (fun c n => f c + n) 0 L)%nat, (f x), (f y). intros; lia.
  - rewrite <- !Nat.add_assoc. f_equal. exact (IH c E).
Qed.

Lemma total_gc_names (L L' : layout) :
  (forall d, cell_name L' d = cell_name L d) ->
  total_gc L'
  = foldr (fun c n => (length (filter (fun i => is_gc L i = true) (insts c)) + n)%nat)
          0%nat L'.
Proof.
  intros H. unfold total_gc.
  apply foldr_ext; [|done..]. intros c n.
  by rewrite (filter_is_gc_names L L').
Qed.

Lemma replace_in_cell_spec (L : layout) (fc : faml) (c : nat)
    (L1 : layout) (ps : list Vector) :
  contains "GC" (cell_name L (faml_index fc)) = false ->
  replace_in_cell L (Some fc) c = (L1, ps) ->
  length L1 = length L
  /\ (forall d, cell_name L1 d = cell_name L d)
  /\ (forall d, d <> c -> L1 !! d = L !! d)
  /\ cell_insts L1 c = replaced L fc (cell_insts L c)
  /\ (length ps + total_gc L1 = total_gc L)%nat.
Proof.
  intros Hf. unfold replace_in_cell, cell_insts, cell_name.
  destruct (L !! c) as [x|] eqn:E.
  - intros [= <- <-].
    assert (Hnames : forall d,
               cell_name (<[c := mkCell (name x) (replaced L fc (insts x)) (bbox x)]> L) d
               = cell_name L d).
    { intros d. unfold cell_name. destruct (decide (c = d)) as [->|Hne].
      - rewrite list_lookup_insert_eq by (by eapply lookup_lt_Some). by rewrite E.
      - by rewrite list_lookup_insert_ne. }
    split_and!.
    + apply length_insert.
    + exact Hnames.
    + intros d Hd. by apply list_lookup_insert_ne.
    + rewrite list_lookup_insert_eq by (by eapply lookup_lt_Some). done.
    + rewrite (total_gc_names L _ Hnames), length_fmap.
      pose proof (foldr_insert_sum
        (fun c => length (filter (fun i => is_gc L i = true) (insts c)))
        L c x (mkCell (name x) (replaced L fc (insts x)) (bbox x)) E) as Hs.
      simpl in Hs.
      assert (Hz : filter (fun i => is_gc L i = true) (replaced L fc (insts x)) = []).
      { apply filter_none. intros i. by apply replaced_no_gc. }
      rewrite Hz in Hs. simpl in Hs. unfold total_gc. lia.
  - intros [= <- <-]. rewrite E. done.
Qed.

Lemma substituted_refl (fc : faml) (L : layout) (V : gset nat) :
  substituted fc L V L V.
Proof. unfold substituted. split_and!; done. Qed.

Lemma substituted_trans (fc : faml) (L0 L1 L2 : layout) (V0 V1 V2 : gset nat) :
  substituted fc L0 V0 L1 V1 -> substituted fc L1 V1 L2 V2 ->
  substituted fc L0 V0 L2 V2.
Proof.
  intros (Hs1 & Hl1 & Hn1 & Hf1 & Hr1) (Hs2 & Hl2 & Hn2 & Hf2 & Hr2).
  split_and!.
  - set_solver.
  - congruence.
  - intros d. by rewrite Hn2.
  - intros d [Hd|Hd].
    + rewrite Hf2 by (left; set_solver). apply Hf1. by left.
    + rewrite Hf2 by (by right). apply Hf1. right. set_solver.
  - intros d Hd2 Hd0. destruct (decide (d ∈ V1)) as [Hd1|Hd1].
    + unfold cell_insts at 1. rewrite Hf2 by (by left). by apply Hr1.
    + rewrite Hr2 by done. rewrite (replaced_names L0 L1) by done.
      unfold cell_insts. rewrite Hf1 by (by right). done.
Qed.

Lemma subst_closed_trans (fc : faml) (L1 L2 : layout) (V0 V1 V2 : gset nat) :
  substituted fc L1 V1 L2 V2 ->
  Explode.closed_over L1 V0 V1 -> Explode.closed_over L2 V1 V2 ->
  Explode.closed_over L2 V0 V2.
Proof.
  intros (Hs & _ & _ & Hf & _) Hc1 Hc2 d Hd2 Hd0 i Hi.
  destruct (decide (d ∈ V1)) as [Hd1|Hd1].
  - unfold cell_insts in Hi. rewrite Hf in Hi by (by left).
    apply Hs. by eapply Hc1.
  - by eapply Hc2.
Qed.

Lemma sub_positions_spec (fc : faml)
    (rec : layout -> nat -> gset nat -> option (layout * gset nat * list Vector)) :
  (forall L c V res,
      contains "GC" (cell_name L (faml_index fc)) = false ->
      rec L c V = Some res ->
      subst_spec fc L c V res
      /\ (length res.2 + total_gc res.1.1 = total_gc L)%nat) ->
  forall il L V ps L' V' ps',
    contains "GC" (cell_name L (faml_index fc)) = false ->
    sub_positions rec il L V ps = Some (L', V', ps') ->
    substituted fc L V L' V'
    /\ Explode.closed_over L' V V'
    /\ (forall i, i ∈ il -> cell_index i ∈ V')
    /\ (length ps' + total_gc L' = length ps + total_gc L)%nat.
Proof.
  intros Hrec. induction il as [|i il IH]; intros L V ps L' V' ps' Hf H; simpl in H.
  - simplify_eq. split_and!;
      [apply substituted_refl|by intros d ? ?|by intros i ?%elem_of_nil|done].
  - destruct (rec L (cell_index i) V) as [[[L1 V1] sub]|] eqn:E; [|done].
    apply Hrec in E as ((He1 & Hc1 & Hi1) & Hn1); [|done]. simpl in *.
    assert (Hf1 : contains "GC" (cell_name L1 (faml_index fc)) = false).
    { destruct He1 as (_ & _ & Hn & _). by rewrite Hn. }
    destruct (IH _ _ _ _ _ _ Hf1 H) as (He & Hc & Hi & Hn).
    split_and!.
    + by eapply substituted_trans.
    + by eapply subst_closed_trans.
    + intros j [->|Hj]%elem_of_cons; [|by apply Hi].
      destruct He as (Hs & _). by apply Hs.
    + rewrite length_app in Hn. lia.
Qed.

Lemma replace_gc_with_faml_spec (fc : faml) :
  forall fuel L cell V res,
    contains "GC" (cell_name L (faml_index fc)) = false ->
    replace_gc_with_faml fuel (Some fc) L cell V = Some res ->
    subst_spec fc L cell V res
    /\ (length res.2 + total_gc res.1.1 = total_gc L)%nat.
Proof.
  induction fuel as [|f IH]; intros L cell V res Hf H; [done|].
  simpl in H. case_decide as Hin.
  - simplify_eq. unfold subst_spec; simpl.
    split_and!; [apply substituted_refl|by intros d ? ?|done|done].
  - destruct (replace_in_cell L (Some fc) cell) as [L1 ps1] eqn:E1.
    apply replace_in_cell_spec in E1 as (Hl1 & Hn1 & Hf1 & Hi1 & Hc1); [|done].
    destruct res as [[L' V'] ps'].
    assert (Hfaml1 : contains "GC" (cell_name L1 (faml_index fc)) = false)
      by (by rewrite Hn1).
    apply (sub_positions_spec fc _ IH) in H as (He & Hc & Hi & Hn); [|done].
    assert (He1 : substituted fc L V L1 ({[cell]} ∪ V)).
    { split_and!; [set_solver|done|done| |].
      - intros d Hd. apply Hf1. set_solver.
      - intros d Hd Hd'. assert (d = cell) as -> by set_solver. done. }
    pose proof He as (Hs & _ & _ & Hf' & _).
    unfold subst_spec; simpl. split_and!.
    + by eapply substituted_trans.
    + intros d Hd Hd' i Hi'.
      destruct (decide (d = cell)) as [->|Hne].
      * unfold cell_insts in Hi'. rewrite Hf' in Hi' by (left; set_solver).
        by apply Hi.
      * eapply Hc; [done| |done]. set_solver.
    + set_solver.
    + lia.
Qed.

Lemma replace_gc_with_faml_mono (cell_faml : option faml) :
  forall fuel L cell V res,
    replace_gc_with_faml fuel cell_faml L cell V = Some res ->
    V ⊆ res.1.2 /\ length res.1.1 = length L.
Proof.
  induction fuel as [|f IH]; intros L cell V res H; [done|].
  simpl in H. case_decide; [by simplify_eq|].
  destruct (replace_in_cell L cell_faml cell) as [L1 ps1] eqn:E1.
  assert (Hl1 : length L1 = length L).
  { unfold replace_in_cell in E1. destruct (L !! cell); [|by simplify_eq].
    destruct cell_faml; simplify_eq; [apply length_insert|done]. }
  assert (Hloop : forall il L V ps res,
             sub_positions (replace_gc_with_faml f cell_faml) il L V ps = Some res ->
             V ⊆ res.1.2 /\ length res.1.1 = length L).
  { clear -IH. induction il as [|i il IHl]; intros L V ps res H; simpl in H.
    - by simplify_eq.
    - destruct (replace_gc_with_faml f cell_faml L (cell_index i) V)
        as [[[L2 V2] sub]|] eqn:E; [|done].
      apply IH in E as [Hs Hl]. apply IHl in H as [Hs' Hl']. simpl in *.
      split; [set_solver|congruence]. }
  apply Hloop in H as [Hs Hl]. split; [set_solver|congruence].
Qed.

(** With a frame for every cell not yet visited the substitution returns,
    with or without the FaML cell. *)
Lemma replace_gc_with_faml_total (cell_faml : option faml) :
  forall fuel L cell V,
    (size (unvisited L V) < fuel)%nat ->
    is_Some (replace_gc_with_faml fuel cell_faml L cell V).
Proof.
  induction fuel as [|f IH]; intros L cell V Hf; [lia|].
  assert (Hloop : forall il L V ps,
             (size (unvisited L V) < f)%nat ->
             is_Some (sub_positions (replace_gc_with_faml f cell_faml) il L V ps)).
  { clear -IH. induction il as [|i il IHl]; intros L V ps Hm; simpl; [done|].
    destruct (IH L (cell_index i) V Hm) as [[[L2 V2] sub] E]. rewrite E.
    apply IHl. apply replace_gc_with_faml_mono in E as [Hs Hl]. simpl in *.
    pose proof (unvisited_mono L _ _ Hs). unfold unvisited in *. rewrite Hl. lia. }
  simpl. case_decide as Hin; [done|].
  destruct (replace_in_cell L cell_faml cell) as [L1 ps1] eqn:E1.
  assert (Hl1 : length L1 = length L).
  { unfold replace_in_cell in E1. destruct (L !! cell); [|by simplify_eq].
    destruct cell_faml; simplify_eq; [apply length_insert|done]. }
  destruct (decide (cell < length L)%nat) as [Hc|Hc]; last first.
  { assert (L1 = L) as ->.
    { unfold replace_in_cell in E1. destruct (L !! cell) eqn:E; [|by simplify_eq].
      apply lookup_lt_Some in E. lia. }
    by rewrite cell_insts_outside. }
  apply Hloop. pose proof (unvisited_enter L _ _ Hc Hin).
  unfold unvisited in *. rewrite Hl1. lia.
Qed.

(** With the FaML cell at hand, and its name free of "GC", the substitution
    started on any cell of any hierarchy returns; it enters the cell and
    every cell placed below it; in each of them it leaves the instances
    that are no grating couplers and puts one FaML instance, placed by
    [faml_trans], for every grating coupler, so that none is left; and it
    reports one position for every grating coupler it replaced. *)
Theorem faml_substitution_replaces_every_gc
    (fc : faml) (L : layout) (cell : nat) :
  contains "GC" (cell_name L (faml_index fc)) = false ->
  exists L' V gc_positions,
    replace_gc_with_faml (S (length L)) (Some fc) L cell ∅
      = Some (L', V, gc_positions)
    /\ cell ∈ V
    /\ (forall d i, d ∈ V -> i ∈ cell_insts L' d -> cell_index i ∈ V)
    /\ (forall d, d ∈ V -> cell_insts L' d = replaced L fc (cell_insts L d))
    /\ (forall d i, d ∈ V -> i ∈ cell_insts L' d -> is_gc L' i = false)
    /\ (length gc_positions + total_gc L' = total_gc L)%nat.
Proof.
  intros Hf.
  destruct (replace_gc_with_faml_total (Some fc) (S (length L)) L cell ∅
              (size_unvisited_empty L)) as [[[L' V] ps] E].
  pose proof (replace_gc_with_faml_spec fc _ _ _ _ _ Hf E)
    as (((_ & _ & Hnames & _ & Hnew) & Hclosed & Hcell) & Hcount).
  simpl in Hnames, Hnew, Hclosed, Hcell, Hcount.
  exists L', V, ps. split_and!; try done.
  - intros d i Hd Hi. eapply Hclosed; [done|set_solver|done].
  - intros d Hd. apply Hnew; [done|set_solver].
  - intros d i Hd Hi. rewrite (is_gc_names L L') by done.
    rewrite Hnew in Hi by (done || set_solver).
    by eapply replaced_no_gc.
Qed.

Lemma faml_substitution_replaces_every_gc_witness :
  exists L' V gc_positions,
    replace_gc_with_faml 5 (Some ex_faml) gc_layout 0 ∅
      = Some (L', V, gc_positions)
    /\ 0%nat ∈ V
    /\ (forall d i, d ∈ V -> i ∈ cell_insts L' d -> cell_index i ∈ V)
    /\ (forall d, d ∈ V -> cell_insts L' d = replaced gc_layout ex_faml (cell_insts gc_layout d))
    /\ (forall d i, d ∈ V -> i ∈ cell_insts L' d -> is_gc L' i = false)
    /\ (length gc_positions + total_gc L' = total_gc gc_layout)%nat.
Proof.
  apply (faml_substitution_replaces_every_gc ex_faml gc_layout 0). reflexivity.
Defined.

Lemma replace_without_faml_unchanged :
  forall (fuel : nat) (L : layout) (cell : nat) (visited_cells : gset nat)
         (L' : layout) (visited' : gset nat) (gc_positions : list Vector),
    replace_gc_with_faml fuel None L cell visited_cells
      = Some (L', visited', gc_positions) ->
    L' = L.
Proof.
  induction fuel as [|f IH]; intros L cell V L' V' ps H; [done|].
  simpl in H. case_decide; [by simplify_eq|].
  assert (E1 : (replace_in_cell L None cell).1 = L).
  { unfold replace_in_cell. by destruct (L !! cell). }
  destruct (replace_in_cell L None cell) as [L1 ps1]. simpl in E1. subst L1.
  revert H. generalize (cell_insts L cell) ({[cell]} ∪ V) ps1.
  intros il. induction il as [|i il IHl]; intros V1 ps0 H; simpl in H.
  - by simplify_eq.
  - destruct (replace_gc_with_faml f None L (cell_index i) V1)
      as [[[L2 V2] sub]|] eqn:E; [|done].
    apply IH in E as ->. by eapply IHl.
Qed.

Lemma sub_positions_keeps
    (rec : layout -> nat -> gset nat -> option (layout * gset nat * list Vector))
    (il : list Inst) :
  forall L V ps L' V' ps',
    sub_positions rec il L V ps = Some (L', V', ps') ->
    forall p, p ∈ ps -> p ∈ ps'.
Proof.
  induction il as [|i il IH]; intros L V ps L' V' ps' H p Hp; simpl in H.
  - by simplify_eq.
  - destruct (rec L (cell_index i) V) as [[[L1 V1] sub]|]; [|done].
    eapply IH; [done|]. apply elem_of_app. by left.
Qed.

(** Without the FaML cell the substitution only reports: started on any
    cell of any hierarchy it returns the layout as it was, and the
    positions it returns hold the centre of every grating coupler placed in
    the cell it was started on. *)
Theorem substitution_without_faml_changes_nothing (L : layout) (cell : nat) :
  exists visited gc_positions,
    replace_gc_with_faml (S (length L)) None L cell ∅
      = Some (L, visited, gc_positions)
    /\ forall i, i ∈ cell_insts L cell -> is_gc L i = true ->
                 gc_position L i ∈ gc_positions.
Proof.
  destruct (replace_gc_with_faml_total None (S (length L)) L cell ∅
              (size_unvisited_empty L)) as [[[L' V] ps] E].
  pose proof (replace_without_faml_unchanged _ _ _ _ _ _ _ E) as ->.
  exists V, ps. split; [done|]. intros i Hi Hgc.
  simpl in E. rewrite decide_False in E by set_solver.
  unfold replace_in_cell, cell_insts in *.
  destruct (L !! cell) as [c|] eqn:Ec; [|by apply elem_of_nil in Hi].
  eapply sub_positions_keeps; [exact E|].
  apply list_elem_of_fmap. exists i. split; [done|].
  by apply list_elem_of_filter.
Qed.

(** Where the pin of the replacement lands: at the origin of the grating
    coupler displaced by [p + R p], [p] the pin and [R] the coupler's
    rotation and mirror.  The pin is on the coupler's origin exactly when
    [p + R p] vanishes, as it does for a coupler placed with R180. *)
Theorem faml_pin_meets_gc_origin (fc : faml) (t : Trans) (p : Vector) :
  opt1 fc = Some p ->
  trans_apply (faml_trans fc t) p
  = vadd (vadd p (fix_apply (rot t) (mirror t) p)) (trans_apply t (0, 0))
  /\ (trans_apply (faml_trans fc t) p = trans_apply t (0, 0)
      <-> vadd p (fix_apply (rot t) (mirror t) p) = (0, 0))
  /\ (rot t = R180 -> mirror t = false ->
      trans_apply (faml_trans fc t) p = trans_apply t (0, 0)).
Proof.
  intros Hp. unfold faml_trans. rewrite Hp.
  destruct p as [px py], t as [r m [dx dy]].
  assert (H1 : trans_apply (trans_mul (trans_disp px py) (mkTrans r m (dx, dy))) (px, py)
               = vadd (vadd (px, py) (fix_apply r m (px, py)))
                      (trans_apply (mkTrans r m (dx, dy)) (0, 0))).
  { rewrite trans_mul_apply.
    destruct r, m; unfold trans_apply, trans_disp, fix_apply, rotate, vadd; simpl;
      f_equal; lia. }
  split_and!.
  - exact H1.
  - rewrite H1. simpl.
    destruct r, m; unfold trans_apply, fix_apply, rotate, vadd; simpl;
      (split; intros [= ? ?]; f_equal; lia).
  - simpl. intros -> ->. rewrite H1.
    unfold trans_apply, fix_apply, rotate, vadd; simpl. f_equal; lia.
Qed.

Lemma faml_pin_meets_gc_origin_witness :
  trans_apply (faml_trans ex_faml (mkTrans R180 false (100, 0))) (40, 0)
  = vadd (vadd (40, 0) (fix_apply R180 false (40, 0)))
         (trans_apply (mkTrans R180 false (100, 0)) (0, 0))
  /\ (trans_apply (faml_trans ex_faml (mkTrans R180 false (100, 0))) (40, 0)
      = trans_apply (mkTrans R180 false (100, 0)) (0, 0)
      <-> vadd (40, 0) (fix_apply R180 false (40, 0)) = (0, 0))
  /\ (R180 = R180 -> false = false ->
      trans_apply (faml_trans ex_faml (mkTrans R180 false (100, 0))) (40, 0)
      = trans_apply (mkTrans R180 false (100, 0)) (0, 0)).
Proof.
  apply (faml_pin_meets_gc_origin ex_faml (mkTrans R180 false (100, 0)) (40, 0)).
  reflexivity.
Defined.

End SubstitutionFacts.

(** ** The error summary table *)

Section SummaryFacts.

Import Submissions LoadSpec Summary.

Lemma bind_inr {A B} (m : P A) (k : A -> P B) (out : list string) (a : A) :
  m = (out, inr a) -> bind m k = (out ++ (k a).1, (k a).2).
Proof. intros ->. unfold bind. by destruct (k a). Qed.

Lemma bind_inl {A B} (m : P A) (k : A -> P B) (out : list string) (e : exn) :
  m = (out, inl e) -> bind m k = (out, inl e).
Proof. by intros ->. Qed.

Lemma bind_print {B} (s : string) (k : unit -> P B) :
  bind (print s) k = (s :: (k tt).1, (k tt).2).
Proof. unfold bind, print. by destruct (k tt). Qed.

Lemma any_positive_int (vs : list value) :
  Forall (fun v => exists n, v = IntV n) vs ->
  any_positive vs = inr (existsb (fun v => match v with
                                           | IntV n => (0 <? n)%nat
                                           | StrV _ => false
                                           end) vs).
Proof.
  induction 1 as [|v vs [n ->] _ IH]; [done|].
  simpl. rewrite IH. by destruct (0 <? n)%nat.
Qed.

Lemma entries_int (d : error_details) :
  d <> CellTooSmall -> Forall (fun v => exists n, v = IntV n) (snd <$> entries d).
Proof.
  intros Hd. destruct d; [| |done|]; simpl; repeat constructor; eauto.
Qed.

Lemma any_positive_entries (d : error_details) :
  d <> CellTooSmall -> exists b, any_positive (snd <$> entries d) = inr b.
Proof. intros Hd. eexists. by apply any_positive_int, entries_int. Qed.

Lemma get_int (items : list (string * value)) (error_type : string) :
  Forall (fun v => exists n, v = IntV n) (snd <$> items) ->
  exists n, get items error_type = IntV n.
Proof.
  induction items as [|[k v] items IH]; intros H; simpl; [by eexists|].
  apply Forall_cons in H as [Hv H]. case_decide; [done|by apply IH].
Qed.

Lemma sum_int (vs : list value) :
  Forall (fun v => exists n, v = IntV n) vs -> exists n, sum vs = inr n.
Proof.
  unfold sum. generalize 0%nat.
  induction vs as [|v vs IH]; intros a H; simpl; [by eexists|].
  apply Forall_cons in H as [[n ->] H]. simpl. by apply IH.
Qed.

Lemma rows_return (m : gmap string error_details) (ets fs : list string) :
  (forall f, f ∈ fs -> exists d, m !! f = Some d /\ d <> CellTooSmall) ->
  exists out, rows m ets fs = (out, inr tt).
Proof.
  induction fs as [|f fs IH]; intros H; simpl; [by eexists|].
  destruct (H f) as (d & E & Hd); [by left|].
  destruct IH as [out Hout]; [intros g Hg; apply H; by right|].
  destruct (any_positive_entries d Hd) as [b Hb].
  unfold row. rewrite E, Hb. unfold lift. cbn [bind].
  rewrite Hout. by eexists.
Qed.

Lemma rows_raise (m : gmap string error_details) (ets fs : list string) :
  (forall f, f ∈ fs -> is_Some (m !! f)) ->
  (exists f, f ∈ fs /\ m !! f = Some CellTooSmall) ->
  exists out, rows m ets fs = (out, inl TypeError).
Proof.
  induction fs as [|f fs IH]; intros Hdom (g & Hg & E).
  - by apply elem_of_nil in Hg.
  - simpl. destruct (Hdom f) as [d Ed]; [by left|].
    destruct (decide (f = g)) as [->|Hne].
    + unfold row. rewrite E. simpl. by eexists.
    + apply elem_of_cons in Hg as [->|Hg]; [done|].
      destruct IH as [out Hout]; [intros h Hh; apply Hdom; by right|by exists g|].
      unfold row. rewrite Ed.
      destruct (any_positive (snd <$> entries d)) as [e|b] eqn:Hb.
      * assert (e = TypeError) as ->; [|by eexists].
        destruct d as [|c| |]; [done| |by injection Hb|done].
        destruct (any_positive_entries (Counts c)) as [b Hc]; [done|congruence].
      * unfold lift. cbn [bind]. rewrite Hout. by eexists.
Qed.

Lemma elem_of_filenames (m : gmap string error_details) (f : string) :
  f ∈ filenames m <-> is_Some (m !! f).
Proof.
  unfold filenames. rewrite merge_sort_Permutation, list_elem_of_fmap. split.
  - intros ([g d] & -> & H). apply elem_of_map_to_list in H. by eexists.
  - intros [d H]. exists (f, d). split; [done|]. by apply elem_of_map_to_list.
Qed.

Lemma totals_return (m : gmap string error_details) :
  (forall f d, m !! f = Some d -> d <> CellTooSmall) ->
  forall ets total_row total_errors,
    exists r, totals m ets total_row total_errors = inr r.
Proof.
  intros Hm. induction ets as [|et ets IH]; intros total_row total_errors; simpl.
  - by eexists.
  - destruct (sum_int ((fun item => get (entries item.2) et) <$> map_to_list m))
      as [n ->]; [|by apply IH].
    apply Forall_fmap, Forall_forall. intros [f d] Hin. simpl.
    apply elem_of_map_to_list in Hin. apply get_int, entries_int. by eapply Hm.
Qed.

Lemma skipped_files_count (ds : list error_details) :
  Forall (fun d => d <> CellTooSmall) ds ->
  skipped_files ds = inr (length (filter (fun d => has_positive d = true) ds)).
Proof.
  induction 1 as [|d ds Hd _ IH]; [done|].
  simpl. rewrite IH. destruct (any_positive_entries d Hd) as [b Hb]. rewrite Hb.
  destruct b.
  - rewrite filter_cons_True; [done|]. unfold has_positive. by rewrite Hb.
  - rewrite filter_cons_False; [done|]. unfold has_positive. by rewrite Hb.
Qed.

Lemma table_raises (m : gmap string error_details) :
  (exists f, m !! f = Some CellTooSmall) ->
  (print_error_summary_table m).2 = inl TypeError.
Proof.
  intros [f E]. unfold print_error_summary_table.
  rewrite !bind_print. cbn [snd]. case_decide as Hm.
  { subst m. by rewrite lookup_empty in E. }
  rewrite ?bind_print. cbn [snd].
  destruct (rows_raise m (error_types m) (filenames m)) as [out Hout].
  - intros g. by rewrite elem_of_filenames.
  - exists f. split; [|done]. apply elem_of_filenames. by eexists.
  - by rewrite (bind_inl _ _ _ _ Hout).
Qed.

Lemma table_returns (m : gmap string error_details) :
  (forall f d, m !! f = Some d -> d <> CellTooSmall) ->
  m <> ∅ ->
  exists (out1 : list string) (total_row : string) (total_errors : nat),
    rows m (error_types m) (filenames m) = (out1, inr tt)
    /\ print_error_summary_table m
       = ([String newline (rule "=" 100); "VERIFICATION ERROR SUMMARY";
           rule "=" 100; header (error_types m);
           rule "-" (String.length (header (error_types m)))]
          ++ out1
          ++ [rule "-" (String.length (header (error_types m)));
              total_row +:+ pretty (size m) +:+ " files";
              String newline "SUMMARY:";
              "  Total files processed: " +:+ pretty (size m);
              "  Files passed verification: "
              +:+ pretty (size m
                          - length (filter (fun d => has_positive d = true)
                                           (snd <$> map_to_list m)))%nat;
              "  Files with errors (skipped): "
              +:+ pretty (length (filter (fun d => has_positive d = true)
                                         (snd <$> map_to_list m)));
              "  Total error count: " +:+ pretty total_errors],
          inr tt).
Proof.
  intros Hm Hne.
  destruct (rows_return m (error_types m) (filenames m)) as [out1 Hrows].
  { intros f [d E]%elem_of_filenames. exists d. split; [done|]. by eapply Hm. }
  destruct (totals_return m Hm (error_types m) (ljust 40 "TOTAL ERRORS") 0%nat)
    as [[total_row total_errors] Htot].
  assert (Hskip : skipped_files (snd <$> map_to_list m)
                  = inr (length (filter (fun d => has_positive d = true)
                                        (snd <$> map_to_list m)))).
  { apply skipped_files_count, Forall_fmap, Forall_forall.
    intros [f d] Hin. simpl. apply elem_of_map_to_list in Hin. by eapply Hm. }
  exists out1, total_row, total_errors. split; [done|].
  unfold print_error_summary_table. rewrite decide_False by done.
  rewrite Hrows, Htot, Hskip. unfold lift, print. cbn [bind].
  reflexivity.
Qed.

Lemma rows_output (m : gmap string error_details) (ets fs out : list string) :
  rows m ets fs = (out, inr tt) ->
  forall f, f ∈ fs -> exists r, row m ets f = inr r /\ r ∈ out.
Proof.
  revert out. induction fs as [|g fs IH]; intros out H f Hf.
  - by apply elem_of_nil in Hf.
  - simpl in H. destruct (row m ets g) as [e|r] eqn:Hr; [done|].
    unfold lift in H. cbn [bind] in H.
    destruct (rows m ets fs) as [out' res] eqn:Hrows. simplify_eq.
    apply elem_of_cons in Hf as [->|Hf].
    + exists r. split; [done|by left].
    + destruct (IH out' eq_refl f Hf) as (r' & Hr' & Hin).
      exists r'. split; [done|by right].
Qed.

Lemma details_too_small (f : submission_file) :
  details (verification f) = CellTooSmall <-> too_small f = true.
Proof.
  unfold verification, too_small. destruct (check_quiet f) as [n|].
  - destruct (0 <? n); [|done].
    by destruct (0 <? disconnected_pins _)%nat.
  - by destruct ((bbox_width f <? 1000) || (bbox_height f <? 1000)).
Qed.

Lemma load_summary_lookup (files : list submission_file) (nm : string)
    (d : error_details) :
  NoDup (filename <$> files) ->
  (load_submission_designs files).2 !! nm = Some d ->
  exists f, f ∈ files /\ filename f = nm /\ d = details (verification f).
Proof.
  intros Hnd H. unfold load_submission_designs in H. simpl in H.
  destruct (decide (nm ∈ filename <$> files)) as [Hin|Hin].
  - apply list_elem_of_fmap in Hin as (f & -> & Hf). exists f.
    rewrite (load_summary files _ f Hnd Hf) in H. by simplify_eq.
  - rewrite load_summary_other in H by done. simpl in H.
    by rewrite lookup_empty in H.
Qed.

Lemma load_summary_list (files : list submission_file) :
  NoDup (filename <$> files) ->
  map_to_list (load_submission_designs files).2
  ≡ₚ (fun f => (filename f, details (verification f))) <$> files.
Proof.
  intros Hnd.
  assert (Hfst : ((fun f => (filename f, details (verification f))) <$> files).*1
                 = filename <$> files).
  { rewrite <- list_fmap_compose. by apply list_fmap_ext. }
  assert ((load_submission_designs files).2
          = list_to_map ((fun f => (filename f, details (verification f))) <$> files))
    as ->; [|apply map_to_list_to_map; by rewrite Hfst].
  apply map_eq. intros nm.
  unfold load_submission_designs. simpl.
  destruct (decide (nm ∈ filename <$> files)) as [Hin|Hin].
  - apply list_elem_of_fmap in Hin as (f & -> & Hf).
    rewrite (load_summary files _ f Hnd Hf). symmetry.
    apply elem_of_list_to_map_1; [by rewrite Hfst|].
    apply list_elem_of_fmap. by exists f.
  - rewrite load_summary_other by done. simpl. rewrite lookup_empty. symmetry.
    apply not_elem_of_list_to_map_1. by rewrite Hfst.
Qed.

Lemma flagged_count (files : list submission_file) :
  length (filter (fun d => has_positive d = true)
                 ((fun f => details (verification f)) <$> files))
  = length (filter (fun f => flagged f = true) files).
Proof.
  induction files as [|f files IH]; [done|]. csimpl.
  destruct (flagged f) eqn:E.
  - rewrite !filter_cons_True by done. simpl. by rewrite IH.
  - rewrite !filter_cons_False;
      [done|..]; first [by rewrite E|unfold flagged in E; by rewrite E].
Qed.

Lemma skipped_is_flagged (f : submission_file) :
  too_small f = false -> kept f = false -> flagged f = true.
Proof.
  unfold too_small, kept, flagged, has_positive, verification.
  destruct (check_quiet f) as [n|].
  - intros _. destruct (0 <? n); [|done].
    destruct (0 <? disconnected_pins _)%nat eqn:E; [|done].
    intros _. simpl. by rewrite E.
  - intros ->. done.
Qed.

Lemma flagged_split (files : list submission_file) :
  (forall f, f ∈ files -> too_small f = false) ->
  length (filter (fun f => flagged f = true) files)
  = (length (filter (fun f => kept f = false) files)
     + length (filter (fun f => kept f && flagged f = true) files))%nat.
Proof.
  induction files as [|f files IH]; intros H; [done|].
  specialize (IH (fun g Hg => H g (list_elem_of_further _ _ _ Hg))).
  pose proof (skipped_is_flagged f (H f (list_elem_of_here _ _))) as Hs.
  destruct (kept f) eqn:Ek.
  - rewrite (filter_cons_False (fun f => kept f = false)) by (by rewrite Ek).
    destruct (flagged f) eqn:Ef.
    + rewrite !filter_cons_True by (by rewrite ?Ek, ?Ef). simpl. lia.
    + rewrite !filter_cons_False by (by rewrite ?Ek, ?Ef). lia.
  - rewrite (filter_cons_True (fun f => kept f = false)) by done.
    rewrite (filter_cons_True (fun f => flagged f = true)) by (by apply Hs).
    rewrite filter_cons_False by (by rewrite Ek). simpl. lia.
Qed.

Lemma kept_split (files : list submission_file) :
  (length (filter (fun f => kept f = false) files)
   + length (filter (fun f => kept f = true) files) = length files)%nat.
Proof.
  induction files as [|f files IH]; [done|].
  destruct (kept f) eqn:E.
  - rewrite filter_cons_False, filter_cons_True by (by rewrite ?E). simpl. lia.
  - rewrite filter_cons_True, filter_cons_False by (by rewrite ?E). simpl. lia.
Qed.

Lemma load_no_small (files : list submission_file) :
  NoDup (filename <$> files) ->
  (forall f, f ∈ files -> too_small f = false) ->
  forall nm d, (load_submission_designs files).2 !! nm = Some d ->
               d <> CellTooSmall.
Proof.
  intros Hnd Hs nm d E ->.
  apply load_summary_lookup in E as (f & Hf & _ & E); [|done].
  symmetry in E. apply details_too_small in E. rewrite (Hs f Hf) in E. done.
Qed.

Lemma load_summary_empty (files : list submission_file) :
  (load_submission_designs files).2 = ∅ <-> files = [].
Proof.
  split; [|by intros ->].
  destruct files as [|f files]; [done|]. intros H.
  assert (Hdom : is_Some ((load_submission_designs (f :: files)).2 !! filename f)).
  { unfold load_submission_designs. cbn [snd].
    apply load_summary_dom. left. csimpl. by left. }
  rewrite H, lookup_empty in Hdom. by destruct Hdom.
Qed.

Lemma closing_returns (files : list submission_file) (out : list string) :
  print_error_summary_table (load_submission_designs files).2 = (out, inr tt) ->
  closing files = (out ++ ["PIClet generation complete!"], inr tt).
Proof. unfold closing. by intros ->. Qed.

(** The closing step of the run under the files of the directory: when the
    check of some file raised on a cell smaller than one micron, the table
    ends in a [TypeError], as the status of its row compares the string
    ['Cell too small'] with [0]; without such a file the table is printed
    and the run ends with its closing line. *)
Theorem summary_table_fails_on_small_cell (files : list submission_file) :
  NoDup (filename <$> files) ->
  ((exists f, f ∈ files /\ too_small f = true) ->
   (closing files).2 = inl TypeError)
  /\ ((forall f, f ∈ files -> too_small f = false) ->
      (closing files).2 = inr tt
      /\ last (closing files).1 = Some "PIClet generation complete!").
Proof.
  intros Hnd. split.
  - intros (f & Hf & Hs). unfold closing.
    pose proof (table_raises (load_submission_designs files).2) as Ht.
    destruct (print_error_summary_table _) as [out res]. simpl in Ht.
    rewrite Ht; [done|]. exists (filename f).
    unfold load_submission_designs. cbn [snd].
    rewrite (load_summary files _ f Hnd Hf). f_equal.
    by apply details_too_small.
  - intros Hs.
    assert (exists out,
               print_error_summary_table (load_submission_designs files).2
               = (out, inr tt)) as [out Hout].
    { destruct (decide ((load_submission_designs files).2 = ∅)) as [E|E].
      - unfold print_error_summary_table. rewrite E, decide_True by done.
        by eexists.
      - destruct (table_returns _ (load_no_small files Hnd Hs) E)
          as (out1 & total_row & total_errors & _ & ->). by eexists. }
    rewrite (closing_returns files out Hout). split; [done|].
    apply last_snoc.
Qed.

Lemma summary_table_fails_on_small_cell_witness :
  ((exists f, f ∈ mixed_files ++ [empty_file "d.gds" "dan"] /\ too_small f = true) ->
   (closing (mixed_files ++ [empty_file "d.gds" "dan"])).2 = inl TypeError)
  /\ ((forall f, f ∈ mixed_files ++ [empty_file "d.gds" "dan"] -> too_small f = false) ->
      (closing (mixed_files ++ [empty_file "d.gds" "dan"])).2 = inr tt
      /\ last (closing (mixed_files ++ [empty_file "d.gds" "dan"])).1
         = Some "PIClet generation complete!").
Proof.
  apply (summary_table_fails_on_small_cell
           (mixed_files ++ [empty_file "d.gds" "dan"])).
  vm_compute. repeat constructor; set_solver.
Defined.

(** A file that was loaded, and so goes into a PIClet, is shown in the
    table as SKIPPED when its dictionary holds a positive count: a warning
    of the check, or the entry left when the check itself raised. *)
Theorem loaded_file_shown_as_skipped
    (files : list submission_file) (f : submission_file) :
  NoDup (filename <$> files) ->
  (forall g, g ∈ files -> too_small g = false) ->
  f ∈ files -> kept f = true -> flagged f = true ->
  filename f ∈ (load_submission_designs files).1.*1
  /\ (cells (error_types (load_submission_designs files).2) f +:+ "SKIPPED")
     ∈ (closing files).1.
Proof.
  intros Hnd Hs Hf Hk Hfl. split.
  - unfold load_submission_designs. cbn [fst]. rewrite load_kept. simpl.
    apply list_elem_of_fmap. exists f. split; [done|].
    by apply list_elem_of_filter.
  - assert (E : (load_submission_designs files).2 <> ∅).
    { rewrite load_summary_empty. intros ->. by apply elem_of_nil in Hf. }
    destruct (table_returns _ (load_no_small files Hnd Hs) E)
      as (out1 & total_row & total_errors & Hrows & Hout).
    rewrite (closing_returns files _ Hout). cbn [fst].
    destruct (rows_output _ _ _ _ Hrows (filename f)) as (r & Hr & Hin).
    { apply elem_of_filenames. unfold load_submission_designs. cbn [snd].
      rewrite (load_summary files _ f Hnd Hf). by eexists. }
    unfold row in Hr. unfold load_submission_designs in Hr at 1. cbn [snd] in Hr.
    rewrite (load_summary files _ f Hnd Hf) in Hr.
    unfold flagged, has_positive in Hfl.
    destruct (any_positive _) as [e|b]; [done|]. subst b.
    injection Hr as <-. rewrite !elem_of_app. left. right. left. exact Hin.
Qed.

Lemma loaded_file_shown_as_skipped_witness :
  filename warned_file
  ∈ (load_submission_designs (mixed_files ++ [warned_file])).1.*1
  /\ (cells (error_types (load_submission_designs (mixed_files ++ [warned_file])).2)
            warned_file +:+ "SKIPPED")
     ∈ (closing (mixed_files ++ [warned_file])).1.
Proof.
  apply (loaded_file_shown_as_skipped (mixed_files ++ [warned_file]) warned_file).
  - vm_compute. repeat constructor; set_solver.
  - intros g Hg. repeat (apply elem_of_cons in Hg as [->|Hg]; [reflexivity|]).
    by apply elem_of_nil in Hg.
  - set_solver.
  - reflexivity.
  - reflexivity.
Defined.

(** The line "Files with errors (skipped)" of the table counts the files
    whose dictionary holds a positive count: the files left out of the
    submissions, and with them the files that were loaded with a warning. *)
Theorem skipped_line_counts_loaded_files (files : list submission_file) :
  NoDup (filename <$> files) ->
  (forall f, f ∈ files -> too_small f = false) ->
  files <> [] ->
  ("  Files with errors (skipped): "
   +:+ pretty (left_out files + length (loaded_flagged files))%nat)
  ∈ (closing files).1.
Proof.
  intros Hnd Hs Hne.
  assert (E : (load_submission_designs files).2 <> ∅)
    by (by rewrite load_summary_empty).
  destruct (table_returns _ (load_no_small files Hnd Hs) E)
    as (out1 & total_row & total_errors & Hrows & Hout).
  rewrite (closing_returns files _ Hout). cbn [fst].
  assert (Hcount : length (filter (fun d => has_positive d = true)
                                  (snd <$> map_to_list (load_submission_designs files).2))
                   = (left_out files + length (loaded_flagged files))%nat).
  { rewrite (load_summary_list files Hnd), <- list_fmap_compose.
    change (snd ∘ _) with (fun f => details (verification f)).
    rewrite flagged_count, (flagged_split files Hs).
    unfold left_out, loaded_flagged. f_equal.
    assert (Hlen : length (load_submission_designs files).1
                   = length (filter (fun f => kept f = true) files)).
    { rewrite <- (length_fmap fst). unfold load_submission_designs. cbn [fst].
      rewrite load_kept. simpl. by rewrite length_fmap. }
    rewrite Hlen. pose proof (kept_split files). lia. }
  rewrite Hcount. rewrite !elem_of_app. left. right. right.
  do 5 apply list_elem_of_further. apply list_elem_of_here.
Qed.

Lemma skipped_line_counts_loaded_files_witness :
  ("  Files with errors (skipped): "
   +:+ pretty (left_out (mixed_files ++ [unchecked_file "e.gds" "eve"])
               + length (loaded_flagged (mixed_files ++ [unchecked_file "e.gds" "eve"])))%nat)
  ∈ (closing (mixed_files ++ [unchecked_file "e.gds" "eve"])).1.
Proof.
  apply (skipped_line_counts_loaded_files
           (mixed_files ++ [unchecked_file "e.gds" "eve"])).
  - vm_compute. repeat constructor; set_solver.
  - intros g Hg. repeat (apply elem_of_cons in Hg as [->|Hg]; [reflexivity|]).
    by apply elem_of_nil in Hg.
  - done.
Defined.

End SummaryFacts.

(** ** The ground wire *)

Section GroundWireFacts.

Import GroundWire.

Lemma extents_spec (components : list component) (ymin ymax : list Z) :
  extents components ymin ymax
  = (ymin ++ ((fun c => bottom (placed c))
                <$> filter (fun c => component_name c = laser_name) components),
     ymax ++ ((fun c => top (placed c))
                <$> filter (fun c => component_name c = laser_name) components)).
Proof.
  revert ymin ymax. induction components as [|c rest IH]; intros ymin ymax; simpl.
  - by rewrite !app_nil_r.
  - case_decide as E.
    + rewrite IH, filter_cons_True by done. csimpl. by rewrite <- !app_assoc.
    + by rewrite IH, filter_cons_False by done.
Qed.

Lemma foldl_min_le (xs : list Z) (x : Z) :
  foldl Z.min x xs <= x /\ forall y, y ∈ xs -> foldl Z.min x xs <= y.
Proof.
  revert x. induction xs as [|z xs IH]; intros x; simpl.
  - split; [lia|]. by intros y ?%elem_of_nil.
  - destruct (IH (Z.min x z)) as [H1 H2]. split; [lia|].
    intros y [->|Hy]%elem_of_cons; [lia|by apply H2].
Qed.

Lemma foldl_max_ge (xs : list Z) (x : Z) :
  x <= foldl Z.max x xs /\ forall y, y ∈ xs -> y <= foldl Z.max x xs.
Proof.
  revert x. induction xs as [|z xs IH]; intros x; simpl.
  - split; [lia|]. by intros y ?%elem_of_nil.
  - destruct (IH (Z.max x z)) as [H1 H2]. split; [lia|].
    intros y [->|Hy]%elem_of_cons; [lia|by apply H2].
Qed.

Lemma min_of_le (xs : list Z) (y : Z) :
  y ∈ xs -> exists m, min_of xs = inr m /\ m <= y.
Proof.
  destruct xs as [|x xs]; [by intros ?%elem_of_nil|].
  intros Hy. eexists. split; [done|].
  destruct (foldl_min_le xs x) as [H1 H2].
  apply elem_of_cons in Hy as [->|Hy]; [done|by apply H2].
Qed.

Lemma max_of_ge (xs : list Z) (y : Z) :
  y ∈ xs -> exists m, max_of xs = inr m /\ y <= m.
Proof.
  destruct xs as [|x xs]; [by intros ?%elem_of_nil|].
  intros Hy. eexists. split; [done|].
  destruct (foldl_max_ge xs x) as [H1 H2].
  apply elem_of_cons in Hy as [->|Hy]; [done|by apply H2].
Qed.

(** With a laser among the components the wire is drawn: a path of the
    ground wire's width along the left edge of the chip, from the lowest
    top to the highest bottom of the lasers.  The vertical extent of every
    laser meets that of the wire. *)
Theorem ground_wire_meets_every_laser
    (components : list component) (c : component) :
  c ∈ components -> component_name c = laser_name ->
  exists lowest_top highest_bottom,
    (ground_wire components).2
    = inr (mkPath [(-1366665, lowest_top); (-1366665, highest_bottom)] 20000)
    /\ lowest_top <= top (placed c)
    /\ bottom (placed c) <= highest_bottom
    /\ Z.min lowest_top highest_bottom <= top (placed c)
    /\ bottom (placed c) <= Z.max lowest_top highest_bottom.
Proof.
  intros Hc Hl. unfold ground_wire. rewrite extents_spec. cbn [snd app].
  assert (Hin : c ∈ filter (fun c => component_name c = laser_name) components)
    by (by apply list_elem_of_filter).
  destruct (min_of_le ((fun c => top (placed c))
                         <$> filter (fun c => component_name c = laser_name) components)
                      (top (placed c))) as (y1 & -> & H1).
  { apply list_elem_of_fmap. by exists c. }
  destruct (max_of_ge ((fun c => bottom (placed c))
                         <$> filter (fun c => component_name c = laser_name) components)
                      (bottom (placed c))) as (y2 & -> & H2).
  { apply list_elem_of_fmap. by exists c. }
  exists y1, y2. split_and!; [done|lia..].
Qed.

Lemma ground_wire_meets_every_laser_witness :
  exists lowest_top highest_bottom,
    (ground_wire two_lasers).2
    = inr (mkPath [(-1366665, lowest_top); (-1366665, highest_bottom)] 20000)
    /\ lowest_top
       <= top (placed (mkComponent laser_name (mkBox 0 (-150) 600 150)
                                   (trans_disp (-1376665) 300)))
    /\ bottom (placed (mkComponent laser_name (mkBox 0 (-150) 600 150)
                                   (trans_disp (-1376665) 300)))
       <= highest_bottom
    /\ Z.min lowest_top highest_bottom
       <= top (placed (mkComponent laser_name (mkBox 0 (-150) 600 150)
                                   (trans_disp (-1376665) 300)))
    /\ bottom (placed (mkComponent laser_name (mkBox 0 (-150) 600 150)
                                   (trans_disp (-1376665) 300)))
       <= Z.max lowest_top highest_bottom.
Proof.
  apply (ground_wire_meets_every_laser two_lasers).
  - unfold two_lasers. set_solver.
  - reflexivity.
Defined.

(** The wire is refused with a [ValueError], the minimum of an empty list,
    exactly when no component is a laser. *)
Theorem ground_wire_without_laser (components : list component) :
  (ground_wire components).2 = inl ValueError
  <-> forall c, c ∈ components -> component_name c <> laser_name.
Proof.
  unfold ground_wire. rewrite extents_spec. cbn [snd app]. split.
  - intros H c Hc Hl.
    assert (Hin : c ∈ filter (fun c => component_name c = laser_name) components)
      by (by apply list_elem_of_filter).
    destruct (filter _ components) as [|d l]; [by apply elem_of_nil in Hin|].
    done.
  - intros H.
    assert (filter (fun c => component_name c = laser_name) components = [])
      as ->; [|done].
    induction components as [|c rest IH]; [done|].
    rewrite filter_cons_False by (apply H; by left).
    apply IH. intros d Hd. apply H. by right.
Qed.

End GroundWireFacts.

(** ** Explosion, then substitution *)

Section CopyFacts.

Import Explode Substitution.

(** The copy of a design is exploded before its grating couplers are
    replaced, so an array of grating couplers in the top cell gets a FaML
    for each of its members, each placed by [faml_trans] from the member's
    own placement. *)
Theorem gc_array_member_gets_faml
    (fc : faml) (L : layout) (cell : nat) (i : Inst) (ar : ArraySpec) :
  contains "GC" (cell_name L (faml_index fc)) = false ->
  i ∈ cell_insts L cell -> is_gc L i = true -> array i = Some ar ->
  exists L1 V1 exploded_count L2 V2 gc_positions,
    explode_regular_arrays (S (length L)) L cell ∅ = Some (L1, V1, exploded_count)
    /\ replace_gc_with_faml (S (length L1)) (Some fc) L1 cell ∅
       = Some (L2, V2, gc_positions)
    /\ cell_insts L2 cell = replaced L fc (flat_map explode (cell_insts L cell))
    /\ forall r c, (r < na ar)%nat -> (c < nb ar)%nat ->
         mkInst (faml_index fc)
                (faml_trans fc
                   (displaced (trans i)
                      (vadd (vscale (Z.of_nat r) (a ar))
                            (vscale (Z.of_nat c) (b ar)))))
                None
         ∈ cell_insts L2 cell.
Proof.
  intros Hf Hi Hgc Har.
  destruct (explode_regular_arrays_total (S (length L)) L cell ∅
              (size_unvisited_empty L)) as [[[L1 V1] n] E1].
  pose proof (explode_regular_arrays_names _ _ _ _ _ E1) as Hnames.
  pose proof (explode_regular_arrays_spec _ _ _ _ _ E1)
    as ((_ & _ & _ & Hex) & _ & Hcell & _).
  simpl in Hnames, Hex, Hcell.
  assert (Hf1 : contains "GC" (cell_name L1 (faml_index fc)) = false)
    by (by rewrite Hnames).
  destruct (replace_gc_with_faml_total (Some fc) (S (length L1)) L1 cell ∅
              (size_unvisited_empty L1)) as [[[L2 V2] ps] E2].
  pose proof (replace_gc_with_faml_spec fc _ _ _ _ _ Hf1 E2)
    as (((_ & _ & _ & _ & Hnew) & _ & Hcell2) & _).
  simpl in Hnew, Hcell2.
  assert (Hinsts : cell_insts L2 cell
                   = replaced L fc (flat_map explode (cell_insts L cell))).
  { rewrite Hnew by (done || set_solver).
    rewrite (replaced_names L L1) by done.
    rewrite Hex by (done || set_solver). done. }
  exists L1, V1, n, L2, V2, ps. split_and!; [done..|].
  intros r c Hr Hc. rewrite Hinsts. unfold replaced.
  apply elem_of_app. right. apply list_elem_of_fmap.
  exists (mkInst (cell_index i)
                 (displaced (trans i)
                    (vadd (vscale (Z.of_nat r) (a ar)) (vscale (Z.of_nat c) (b ar))))
                 None).
  split; [done|]. apply list_elem_of_filter. split; [exact Hgc|].
  apply list_elem_of_In, in_flat_map. exists i. split; [by apply list_elem_of_In|].
  apply list_elem_of_In. by apply (explode_array i ar Har).
Qed.

Lemma gc_array_member_gets_faml_witness :
  exists L1 V1 exploded_count L2 V2 gc_positions,
    explode_regular_arrays (S (length gc_array_layout)) gc_array_layout 0 ∅
      = Some (L1, V1, exploded_count)
    /\ replace_gc_with_faml (S (length L1)) (Some array_faml) L1 0 ∅
       = Some (L2, V2, gc_positions)
    /\ cell_insts L2 0
       = replaced gc_array_layout array_faml
                  (flat_map explode (cell_insts gc_array_layout 0))
    /\ forall r c, (r < na gc_array)%nat -> (c < nb gc_array)%nat ->
         mkInst (faml_index array_faml)
                (faml_trans array_faml
                   (displaced (trans gc_array_inst)
                      (vadd (vscale (Z.of_nat r) (a gc_array))
                            (vscale (Z.of_nat c) (b gc_array)))))
                None
         ∈ cell_insts L2 0.
Proof.
  apply (gc_array_member_gets_faml array_faml gc_array_layout 0
           gc_array_inst gc_array).
  - reflexivity.
  - unfold gc_array_layout. cbn. set_solver.
  - reflexivity.
  - reflexivity.
Defined.

End CopyFacts.
